(** * Audiobook generator backend: the text-to-character-to-voice pipeline

    A shallow embedding of [src/backend/tts_service.py] (class
    [KokoroTTSService]) and [src/backend/gemini_service.py] (class
    [GeminiService]), followed by the properties of these functions.

    Conventions of the embedding.
    - Python [int] is [Z]; [//] is [Z.div] and [%] is [Z.modulo] (both floor,
      as in Python, for the positive divisors that occur).
    - Python [float] is [pyfloat]: a finite value is written as a rational,
      [FFin q] standing for the binary64 number nearest to [q], so that a
      decimal literal reads as in the source; NaN and the two infinities are
      kept apart because the range checks of the code treat them differently.
      Division and multiplication round their result to binary64
      ([round64]), to the nearest number with ties to even.
    - [str] is [string]; one [ascii] stands for one code point below 256.
    - A [dict] with string keys is a [gmap string _]; the dictionaries with a
      fixed shape (a voice, a character, a dialogue, a suggestion) are records.
    - An exception is a value of [exn]; a function that can raise returns
      [result].  Methods that read or update [self] pass the service record
      explicitly.  Log lines are not modelled. *)

From Stdlib Require Import QArith Qround Qpower SpecFloat Ascii Lqa.
From stdpp Require Import gmap strings list pretty sorting.

#[local] Set Warnings "-clear-no-such-hyp".

Local Open Scope string_scope.
Local Open Scope list_scope.
Local Open Scope Z_scope.

(** ** Python values, exceptions and built-ins *)

Module Py.

Inductive pyfloat : Type :=
  | FFin (q : Q)
  | FNaN
  | FPosInf
  | FNegInf.

#[warnings="-register-all"]
Inductive value : Type :=
  | VNone
  | VBool (b : bool)
  | VInt (z : Z)
  | VFloat (f : pyfloat)
  | VStr (s : string)
  | VList (l : list value).

(** The exception classes the two services raise or can meet, each with the
    text that [str(e)] gives. *)
Inductive exn : Type :=
  | ValueError (msg : string)
  | KeyError (msg : string)
  | TypeError (msg : string)
  | OSError (msg : string)
  | ZeroDivisionError (msg : string)
  | OverflowError (msg : string)
  | StopIteration (msg : string)
  | TTSModelNotFoundError (msg : string)
  | TTSProcessingError (msg : string)
  | GeminiConfigError (msg : string)
  | GeminiAPIError (msg : string)
  | GeminiRequestError (msg : string).

Definition exn_str (e : exn) : string :=
  match e with
  | ValueError m | KeyError m | TypeError m | OSError m | ZeroDivisionError m
  | OverflowError m | StopIteration m
  | TTSModelNotFoundError m | TTSProcessingError m
  | GeminiConfigError m | GeminiAPIError m | GeminiRequestError m => m
  end.

Inductive result (A : Type) : Type :=
  | Ok (a : A)
  | Raise (e : exn).
Arguments Ok {A} a.
Arguments Raise {A} e.

Definition bind {A B : Type} (r : result A) (k : A → result B) : result B :=
  match r with
  | Ok a => k a
  | Raise e => Raise e
  end.

#[global] Instance result_bind : MBind result := λ A B k r, bind r k.
#[global] Instance result_ret : MRet result := @Ok.

(** [try: body except Exception as e: raise wrap(str(e))] *)
Definition try_wrap {A : Type} (wrap : string → exn) (body : result A) : result A :=
  match body with
  | Ok a => Ok a
  | Raise e => Raise (wrap (exn_str e))
  end.

(** *** Numbers *)

Definition Qltb (x y : Q) : bool := negb (Qle_bool y x).

(** [a < b] on floats: false as soon as one side is NaN. *)
Definition float_lt (a b : pyfloat) : bool :=
  match a, b with
  | FNaN, _ | _, FNaN => false
  | FFin x, FFin y => Qltb x y
  | FNegInf, (FFin _ | FPosInf) => true
  | FFin _, FPosInf => true
  | _, _ => false
  end.

Definition float_le (a b : pyfloat) : bool :=
  match a, b with
  | FNaN, _ | _, FNaN => false
  | FFin x, FFin y => Qle_bool x y
  | FNegInf, _ => true
  | _, FPosInf => true
  | _, _ => false
  end.

(** [isinstance(v, (int, float))]; [bool] is a subclass of [int]. *)
Definition is_number (v : value) : bool :=
  match v with
  | VBool _ | VInt _ | VFloat _ => true
  | _ => false
  end.

(** The numeric value of a number; an [int] compares with a [float] exactly. *)
Definition to_float (v : value) : option pyfloat :=
  match v with
  | VBool b => Some (FFin (inject_Z (if b then 1 else 0)))
  | VInt z => Some (FFin (inject_Z z))
  | VFloat f => Some f
  | _ => None
  end.

(** [v < c] and [v > c] for a number [v] and a float constant [c]. *)
Definition num_lt (v : value) (c : pyfloat) : bool :=
  match to_float v with
  | Some f => float_lt f c
  | None => false
  end.

Definition num_gt (v : value) (c : pyfloat) : bool :=
  match to_float v with
  | Some f => float_lt c f
  | None => false
  end.

(** *** binary64 *)

(** [2 ** e] for an integer [e]. *)
Definition pow2 (e : Z) : Q := (2 ^ e)%Q.

(** [floor(log2(a))] for [0 < a]. *)
Definition Qlog2 (a : Q) : Z :=
  let k := Z.log2 (Qnum a) - Z.log2 (Z.pos (Qden a)) in
  if Qle_bool (pow2 k) a then k else k - 1.

(** The nearest integer, a tie going to the even one. *)
Definition round_half_even (x : Q) : Z :=
  let f := Qfloor x in
  match (x - inject_Z f ?= 1 # 2)%Q with
  | Lt => f
  | Gt => f + 1
  | Eq => if Z.even f then f else f + 1
  end.

(** The binary64 number nearest to [a], for [0 < a] and before the check for
    overflow: 53 significant bits, the last of them worth [2 ** e] with
    [e >= -1074], so that small values are rounded as subnormal numbers. *)
Definition nearest64 (a : Q) : Q :=
  let e := (Qlog2 a - 52) `max` (-1074) in
  (inject_Z (round_half_even (a / pow2 e)) * pow2 e)%Q.

(** The float a real number is rounded to; a result of [2 ** 1024] or more
    is an infinity.  The sign of a zero is not kept. *)
Definition round64 (q : Q) : pyfloat :=
  match (q ?= 0)%Q with
  | Eq => FFin 0
  | Gt =>
      let r := nearest64 q in
      if Qle_bool (pow2 1024) r then FPosInf else FFin (Qred r)
  | Lt =>
      let r := nearest64 (- q) in
      if Qle_bool (pow2 1024) r then FNegInf else FFin (Qred (- r))
  end.

(** The binary64 number a float stands for. *)
Definition as_double (f : pyfloat) : pyfloat :=
  match f with
  | FFin q => round64 q
  | _ => f
  end.

(** [a / b] on floats; [None] is [ZeroDivisionError]. *)
Definition float_div (a b : pyfloat) : option pyfloat :=
  match as_double a, as_double b with
  | a, FFin y =>
      if Qeq_bool y 0 then None
      else Some (match a with
                 | FFin x => round64 (x / y)
                 | FNaN => FNaN
                 | FPosInf => if Qltb 0 y then FPosInf else FNegInf
                 | FNegInf => if Qltb 0 y then FNegInf else FPosInf
                 end)
  | FNaN, _ | _, FNaN => Some FNaN
  | FFin _, (FPosInf | FNegInf) => Some (FFin 0)
  | _, _ => Some FNaN
  end.

Definition float_mul (a b : pyfloat) : pyfloat :=
  let sign_inf (pos : bool) (q : Q) :=
    if Qeq_bool q 0 then FNaN
    else if Bool.eqb pos (Qltb 0 q) then FPosInf else FNegInf in
  match as_double a, as_double b with
  | FNaN, _ | _, FNaN => FNaN
  | FFin x, FFin y => round64 (x * y)
  | FPosInf, FFin y | FFin y, FPosInf => sign_inf true y
  | FNegInf, FFin y | FFin y, FNegInf => sign_inf false y
  | FPosInf, FPosInf | FNegInf, FNegInf => FPosInf
  | _, _ => FNegInf
  end.

(** The integer an [int] or a [bool] stands for. *)
Definition as_int (v : value) : option Z :=
  match v with
  | VBool b => Some (if b then 1 else 0)
  | VInt z => Some z
  | _ => None
  end.

(** [type(v).__name__] *)
Definition type_name (v : value) : string :=
  match v with
  | VNone => "NoneType"
  | VBool _ => "bool"
  | VInt _ => "int"
  | VFloat _ => "float"
  | VStr _ => "str"
  | VList _ => "list"
  end.

(** [float(z)] for an [int]: the nearest float; too large an [int] raises. *)
Definition float_of_int (z : Z) : result pyfloat :=
  match round64 (inject_Z z) with
  | FFin q => Ok (FFin q)
  | _ => Raise (OverflowError "int too large to convert to float")
  end.

(** The operand of a float operation a value becomes, if it is a number. *)
Definition float_operand (v : value) : option (result pyfloat) :=
  match v with
  | VFloat f => Some (Ok f)
  | VBool b => Some (float_of_int (if b then 1 else 0))
  | VInt z => Some (float_of_int z)
  | _ => None
  end.

(** True division [a / b] of two values.  Two integers give their exact
    quotient rounded once; otherwise the operands are divided as floats. *)
Definition truediv (a b : value) : result pyfloat :=
  match as_int a, as_int b with
  | Some x, Some y =>
      if y =? 0 then Raise (ZeroDivisionError "division by zero")
      else match round64 (inject_Z x / inject_Z y) with
           | FFin q => Ok (FFin q)
           | _ => Raise (OverflowError
                           "integer division result too large for a float")
           end
  | _, _ =>
      match float_operand a, float_operand b with
      | Some x, Some y =>
          x ← x; y ← y;
          match float_div x y with
          | Some r => Ok r
          | None => Raise (ZeroDivisionError "float division by zero")
          end
      | _, _ =>
          Raise (TypeError ("unsupported operand type(s) for /: '"
                            +:+ type_name a +:+ "' and '" +:+ type_name b +:+ "'"))
      end
  end.

Arguments round64 : simpl never.
Arguments float_div : simpl never.
Arguments float_mul : simpl never.
Arguments truediv : simpl never.

(** *** Strings *)

(** [str.isspace] on one code point below 256. *)
Definition is_whitespace (c : ascii) : bool :=
  let n := Z.of_N (N_of_ascii c) in
  ((9 <=? n) && (n <=? 13)) || ((28 <=? n) && (n <=? 32))
  || (n =? 133) || (n =? 160).

(** [text.split()]: the maximal runs of characters that are not white space.
    [cur] is the word being read, in reverse. *)
Fixpoint split_go (cur : option string) (s : string) : list string :=
  match s with
  | EmptyString => option_list (String.rev <$> cur)
  | String c s' =>
      if is_whitespace c
      then option_list (String.rev <$> cur) ++ split_go None s'
      else split_go (Some (String c (default "" cur))) s'
  end.

Definition split (s : string) : list string := split_go None s.

(** [len(s)] *)
Definition len (s : string) : Z := Z.of_nat (String.length s).

(** [s[a:b]] for [0 <= a]; a slice never raises, it is clipped to [s]. *)
Definition slice (s : string) (a b : Z) : string :=
  String.substring (Z.to_nat a) (Z.to_nat (Z.min b (len s) - a)) s.

(** [s[a:]] for [0 <= a]. *)
Definition slice_from (s : string) (a : Z) : string :=
  String.substring (Z.to_nat a) (Z.to_nat (len s - a)) s.

(** [", ".join(l)] *)
Fixpoint join (sep : string) (l : list string) : string :=
  match l with
  | [] => ""
  | [x] => x
  | x :: rest => x +:+ sep +:+ join sep rest
  end.

(** What the interpreter and the host supply: the [repr] of a string and of a
    float, the per-process [hash] of a string, the temporary directory, and
    what becomes of [with open(path, "w") as f: f.write(data)].  [open_w] is
    the text of the error when [open] fails; nothing is touched then.  Once
    [open] has succeeded the file exists and is empty; [write_w] is the text
    of the error when writing or the flush at closing fails, with the number
    of characters of [data] that have reached the file. *)
Record Env : Type := {
  repr_str : string → string;
  repr_float : pyfloat → string;
  hash : string → Z;
  gettempdir : string;
  open_w : string → option string;
  write_w : string → string → option (string * nat);
  path_exists : string → bool;
  environ : string → option string
}.

Section Formatting.
Variable env : Env.

(** [repr(v)] *)
Fixpoint repr (v : value) : string :=
  match v with
  | VNone => "None"
  | VBool true => "True"
  | VBool false => "False"
  | VInt z => pretty z
  | VFloat f => repr_float env f
  | VStr s => repr_str env s
  | VList l => "[" +:+ join ", " (map repr l) +:+ "]"
  end.

(** [str(v)], which an f-string applies to a value. *)
Definition str (v : value) : string :=
  match v with
  | VStr s => s
  | _ => repr v
  end.
End Formatting.

End Py.

Export Py.

(** ** tts_service.py *)

Module Tts.

(** One entry of [available_voices].  The built-in entries have the four keys
    ["id"], ["name"], ["gender"] and ["language"]; a customized entry has
    ["is_custom"], ["base_voice_id"] and ["customizations"] as well. *)
Record Voice : Type := {
  v_id : string;
  v_name : value;
  v_gender : string;
  v_language : string;
  v_is_custom : option bool;
  v_base_voice_id : option string;
  v_customizations : option (gmap string value)
}.

Definition builtin_voice (i n g l : string) : Voice :=
  {| v_id := i; v_name := VStr n; v_gender := g; v_language := l;
     v_is_custom := None; v_base_voice_id := None; v_customizations := None |}.

Record KokoroTTSService : Type := {
  model_path : string;
  initialized : bool;
  available_voices : list Voice;
  model : option string
}.

(** The dictionary [generate_audio] returns. *)
Record Audio : Type := {
  file_path : string;
  duration : pyfloat;
  format : string;
  sample_rate : Z;
  text_length : Z;
  voice_id : string;
  parameters : gmap string value
}.

(** The state a method call works on: the service object and the files
    written so far. *)
Record World : Type := {
  self : KokoroTTSService;
  files : gmap string string
}.

Definition M (A : Type) : Type := World → result A * World.

Definition set_self (w : World) (s : KokoroTTSService) : World :=
  {| self := s; files := files w |}.

(** [_load_model]: the mock body cannot raise, so the [except] branch that
    re-raises [TTSModelNotFoundError] is never taken. *)
Definition _load_model (s : KokoroTTSService) : KokoroTTSService :=
  {| model_path := model_path s;
     initialized := true;
     available_voices :=
       [ builtin_voice "voice_1" "Female 1" "female" "en-US";
         builtin_voice "voice_2" "Male 1" "male" "en-US";
         builtin_voice "voice_3" "Female 2" "female" "en-US";
         builtin_voice "voice_4" "Male 2" "male" "en-US" ];
     model := Some "MockKokoroTTSModel" |}.

Definition __init__ (env : Env) (model_path : option string) : KokoroTTSService :=
  let path :=
    match model_path with
    | Some p => if bool_decide (p = "") then None else Some p
    | None => None
    end in
  let path :=
    match path with
    | Some p => p
    | None => default "./models/kokoro_tts" (environ env "KOKORO_MODEL_PATH")
    end in
  let s := {| model_path := path; initialized := false;
              available_voices := []; model := None |} in
  if negb (path_exists env path) then s else _load_model s.

Definition ensure_model_loaded : M unit := λ w,
  if negb (initialized (self w)) then
    let w := set_self w (_load_model (self w)) in
    if negb (initialized (self w))
    then (Raise (TTSModelNotFoundError "TTS model could not be initialized"), w)
    else (Ok (), w)
  else (Ok (), w).

Definition valid_emotions : list string := ["neutral"; "happy"; "sad"; "angry"].

Definition _process_params (params : gmap string value)
  : result (gmap string value) :=
  let processed : gmap string value := ∅ in
  (* Process pitch *)
  processed ←
    match params !! "pitch" with
    | Some pitch =>
        if negb (is_number pitch) then
          Raise (ValueError "Pitch must be a number")
        else if num_lt pitch (FFin (-10.0)) || num_gt pitch (FFin 10.0) then
          Raise (ValueError "Pitch must be between -10.0 and 10.0")
        else Ok (<["pitch" := pitch]> processed)
    | None => Ok (<["pitch" := VFloat (FFin 0.0)]> processed)
    end;
  (* Process speed *)
  processed ←
    match params !! "speed" with
    | Some speed =>
        if negb (is_number speed) then
          Raise (ValueError "Speed must be a number")
        else if num_lt speed (FFin 0.5) || num_gt speed (FFin 2.0) then
          Raise (ValueError "Speed must be between 0.5 and 2.0")
        else Ok (<["speed" := speed]> processed)
    | None => Ok (<["speed" := VFloat (FFin 1.0)]> processed)
    end;
  (* Process emotion *)
  processed ←
    match params !! "emotion" with
    | Some emotion =>
        match emotion with
        | VStr e =>
            if negb (bool_decide (e ∈ valid_emotions)) then
              Raise (ValueError
                "Emotion must be one of: ['neutral', 'happy', 'sad', 'angry']")
            else Ok (<["emotion" := emotion]> processed)
        | _ => Raise (ValueError "Emotion must be a string")
        end
    | None => Ok (<["emotion" := VStr "neutral"]> processed)
    end;
  (* Process emphasis *)
  processed ←
    match params !! "emphasis" with
    | Some emphasis =>
        match emphasis with
        | VList _ => Ok (<["emphasis" := emphasis]> processed)
        | _ => Raise (ValueError "Emphasis must be a list of words")
        end
    | None => Ok (<["emphasis" := VList []]> processed)
    end;
  Ok processed.

(** [any(voice["id"] == voice_id for voice in self.available_voices)] *)
Definition voice_exists (voices : list Voice) (voice_id : string) : bool :=
  existsb (λ voice, bool_decide (v_id voice = voice_id)) voices.

(** [[voice["id"] for voice in self.available_voices]], as an f-string
    prints it. *)
Definition available_ids (env : Env) (voices : list Voice) : string :=
  repr env (VList (VStr <$> (v_id <$> voices))).

(** [with open(audio_file, "w") as f: f.write(data)] *)
Definition write_file (env : Env) (path data : string) : M unit := λ w,
  match open_w env path with
  | Some msg => (Raise (OSError msg), w)
  | None =>
      match write_w env path data with
      | Some (msg, n) =>
          (Raise (OSError msg),
           {| self := self w;
              files := <[path := String.substring 0 n data]> (files w) |})
      | None =>
          (Ok (), {| self := self w; files := <[path := data]> (files w) |})
      end
  end.

(** The body of the [try] block of [generate_audio]. *)
Definition generate_audio_body (env : Env) (text voice_id : string)
    (params : gmap string value) : M Audio := λ w,
  (* Validate and process parameters *)
  match _process_params params with
  | Raise e => (Raise e, w)
  | Ok processed_params =>
      (* For now, create a mock audio file *)
      let temp_dir := gettempdir env in
      let audio_file :=
        temp_dir +:+ "/" +:+ "kokoro_tts_" +:+ voice_id +:+ "_"
          +:+ pretty (hash env text `mod` 10000) +:+ ".mp3" in
      match write_file env audio_file "Mock audio data" w with
      | (Raise e, w) => (Raise e, w)
      | (Ok _, w) =>
          (* Mock duration calculation based on text length and speech rate *)
          let speech_rate :=
            default (VFloat (FFin 1.0)) (processed_params !! "speed") in
          let words := Z.of_nat (length (split text)) in
          (a ← truediv (VInt words) (VInt 150);
           b ← truediv (VInt 1) speech_rate;
           let duration := float_mul a b in
           Ok {| file_path := audio_file;
                 duration := duration;
                 format := "mp3";
                 sample_rate := 24000;
                 text_length := len text;
                 voice_id := voice_id;
                 parameters := processed_params |},
           w)
      end
  end.

Definition generate_audio (env : Env) (text voice_id : string)
    (params : option (gmap string value)) : M Audio := λ w,
  (* Validate inputs *)
  if bool_decide (text = "") then
    (Raise (ValueError "Text must be a non-empty string"), w)
  else if bool_decide (voice_id = "") then
    (Raise (ValueError "Voice ID must be a non-empty string"), w)
  else if 10000 <? len text then
    (Raise (ValueError "Text is too long (max 10000 characters)"), w)
  else
    let params := default ∅ params in
    (* Ensure the model is loaded *)
    match ensure_model_loaded w with
    | (Raise e, w) => (Raise e, w)
    | (Ok _, w) =>
        (* Check if the voice exists *)
        if negb (voice_exists (available_voices (self w)) voice_id) then
          (Raise (ValueError
             ("Voice ID '" +:+ voice_id +:+ "' not found. Available voices: "
              +:+ available_ids env (available_voices (self w)))), w)
        else
          let '(r, w) := generate_audio_body env text voice_id params w in
          (try_wrap (λ m, TTSProcessingError ("Failed to generate audio: " +:+ m)) r,
           w)
    end.

Definition get_available_voices : M (list Voice) := λ w,
  match ensure_model_loaded w with
  | (Raise e, w) => (Raise e, w)
  | (Ok _, w) => (Ok (available_voices (self w)), w)
  end.

(** The body of the [try] block of [customize_voice]. *)
Definition customize_voice_body (env : Env) (voice_id : string)
    (customizations : gmap string value) : M string := λ w,
  let voices := available_voices (self w) in
  match find (λ voice, bool_decide (v_id voice = voice_id)) voices with
  | None => (Raise (StopIteration ""), w)
  | Some base_voice =>
      let new_voice_id :=
        "custom_" +:+ voice_id +:+ "_" +:+ pretty (Z.of_nat (length voices) + 1) in
      (* Add the new voice to available voices *)
      let new_voice :=
        {| v_id := new_voice_id;
           v_name := default (VStr ("Customized " +:+ str env (v_name base_voice)))
                             (customizations !! "name");
           v_gender := v_gender base_voice;
           v_language := v_language base_voice;
           v_is_custom := Some true;
           v_base_voice_id := Some voice_id;
           v_customizations := Some customizations |} in
      let s := self w in
      (Ok new_voice_id,
       set_self w {| model_path := model_path s;
                     initialized := initialized s;
                     available_voices := voices ++ [new_voice];
                     model := model s |})
  end.

Definition customize_voice (env : Env) (voice_id : string)
    (customizations : gmap string value) : M string := λ w,
  (* Validate inputs *)
  if bool_decide (voice_id = "") then
    (Raise (ValueError "Voice ID must be a non-empty string"), w)
  else if bool_decide (customizations = ∅) then
    (Raise (ValueError "Customizations must be a non-empty dictionary"), w)
  else
    (* Ensure the model is loaded *)
    match ensure_model_loaded w with
    | (Raise e, w) => (Raise e, w)
    | (Ok _, w) =>
        (* Check if the base voice exists *)
        if negb (voice_exists (available_voices (self w)) voice_id) then
          (Raise (ValueError
             ("Base voice ID '" +:+ voice_id +:+ "' not found. Available voices: "
              +:+ available_ids env (available_voices (self w)))), w)
        else
          let '(r, w) := customize_voice_body env voice_id customizations w in
          (try_wrap (λ m, TTSProcessingError ("Failed to customize voice: " +:+ m)) r,
           w)
    end.

End Tts.

(** ** gemini_service.py *)

Module Gemini.

(** One voice suggestion: ["pitch"] is written as an [int] in the source,
    ["speed"] and ["confidence"] as floats. *)
Record Suggestion : Type := {
  s_voice_id : string;
  s_name : string;
  s_pitch : Z;
  s_speed : pyfloat;
  s_confidence : pyfloat
}.

Record CharacterInfo : Type := {
  name : string;
  description : string;
  dialogue_count : Z;
  confidence : pyfloat;
  is_narrator : bool;
  character_traits : list string;
  gender : option string;
  age : option string;
  speaking_style : option string;
  voice_suggestions : list Suggestion
}.

(** The dictionary form of a character.  A key can be missing; for the three
    keys whose value may be [None], a missing key and [None] read the same
    through [dict.get]. *)
Record CharDict : Type := {
  d_name : option string;
  d_description : option string;
  d_dialogue_count : option Z;
  d_confidence : option pyfloat;
  d_is_narrator : option bool;
  d_character_traits : option (list string);
  d_gender : option string;
  d_age : option string;
  d_speaking_style : option string;
  d_voice_suggestions : option (list Suggestion)
}.

Record DialogueInfo : Type := {
  text : string;
  character_name : string;
  start_index : Z;
  end_index : Z;
  dl_confidence : pyfloat;
  emotion : option string
}.

Record DialogueDict : Type := {
  d_text : option string;
  d_character_name : option string;
  d_start_index : option Z;
  d_end_index : option Z;
  d_dl_confidence : option pyfloat;
  d_emotion : option string
}.

(** [data[key]] *)
Definition getitem {A : Type} (key : string) (field : option A) : result A :=
  match field with
  | Some a => Ok a
  | None => Raise (KeyError ("'" +:+ key +:+ "'"))
  end.

Module CharacterInfo_.

Definition to_dict (c : CharacterInfo) : CharDict :=
  {| d_name := Some (name c);
     d_description := Some (description c);
     d_dialogue_count := Some (dialogue_count c);
     d_confidence := Some (confidence c);
     d_is_narrator := Some (is_narrator c);
     d_character_traits := Some (character_traits c);
     d_gender := gender c;
     d_age := age c;
     d_speaking_style := speaking_style c;
     d_voice_suggestions := Some (voice_suggestions c) |}.

Definition from_dict (data : CharDict) : result CharacterInfo :=
  n ← getitem "name" (d_name data);
  Ok {| name := n;
        description := default "" (d_description data);
        dialogue_count := default 0 (d_dialogue_count data);
        confidence := default (FFin 0.0) (d_confidence data);
        is_narrator := default false (d_is_narrator data);
        character_traits := default [] (d_character_traits data);
        gender := d_gender data;
        age := d_age data;
        speaking_style := d_speaking_style data;
        voice_suggestions := default [] (d_voice_suggestions data) |}.

End CharacterInfo_.

Module DialogueInfo_.

Definition to_dict (d : DialogueInfo) : DialogueDict :=
  {| d_text := Some (text d);
     d_character_name := Some (character_name d);
     d_start_index := Some (start_index d);
     d_end_index := Some (end_index d);
     d_dl_confidence := Some (dl_confidence d);
     d_emotion := emotion d |}.

Definition from_dict (data : DialogueDict) : result DialogueInfo :=
  t ← getitem "text" (d_text data);
  c ← getitem "character_name" (d_character_name data);
  s ← getitem "start_index" (d_start_index data);
  e ← getitem "end_index" (d_end_index data);
  Ok {| text := t;
        character_name := c;
        start_index := s;
        end_index := e;
        dl_confidence := default (FFin 0.0) (d_dl_confidence data);
        emotion := d_emotion data |}.

End DialogueInfo_.

(** The three mock responses. *)
Record CharacterAnalysis : Type := {
  characters : list CharDict;
  language_detected : string;
  character_count : Z
}.

Record DialogueAnalysis : Type := {
  dialogues : list DialogueDict;
  da_dialogue_count : Z
}.

Record VoiceAnalysis : Type := {
  va_voice_suggestions : gmap string (list Suggestion)
}.

Inductive Response : Type :=
  | RCharacters (r : CharacterAnalysis)
  | RDialogues (r : DialogueAnalysis)
  | RVoices (r : VoiceAnalysis).

(** The request dictionary of [_make_api_request]. *)
Record Request : Type := {
  q_text : option string;
  q_characters : option (list CharDict);
  q_max_characters : option Z;
  q_language : option string;
  q_include_description : option bool;
  q_include_emotion : option bool
}.

Record GeminiService : Type := {
  api_key : option string
}.

(** Truth value of an optional string: [None] and [""] are false. *)
Definition truthy (o : option string) : bool :=
  match o with
  | Some s => negb (bool_decide (s = ""))
  | None => false
  end.

Definition __init__ (env : Env) (api_key : option string) : GeminiService :=
  {| api_key := if truthy api_key then api_key else environ env "GEMINI_API_KEY" |}.

Definition _validate_api_key (self : GeminiService) : result unit :=
  if negb (truthy (api_key self)) then
    Raise (GeminiConfigError
      "No Gemini API key configured. Set GEMINI_API_KEY environment variable or pass to constructor.")
  else Ok ().

Definition _validate_text_input (text : string) : result unit :=
  if bool_decide (text = "") then Raise (ValueError "Text cannot be empty")
  else if 1000000 <? len text then
    Raise (ValueError ("Text is too long (" +:+ pretty (len text)
                       +:+ " chars). Maximum is 1,000,000 characters."))
  else Ok ().

Definition _mock_character_analysis (text : string) : CharacterAnalysis :=
  (* Estimate the number of characters based on text length *)
  let text_length := len text in
  let num_characters := Z.min (Z.max 2 (text_length `div` 10000)) 10 in
  let mock_characters :=
    (λ i : Z,
       let is_narrator := bool_decide (i = 0) in
       let '(name, desc, traits, gender, age, style) :=
         if is_narrator then
           ("Narrator", "The narrator of the story",
            ["observant"; "descriptive"], None, None, "formal")
         else
           ("Character " +:+ pretty i, "A supporting character in the story",
            ["trait1"; "trait2"],
            Some (if bool_decide (i `mod` 2 = 0) then "male" else "female"),
            Some "adult", "casual") in
       {| d_name := Some name;
          d_description := Some desc;
          d_dialogue_count :=
            Some ((text_length `div` 500) * (if is_narrator then 3 else 1));
          d_confidence := Some (FFin (Qred (0.9 - inject_Z i * 0.05)));
          d_is_narrator := Some is_narrator;
          d_character_traits := Some traits;
          d_gender := gender;
          d_age := age;
          d_speaking_style := Some style;
          d_voice_suggestions := None |})
    <$> seqZ 0 num_characters in
  {| characters := mock_characters;
     language_detected := "en";
     character_count := Z.of_nat (length mock_characters) |}.

(** The [for i in range(num_dialogues)] loop of [_mock_dialogue_analysis];
    [range] holds the values of [i] still to come, and returning the list
    collected so far is the [break]. *)
Fixpoint dialogue_loop (text : string) (text_length num_dialogues : Z)
    (range : list Z) (current_pos : Z) (mock_dialogues : list DialogueDict)
  : list DialogueDict :=
  match range with
  | [] => mock_dialogues
  | i :: range =>
      (* Calculate a random dialogue length *)
      let dialogue_length := Z.min 100 (text_length `div` num_dialogues) in
      (* If we've exceeded text length, break *)
      if text_length <=? current_pos + dialogue_length then mock_dialogues
      else
        (* Skip ahead to simulate narrative between dialogues *)
        let current_pos :=
          current_pos + Z.min 500 (text_length `div` (num_dialogues * 2)) in
        (* If we've exceeded text length, break *)
        if text_length <=? current_pos then mock_dialogues
        else
          (* Create a mock dialogue *)
          let character_index := i `mod` 3 in
          let character_name :=
            if bool_decide (character_index = 0) then "Narrator"
            else "Character " +:+ pretty character_index in
          let dialogue :=
            {| d_text :=
                 Some (if current_pos + dialogue_length <? text_length
                       then slice text current_pos (current_pos + dialogue_length)
                       else slice_from text current_pos);
               d_character_name := Some character_name;
               d_start_index := Some current_pos;
               d_end_index := Some (current_pos + dialogue_length);
               d_dl_confidence := Some (FFin 0.8);
               d_emotion :=
                 ["neutral"; "happy"; "sad"; "angry"] !! Z.to_nat (i `mod` 4) |} in
          dialogue_loop text text_length num_dialogues range
            (current_pos + dialogue_length) (mock_dialogues ++ [dialogue])
  end.

Definition _mock_dialogue_analysis (text : string) : DialogueAnalysis :=
  (* Create some mock dialogue segments *)
  let text_length := len text in
  let num_dialogues := Z.min (Z.max 5 (text_length `div` 5000)) 50 in
  let mock_dialogues :=
    dialogue_loop text text_length num_dialogues (seqZ 0 num_dialogues) 0 [] in
  {| dialogues := mock_dialogues;
     da_dialogue_count := Z.of_nat (length mock_dialogues) |}.

(** The suggestions the rule table gives one character dictionary: the body
    of the second loop of [_mock_voice_suggestions]. *)
Definition suggestions_for (char : CharDict) : list Suggestion :=
  let is_narrator := default false (d_is_narrator char) in
  let gender := d_gender char in
  let suggestions : list Suggestion := [] in
  if is_narrator then
    let suggestions := suggestions ++
      [{| s_voice_id := "narrator_1"; s_name := "Clear Narrator";
          s_pitch := 0; s_speed := FFin 1.0; s_confidence := FFin 0.95 |}] in
    suggestions ++
      [{| s_voice_id := "narrator_2"; s_name := "Storyteller";
          s_pitch := -1; s_speed := FFin 0.9; s_confidence := FFin 0.9 |}]
  else if bool_decide (gender = Some "male") then
    let suggestions := suggestions ++
      [{| s_voice_id := "male_1"; s_name := "Standard Male";
          s_pitch := 0; s_speed := FFin 1.0; s_confidence := FFin 0.9 |}] in
    suggestions ++
      [{| s_voice_id := "male_2"; s_name := "Deep Male";
          s_pitch := -2; s_speed := FFin 0.95; s_confidence := FFin 0.85 |}]
  else if bool_decide (gender = Some "female") then
    let suggestions := suggestions ++
      [{| s_voice_id := "female_1"; s_name := "Standard Female";
          s_pitch := 1; s_speed := FFin 1.0; s_confidence := FFin 0.9 |}] in
    suggestions ++
      [{| s_voice_id := "female_2"; s_name := "Soft Female";
          s_pitch := 2; s_speed := FFin 1.05; s_confidence := FFin 0.85 |}]
  else
    suggestions ++
      [{| s_voice_id := "neutral_1"; s_name := "Neutral Voice";
          s_pitch := 0; s_speed := FFin 1.0; s_confidence := FFin 0.8 |}].

(** [characters] holds [CharacterInfo] objects ([inl]) or dictionaries
    ([inr]); [voice_suggestions[name] = suggestions] overwrites an earlier
    entry with the same name. *)
Definition _mock_voice_suggestions (characters : list (CharacterInfo + CharDict))
  : VoiceAnalysis :=
  (* Ensure we're working with character dictionaries *)
  let char_list :=
    (λ char, match char with
             | inl c => CharacterInfo_.to_dict c
             | inr d => d
             end) <$> characters in
  let voice_suggestions :=
    foldl (λ (voice_suggestions : gmap string (list Suggestion)) char,
             let name := default "Unknown" (d_name char) in
             <[name := suggestions_for char]> voice_suggestions)
          ∅ char_list in
  {| va_voice_suggestions := voice_suggestions |}.

(** [_make_api_request]: the simulated latency is not modelled; every
    exception of the body is re-raised as [GeminiAPIError]. *)
Definition _make_api_request (endpoint : string) (data : Request)
  : result Response :=
  try_wrap (λ m, GeminiAPIError ("Error making API request: " +:+ m))
    (if bool_decide (endpoint = "analyzeCharacters") then
       Ok (RCharacters (_mock_character_analysis (default "" (q_text data))))
     else if bool_decide (endpoint = "analyzeDialogue") then
       Ok (RDialogues (_mock_dialogue_analysis (default "" (q_text data))))
     else if bool_decide (endpoint = "suggestVoices") then
       Ok (RVoices (_mock_voice_suggestions (inr <$> default [] (q_characters data))))
     else Raise (GeminiAPIError ("Unknown endpoint: " +:+ endpoint))).

(** [response.get("characters", [])] and its two siblings. *)
Definition get_characters (r : Response) : list CharDict :=
  match r with RCharacters r => characters r | _ => [] end.

Definition get_dialogues (r : Response) : list DialogueDict :=
  match r with RDialogues r => dialogues r | _ => [] end.

Definition get_voice_suggestions (r : Response) : gmap string (list Suggestion) :=
  match r with RVoices r => va_voice_suggestions r | _ => ∅ end.

(** The three [except] clauses that close each public method:
    [GeminiConfigError] and [GeminiAPIError] pass, anything else becomes
    [GeminiRequestError]. *)
Definition reraise {A : Type} (prefix : string) (r : result A) : result A :=
  match r with
  | Ok a => Ok a
  | Raise (GeminiConfigError m) => Raise (GeminiConfigError m)
  | Raise (GeminiAPIError m) => Raise (GeminiAPIError m)
  | Raise e => Raise (GeminiRequestError (prefix +:+ exn_str e))
  end.

Definition identify_characters (self : GeminiService) (text : string)
  : result (list CharacterInfo) :=
  (* Validate inputs *)
  _ ← _validate_text_input text;
  reraise "Error identifying characters: "
    (if truthy (api_key self) then
       _ ← _validate_api_key self;
       (* Make the API request *)
       response ← _make_api_request "analyzeCharacters"
         {| q_text := Some text; q_characters := None;
            q_max_characters := Some 50; q_language := Some "en";
            q_include_description := Some true; q_include_emotion := None |};
       (* Parse and return the results *)
       mapM CharacterInfo_.from_dict (get_characters response)
     else
       (* Mock response mode *)
       let mock_response := _mock_character_analysis text in
       mapM CharacterInfo_.from_dict (characters mock_response)).

Definition identify_dialogue (self : GeminiService) (text : string)
    (characters : list CharacterInfo) : result (list DialogueInfo) :=
  (* Validate inputs *)
  _ ← _validate_text_input text;
  if bool_decide (characters = []) then
    Raise (ValueError "Character list cannot be empty")
  else
    reraise "Error identifying dialogue: "
      (if truthy (api_key self) then
         _ ← _validate_api_key self;
         (* Convert characters to the format expected by the API *)
         let char_data := CharacterInfo_.to_dict <$> characters in
         (* Make the API request *)
         response ← _make_api_request "analyzeDialogue"
           {| q_text := Some text; q_characters := Some char_data;
              q_max_characters := None; q_language := Some "en";
              q_include_description := None; q_include_emotion := Some true |};
         (* Parse and return the results *)
         mapM DialogueInfo_.from_dict (get_dialogues response)
       else
         (* Mock response mode *)
         let mock_response := _mock_dialogue_analysis text in
         mapM DialogueInfo_.from_dict (dialogues mock_response)).

Definition suggest_voices (self : GeminiService) (characters : list CharacterInfo)
  : result (gmap string (list Suggestion)) :=
  if bool_decide (characters = []) then
    Raise (ValueError "Character list cannot be empty")
  else
    reraise "Error suggesting voices: "
      (if truthy (api_key self) then
         _ ← _validate_api_key self;
         (* Convert characters to the format expected by the API *)
         let char_data := CharacterInfo_.to_dict <$> characters in
         (* Make the API request *)
         response ← _make_api_request "suggestVoices"
           {| q_text := None; q_characters := Some char_data;
              q_max_characters := None; q_language := None;
              q_include_description := None; q_include_emotion := None |};
         (* Parse and return the results *)
         Ok (get_voice_suggestions response)
       else
         (* Mock response mode *)
         let mock_response := _mock_voice_suggestions (inl <$> characters) in
         Ok (va_voice_suggestions mock_response)).

End Gemini.

(** ** Vocabulary of the properties *)

(** [lo <= v <= hi] for a number [v]; NaN is in no interval. *)
Definition within (lo hi : Q) (v : value) : bool :=
  match to_float v with
  | Some f => is_number v && float_le (FFin lo) f && float_le f (FFin hi)
  | None => false
  end.

(** [v < lo] or [hi < v] for a number [v]. *)
Definition outside (lo hi : Q) (v : value) : bool :=
  match to_float v with
  | Some f => is_number v && (float_lt f (FFin lo) || float_lt (FFin hi) f)
  | None => false
  end.

(** A key that is absent or whose value passes [ok]. *)
Definition absent_or (ok : value → bool) (o : option value) : bool :=
  match o with
  | Some v => ok v
  | None => true
  end.

Definition is_emotion (v : value) : bool :=
  match v with
  | VStr e => bool_decide (e ∈ Tts.valid_emotions)
  | _ => false
  end.

Definition is_list (v : value) : bool :=
  match v with
  | VList _ => true
  | _ => false
  end.

(** [text.split()] counted. *)
Definition word_count (text : string) : Z := Z.of_nat (length (split text)).

(** The service as [ensure_model_loaded] leaves it. *)
Definition loaded (s : Tts.KokoroTTSService) : Tts.KokoroTTSService :=
  if Tts.initialized s then s else Tts._load_model s.

(** The voice ids of the catalog, in order. *)
Definition voice_ids (s : Tts.KokoroTTSService) : list string :=
  Tts.v_id <$> Tts.available_voices s.

(** The world right after [KokoroTTSService(model_path)]. *)
Definition fresh_world (env : Env) (model_path : option string) : Tts.World :=
  {| Tts.self := Tts.__init__ env model_path; Tts.files := ∅ |}.

(** Does the character [c] occur in [s]? *)
Fixpoint has_char (c : ascii) (s : string) : bool :=
  match s with
  | EmptyString => false
  | String c' s' => bool_decide (c' = c) || has_char c s'
  end.

(** The shape of every catalog the service can hold: empty before the model
    is loaded; afterwards the four built-in voices followed by the derived
    ones, the [j]-th of which was minted when the catalog held [4 + j]
    voices. *)
Definition catalog_inv (s : Tts.KokoroTTSService) : Prop :=
  if Tts.initialized s then
    ∃ customs,
      Tts.available_voices s
        = Tts.available_voices (Tts._load_model s) ++ customs
      ∧ ∀ (j : nat) v, customs !! j = Some v →
          ∃ base, Tts.v_id v
                  = "custom_" +:+ base +:+ "_" +:+ pretty (Z.of_nat (4 + j) + 1)
  else Tts.available_voices s = [].

(** The worlds that calls of the public methods reach from a new service. *)
Inductive reachable (env : Env) : Tts.World → Prop :=
  | reach_init mp :
      reachable env (fresh_world env mp)
  | reach_generate_audio w text vid params :
      reachable env w →
      reachable env (Tts.generate_audio env text vid params w).2
  | reach_get_available_voices w :
      reachable env w →
      reachable env (Tts.get_available_voices w).2
  | reach_customize_voice w vid customizations :
      reachable env w →
      reachable env (Tts.customize_voice env vid customizations w).2.

(** A sequence of [customize_voice] calls, results dropped. *)
Definition customize_all (env : Env) (calls : list (string * gmap string value))
    (w : Tts.World) : Tts.World :=
  foldl (λ w call, (Tts.customize_voice env call.1 call.2 w).2) w calls.

(** What [CharacterInfo.from_dict] and [DialogueInfo.from_dict] build when no
    required key is missing. *)
Definition char_of_dict (data : Gemini.CharDict) : Gemini.CharacterInfo :=
  {| Gemini.name := default "" (Gemini.d_name data);
     Gemini.description := default "" (Gemini.d_description data);
     Gemini.dialogue_count := default 0 (Gemini.d_dialogue_count data);
     Gemini.confidence := default (FFin 0.0) (Gemini.d_confidence data);
     Gemini.is_narrator := default false (Gemini.d_is_narrator data);
     Gemini.character_traits := default [] (Gemini.d_character_traits data);
     Gemini.gender := Gemini.d_gender data;
     Gemini.age := Gemini.d_age data;
     Gemini.speaking_style := Gemini.d_speaking_style data;
     Gemini.voice_suggestions := default [] (Gemini.d_voice_suggestions data) |}.

Definition dialogue_of_dict (data : Gemini.DialogueDict) : Gemini.DialogueInfo :=
  {| Gemini.text := default "" (Gemini.d_text data);
     Gemini.character_name := default "" (Gemini.d_character_name data);
     Gemini.start_index := default 0 (Gemini.d_start_index data);
     Gemini.end_index := default 0 (Gemini.d_end_index data);
     Gemini.dl_confidence := default (FFin 0.0) (Gemini.d_dl_confidence data);
     Gemini.emotion := Gemini.d_emotion data |}.

Definition complete_dialogue (data : Gemini.DialogueDict) : Prop :=
  is_Some (Gemini.d_text data) ∧ is_Some (Gemini.d_character_name data)
  ∧ is_Some (Gemini.d_start_index data) ∧ is_Some (Gemini.d_end_index data).

(** The name the [i]-th span of the mock dialogue analysis carries. *)
Definition cycle_name (i : nat) : string :=
  match (i `mod` 3)%nat with
  | 0%nat => "Narrator"
  | 1%nat => "Character 1"
  | _ => "Character 2"
  end.

(** A list of suggestions ranked by confidence, best first. *)
Definition ranked (l : list Gemini.Suggestion) : Prop :=
  StronglySorted
    (λ a b, float_le (Gemini.s_confidence b) (Gemini.s_confidence a) = true) l.

(** A text of [n] characters, for the examples. *)
Definition text_of_length (n : Z) : string := Z.iter n (String "a") "".

(** A character with the given name, narrator flag and gender, for the
    examples. *)
Definition character (n : string) (narrator : bool) (g : option string)
  : Gemini.CharacterInfo :=
  {| Gemini.name := n; Gemini.description := ""; Gemini.dialogue_count := 0;
     Gemini.confidence := FFin 0.0; Gemini.is_narrator := narrator;
     Gemini.character_traits := []; Gemini.gender := g; Gemini.age := None;
     Gemini.speaking_style := None; Gemini.voice_suggestions := [] |}.

Definition no_provider : Gemini.GeminiService := {| Gemini.api_key := None |}.

(** A host for the examples: every file can be written, there is no model
    directory and no environment variable; no example prints a float. *)
Definition example_env : Env :=
  {| repr_str := λ s, "'" +:+ s +:+ "'";
     repr_float := λ _, "nan";
     hash := λ s, len s;
     gettempdir := "/tmp";
     open_w := λ _, None;
     write_w := λ _ _, None;
     path_exists := λ _, false;
     environ := λ _, None |}.

(** A host on which the audio file can be opened and the disk is full. *)
Definition full_disk_env : Env :=
  {| repr_str := repr_str example_env;
     repr_float := repr_float example_env;
     hash := hash example_env;
     gettempdir := gettempdir example_env;
     open_w := λ _, None;
     write_w := λ _ _, Some ("[Errno 28] No space left on device", 0%nat);
     path_exists := path_exists example_env;
     environ := environ example_env |}.

(** A binary64 number of the standard library's specification of floating
    point arithmetic, as a [pyfloat]. *)
Definition of_spec_float (f : spec_float) : pyfloat :=
  match f with
  | S754_zero _ => FFin 0
  | S754_infinity s => if s then FNegInf else FPosInf
  | S754_nan => FNaN
  | S754_finite s m e =>
      FFin (Qred ((if s then -1 else 1) * inject_Z (Z.pos m) * pow2 e))
  end.

(** The four keys [_process_params] reads and writes. *)
Definition param_keys : list string := ["pitch"; "speed"; "emotion"; "emphasis"].

(** A number that a range check of [_process_params] lets through: neither
    below [lo] nor above [hi]. *)
Definition passes (lo hi : Q) (v : value) : bool :=
  is_number v && negb (num_lt v (FFin lo) || num_gt v (FFin hi)).

(** The messages of the errors [_process_params] raises. *)
Definition param_messages : list string :=
  [ "Pitch must be a number"; "Pitch must be between -10.0 and 10.0";
    "Speed must be a number"; "Speed must be between 0.5 and 2.0";
    "Emotion must be a string";
    "Emotion must be one of: ['neutral', 'happy', 'sad', 'angry']";
    "Emphasis must be a list of words" ].

(** The path of the file [generate_audio] writes. *)
Definition audio_path (env : Env) (text voice_id : string) : string :=
  gettempdir env +:+ "/" +:+ "kokoro_tts_" +:+ voice_id +:+ "_"
    +:+ pretty (hash env text `mod` 10000) +:+ ".mp3".

(** The catalog [_load_model] installs. *)
Definition builtin_voices : list Tts.Voice :=
  [ Tts.builtin_voice "voice_1" "Female 1" "female" "en-US";
    Tts.builtin_voice "voice_2" "Male 1" "male" "en-US";
    Tts.builtin_voice "voice_3" "Female 2" "female" "en-US";
    Tts.builtin_voice "voice_4" "Male 2" "male" "en-US" ].

(** A catalog in which every profile is well formed: a built-in profile (one
    of the first four) has none of the three custom keys; a derived profile
    is flagged custom, keeps its customizations, and its base id is the id
    of a profile that stands before it and has the same gender and
    language. *)
Definition voice_wf (voices : list Tts.Voice) : Prop :=
  ∀ (i : nat) v, voices !! i = Some v →
    Tts.v_language v = "en-US"
    ∧ (Tts.v_gender v = "female" ∨ Tts.v_gender v = "male")
    ∧ match Tts.v_base_voice_id v with
      | None =>
          (i < 4)%nat ∧ Tts.v_is_custom v = None
          ∧ Tts.v_customizations v = None
      | Some b =>
          (4 ≤ i)%nat ∧ Tts.v_is_custom v = Some true
          ∧ is_Some (Tts.v_customizations v)
          ∧ ∃ (j : nat) base,
              (j < i)%nat ∧ voices !! j = Some base ∧ Tts.v_id base = b
              ∧ Tts.v_gender v = Tts.v_gender base
              ∧ Tts.v_language v = Tts.v_language base
      end.

(** The voice ids [_mock_voice_suggestions] can suggest. *)
Definition suggested_ids : list string :=
  ["narrator_1"; "narrator_2"; "male_1"; "male_2"; "female_1"; "female_2";
   "neutral_1"].

(** A non-negative binary64 number, leaving aside the largest exponent:
    an integer of at most 53 bits times a power of two not below
    [2 ** -1074]. *)
Definition representable (c : Q) : Prop :=
  ∃ m e : Z, -1074 ≤ e ∧ 0 ≤ m ≤ 2 ^ 53 ∧ (c == inject_Z m * pow2 e)%Q.

(** ** The embedding at work *)

Example split_words : split "  Hello   world " = ["Hello"; "world"].
Proof. reflexivity. Qed.

Example split_tabs_and_newlines :
  split ("one" +:+ String "009"%char ("two" +:+ String "010"%char "three"))
  = ["one"; "two"; "three"].
Proof. reflexivity. Qed.

Example slice_clipped : slice "abcdef" 4 9 = "ef" ∧ slice_from "abcdef" 4 = "ef".
Proof. split; reflexivity. Qed.

(** [0.1] is the float [3602879701896397 / 2 ** 55]; a tie goes to the even
    neighbour; half the smallest subnormal number is rounded to zero, and a
    value half a step beyond the largest float to infinity. *)
Example round64_tenth :
  round64 0.1 = FFin (3602879701896397 # 36028797018963968).
Proof. vm_compute. reflexivity. Qed.

Example round64_ties_to_even :
  round64 (inject_Z (2 ^ 53 + 1)) = FFin (inject_Z (2 ^ 53))
  ∧ round64 (inject_Z (2 ^ 53 + 3)) = FFin (inject_Z (2 ^ 53 + 4)).
Proof. split; vm_compute; reflexivity. Qed.

Example round64_range :
  round64 (pow2 (-1075)) = FFin 0
  ∧ round64 (3 * pow2 (-1075)) = FFin (Qred (2 * pow2 (-1074)))
  ∧ round64 (pow2 1024 - pow2 970) = FPosInf
  ∧ round64 (pow2 1024 - pow2 970 - 1) = FFin (Qred (pow2 1024 - pow2 971)).
Proof. repeat split; vm_compute; reflexivity. Qed.

(** The errors of [/]: a zero divisor, an [int] beyond the floats, and an
    operand that is no number. *)
Example truediv_errors :
  truediv (VInt 1) (VInt 0) = Raise (ZeroDivisionError "division by zero")
  ∧ truediv (VInt 1) (VFloat (FFin 0.0))
    = Raise (ZeroDivisionError "float division by zero")
  ∧ truediv (VInt (2 ^ 2000)) (VFloat (FFin 1.0))
    = Raise (OverflowError "int too large to convert to float")
  ∧ truediv (VInt (2 ^ 2000)) (VInt 1)
    = Raise (OverflowError "integer division result too large for a float")
  ∧ truediv (VInt 1) (VStr "a")
    = Raise (TypeError "unsupported operand type(s) for /: 'int' and 'str'")
  ∧ truediv (VBool true) (VInt 2) = Ok (FFin (1 # 2)).
Proof. repeat split; vm_compute; reflexivity. Qed.

(** Three words at the speed 1.5: [3 / 150] and [1 / 1.5] are rounded
    before they are multiplied, and the product, the float
    0.013333333333333332, is the neighbour of the float nearest to 1/75.
    The standard library's specification of binary64 gives the same
    quotients and the same product. *)
Example duration_is_rounded_three_times :
  truediv (VInt 3) (VInt 150)
    = Ok (FFin (5764607523034235 # 288230376151711744))
  ∧ truediv (VInt 1) (VFloat (FFin 1.5))
    = Ok (FFin (6004799503160661 # 9007199254740992))
  ∧ float_mul (FFin (5764607523034235 # 288230376151711744))
              (FFin (6004799503160661 # 9007199254740992))
    = FFin (3843071682022823 # 288230376151711744)
  ∧ round64 (1 / 75) = FFin (7686143364045647 # 576460752303423488).
Proof. repeat split; vm_compute; reflexivity. Qed.

Example duration_agrees_with_SpecFloat :
  let three := S754_finite false 3 0 in
  let one_hundred_fifty := S754_finite false 150 0 in
  let one := S754_finite false 1 0 in
  let one_and_a_half := S754_finite false 3 (-1) in
  of_spec_float (SFdiv 53 1024 three one_hundred_fifty) = round64 (3 / 150)
  ∧ of_spec_float (SFdiv 53 1024 one one_and_a_half) = round64 (1 / 1.5)
  ∧ of_spec_float (SFmul 53 1024 (SFdiv 53 1024 three one_hundred_fifty)
                                 (SFdiv 53 1024 one one_and_a_half))
    = float_mul (round64 (3 / 150)) (round64 (1 / 1.5)).
Proof. repeat split; vm_compute; reflexivity. Qed.

Example generate_audio_three_words :
  ∃ a w',
    Tts.generate_audio example_env "one two three" "voice_1"
      (Some {[ "speed" := VFloat (FFin 1.5) ]}) (fresh_world example_env None)
    = (Ok a, w')
    ∧ Tts.duration a = FFin (3843071682022823 # 288230376151711744).
Proof. eexists _, _. split; vm_compute; reflexivity. Qed.

(** When the disk is full the call raises after [open] has created the
    audio file, which is left behind empty. *)
Example generate_audio_disk_full :
  Tts.generate_audio full_disk_env "Hello" "voice_1" None
    (fresh_world full_disk_env None)
  = (Raise (TTSProcessingError
       "Failed to generate audio: [Errno 28] No space left on device"),
     {| Tts.self := loaded (Tts.__init__ full_disk_env None);
        Tts.files := {[ "/tmp/kokoro_tts_voice_1_5.mp3" := "" ]} |}).
Proof. vm_compute. reflexivity. Qed.

Example process_params_empty :
  Tts._process_params ∅
  = Ok {[ "pitch" := VFloat (FFin 0.0); "speed" := VFloat (FFin 1.0);
          "emotion" := VStr "neutral"; "emphasis" := VList [] ]}.
Proof. reflexivity. Qed.

Example process_params_bool_is_number :
  Tts._process_params {[ "speed" := VBool true ]}
  = Ok {[ "pitch" := VFloat (FFin 0.0); "speed" := VBool true;
          "emotion" := VStr "neutral"; "emphasis" := VList [] ]}.
Proof. reflexivity. Qed.

Example process_params_string_pitch :
  Tts._process_params {[ "pitch" := VStr "high" ]}
  = Raise (ValueError "Pitch must be a number").
Proof. reflexivity. Qed.

(** NaN is below no bound and above no bound, so both range checks let it
    through. *)
Example process_params_nan :
  Tts._process_params {[ "pitch" := VFloat FNaN; "speed" := VFloat FNaN ]}
  = Ok {[ "pitch" := VFloat FNaN; "speed" := VFloat FNaN;
          "emotion" := VStr "neutral"; "emphasis" := VList [] ]}.
Proof. reflexivity. Qed.

Example customize_twice :
  voice_ids (Tts.self
    (customize_all example_env
       [("voice_1", {[ "name" := VStr "Deep" ]});
        ("voice_1", {[ "timbre" := VInt 2 ]});
        ("custom_voice_1_5", {[ "pitch_shift" := VInt 1 ]})]
       (fresh_world example_env None)))
  = ["voice_1"; "voice_2"; "voice_3"; "voice_4";
     "custom_voice_1_5"; "custom_voice_1_6"; "custom_custom_voice_1_5_7"].
Proof. reflexivity. Qed.

Example unknown_voice_message :
  (Tts.generate_audio example_env "Hello" "nonexistent_voice" None
     (fresh_world example_env None)).1
  = Raise (ValueError
      "Voice ID 'nonexistent_voice' not found. Available voices: ['voice_1', 'voice_2', 'voice_3', 'voice_4']").
Proof. reflexivity. Qed.

Example mock_roster_names :
  (λ d, default "" (Gemini.d_name d))
    <$> Gemini.characters (Gemini._mock_character_analysis (text_of_length 30000))
  = ["Narrator"; "Character 1"; "Character 2"].
Proof. reflexivity. Qed.

Example mock_dialogue_count :
  Gemini.da_dialogue_count (Gemini._mock_dialogue_analysis (text_of_length 1000)) = 5.
Proof. reflexivity. Qed.

(** ** ParameterValidator: [_process_params] *)

Section ProcessParams.
Implicit Types (params : gmap string value) (v : value).



Lemma outside_not_within lo hi v :
  outside lo hi v = true → within lo hi v = false.
Proof.
  unfold outside, within.
  destruct (to_float v) as [f|]; [|done].
  rewrite andb_true_iff, orb_true_iff. intros [_ H].
  destruct (is_number v); [simpl|done].
  destruct f as [q| | |]; simpl in *; try done.
  unfold Qltb in H. rewrite !negb_true_iff in H.
  destruct H as [H|H]; rewrite H; [done|apply andb_false_r].
Qed.

(** A number that passes the range check is NaN or a finite value of the
    interval. *)
Lemma range_check_passed lo hi v :
  is_number v = true →
  num_lt v (FFin lo) || num_gt v (FFin hi) = false →
  to_float v = Some FNaN
  ∨ ∃ q, to_float v = Some (FFin q) ∧ (lo <= q)%Q ∧ (q <= hi)%Q.
Proof.
  unfold num_lt, num_gt. intros Hn.
  destruct (to_float v) as [[q| | |]|] eqn:Hf; simpl; try done.
  - rewrite orb_false_iff. unfold Qltb. rewrite !negb_false_iff.
    intros [H1 H2]. right. exists q.
    by rewrite <-!Qle_bool_iff.
  - by left.
  - by destruct v.
Qed.

(** What a successful [_process_params] returns, and what it has checked of
    the speed. *)
Lemma process_params_ok_inv params m :
  Tts._process_params params = Ok m →
  m = <["emphasis" := default (VList []) (params !! "emphasis")]>
     (<["emotion" := default (VStr "neutral") (params !! "emotion")]>
     (<["speed" := default (VFloat (FFin 1.0)) (params !! "speed")]>
     (<["pitch" := default (VFloat (FFin 0.0)) (params !! "pitch")]>
        (∅ : gmap string value))))
  ∧ (to_float (default (VFloat (FFin 1.0)) (params !! "speed")) = Some FNaN
     ∨ ∃ q, to_float (default (VFloat (FFin 1.0)) (params !! "speed"))
            = Some (FFin q) ∧ (0.5 <= q)%Q ∧ (q <= 2.0)%Q).
Proof.
  unfold Tts._process_params.
  destruct (params !! "pitch") as [p|]; simpl.
  all: try (destruct (is_number p); simpl; [|done];
            destruct (num_lt p _ || num_gt p _); simpl; [done|]).
  all: destruct (params !! "speed") as [sp|]; simpl.
  all: try (destruct (is_number sp) eqn:Hn; simpl; [|done];
            destruct (num_lt sp _ || num_gt sp _) eqn:Hr; simpl; [done|]).
  all: destruct (params !! "emotion") as [[| | | |e|]|]; simpl; try done.
  all: try (destruct (bool_decide (e ∈ Tts.valid_emotions)); simpl; [|done]).
  all: destruct (params !! "emphasis") as [[| | | | |l]|]; simpl; try done.
  all: intros [= <-]; (split; [done|]).
  all: try (by eapply range_check_passed).
  all: right; exists 1.0%Q; done.
Qed.




End ProcessParams.

(** ** Floats: rounding to binary64 *)

Section Binary64.
Local Open Scope Q_scope.

Lemma pow2_pos e : 0 < pow2 e.
Proof. apply Qpower_0_lt. reflexivity. Qed.

Lemma pow2_add x y : pow2 (x + y) == pow2 x * pow2 y.
Proof. apply Qpower_plus. discriminate. Qed.

Lemma pow2_le x y : (x ≤ y)%Z → pow2 x <= pow2 y.
Proof. intros. apply Qpower_le_compat_l; [done|]. discriminate. Qed.

Lemma pow2_Z n : (0 ≤ n)%Z → pow2 n == inject_Z (2 ^ n).
Proof. intros. unfold pow2. by rewrite Zpower_Qpower. Qed.

Lemma pow2_split x y : pow2 x == pow2 (x - y) * pow2 y.
Proof. rewrite <- pow2_add. by replace (x - y + y)%Z with x by lia. Qed.

Lemma Qlog2_spec a : 0 < a → pow2 (Qlog2 a) <= a ∧ a < pow2 (Qlog2 a + 1).
Proof.
  intros Ha. unfold Qlog2.
  destruct a as [n d]. cbn [Qnum Qden].
  assert (0 < n)%Z as Hn by (unfold Qlt in Ha; simpl in Ha; lia).
  set (ln := Z.log2 n). set (ld := Z.log2 (Z.pos d)). set (k := (ln - ld)%Z).
  destruct (Z.log2_spec n Hn) as [Hn1 Hn2].
  destruct (Z.log2_spec (Z.pos d) (Pos2Z.is_pos d)) as [Hd1 Hd2].
  fold ln in Hn1, Hn2. fold ld in Hd1, Hd2.
  assert (0 ≤ ln)%Z as Hln by apply Z.log2_nonneg.
  assert (0 ≤ ld)%Z as Hld by apply Z.log2_nonneg.
  assert ((n # d) * inject_Z (Z.pos d) == inject_Z n) as Hnd.
  { unfold Qeq, Qmult, inject_Z; simpl. lia. }
  assert (0 < inject_Z (Z.pos d)) as Hdpos.
  { unfold Qlt, inject_Z; simpl. lia. }
  rewrite Zle_Qle in Hn1, Hd1.
  rewrite <- Z.add_1_r in Hn2, Hd2.
  rewrite Zlt_Qlt in Hn2, Hd2.
  rewrite <- pow2_Z in Hn1, Hn2, Hd1, Hd2 by lia.
  pose proof (pow2_pos (k - 1)) as Hp1.
  pose proof (pow2_pos (k + 1)) as Hp2.
  pose proof (pow2_pos ld) as Hp3.
  assert (pow2 (k - 1) < n # d) as Hlo.
  { assert (pow2 ln == pow2 (k - 1) * pow2 (ld + 1)) as Heq.
    { rewrite <- pow2_add. by replace (k - 1 + (ld + 1))%Z with ln by lia. }
    apply Qnot_le_lt. intros Hc.
    assert ((n # d) * inject_Z (Z.pos d) < pow2 (k - 1) * pow2 (ld + 1)); [nra|].
    rewrite Hnd, <- Heq in H. lra. }
  assert (n # d < pow2 (k + 1)) as Hhi.
  { assert (pow2 (ln + 1) == pow2 (k + 1) * pow2 ld) as Heq.
    { rewrite <- pow2_add. by replace (k + 1 + ld)%Z with (ln + 1)%Z by lia. }
    apply Qnot_le_lt. intros Hc.
    assert (pow2 (k + 1) * pow2 ld <= (n # d) * inject_Z (Z.pos d)); [nra|].
    rewrite Hnd, <- Heq in H. lra. }
  destruct (Qle_bool (pow2 k) (n # d)) eqn:Hb.
  - apply Qle_bool_iff in Hb. done.
  - replace (k - 1 + 1)%Z with k by lia. split; [lra|].
    apply Qnot_le_lt. intros Hc. apply Qle_bool_iff in Hc. congruence.
Qed.

Lemma round_half_even_floor x :
  round_half_even x = Qfloor x
  ∨ (round_half_even x = (Qfloor x + 1)%Z ∧ inject_Z (Qfloor x) < x).
Proof.
  unfold round_half_even.
  destruct (x - inject_Z (Qfloor x) ?= 1 # 2) eqn:Hc.
  - apply Qeq_alt in Hc. destruct (Z.even _); [by left|right].
    split; [done|lra].
  - by left.
  - apply Qgt_alt in Hc. right. split; [done|lra].
Qed.

Lemma round_half_even_ge k x : inject_Z k <= x → (k ≤ round_half_even x)%Z.
Proof.
  intros Hk. apply Qfloor_resp_le in Hk. rewrite Qfloor_Z in Hk.
  destruct (round_half_even_floor x) as [->|[-> _]]; lia.
Qed.

Lemma round_half_even_le k x : x <= inject_Z k → (round_half_even x ≤ k)%Z.
Proof.
  intros Hk. pose proof (Qfloor_le x) as Hf.
  destruct (round_half_even_floor x) as [->|[-> Hlt]].
  - rewrite Zle_Qle. lra.
  - assert (inject_Z (Qfloor x) < inject_Z k) as H by lra.
    rewrite <- Zlt_Qlt in H. lia.
Qed.


Lemma nearest64_ge c a : representable c → 0 < a → c <= a → c <= nearest64 a.
Proof.
  intros (m & ec & Hec & Hm & Hc) Ha Hca. unfold nearest64.
  destruct (Qlog2_spec a Ha) as [Hk1 Hk2].
  set (k := Qlog2 a) in *. set (e := ((k - 52) `max` (-1074))%Z).
  pose proof (pow2_pos e) as He.
  set (n := round_half_even (a / pow2 e)).
  destruct (Z_le_gt_dec e ec) as [Hle|Hgt].
  - assert (pow2 ec == inject_Z (2 ^ (ec - e)) * pow2 e) as Hs.
    { rewrite (pow2_split ec e). by rewrite pow2_Z by lia. }
    assert (c == inject_Z (m * 2 ^ (ec - e)) * pow2 e) as Hc'.
    { rewrite inject_Z_mult, Hc, Hs. ring. }
    assert (m * 2 ^ (ec - e) ≤ n)%Z as Hn.
    { apply round_half_even_ge. apply Qle_shift_div_l; [done|].
      by rewrite <- Hc'. }
    rewrite Zle_Qle in Hn. rewrite Hc'. nra.
  - assert (e = k - 52)%Z as Hek by lia.
    assert (pow2 k == inject_Z (2 ^ 52) * pow2 e) as Hs.
    { rewrite (pow2_split k e). rewrite pow2_Z by lia.
      by replace (k - e)%Z with 52%Z by lia. }
    assert (2 ^ 52 ≤ n)%Z as Hn.
    { apply round_half_even_ge. apply Qle_shift_div_l; [done|].
      by rewrite <- Hs. }
    assert (c <= pow2 k) as Hck.
    { assert (pow2 ec <= pow2 (e - 1)) as Hp by (apply pow2_le; lia).
      assert (pow2 k == inject_Z (2 ^ 53) * pow2 (e - 1)) as Hs'.
      { rewrite (pow2_split k (e - 1)). rewrite pow2_Z by lia.
        by replace (k - (e - 1))%Z with 53%Z by lia. }
      pose proof (pow2_pos ec) as Hpe.
      destruct Hm as [Hm0 Hm1]. rewrite Zle_Qle in Hm0, Hm1.
      rewrite Hc, Hs'. apply Qmult_le_compat_nonneg; split; (done || lra). }
    rewrite Zle_Qle in Hn. nra.
Qed.

Lemma nearest64_le c a : representable c → 0 < a → a <= c → nearest64 a <= c.
Proof.
  intros (m & ec & Hec & Hm & Hc) Ha Hca. unfold nearest64.
  destruct (Qlog2_spec a Ha) as [Hk1 Hk2].
  set (k := Qlog2 a) in *. set (e := ((k - 52) `max` (-1074))%Z).
  pose proof (pow2_pos e) as He.
  set (n := round_half_even (a / pow2 e)).
  destruct (Z_le_gt_dec e ec) as [Hle|Hgt].
  - assert (pow2 ec == inject_Z (2 ^ (ec - e)) * pow2 e) as Hs.
    { rewrite (pow2_split ec e). by rewrite pow2_Z by lia. }
    assert (c == inject_Z (m * 2 ^ (ec - e)) * pow2 e) as Hc'.
    { rewrite inject_Z_mult, Hc, Hs. ring. }
    assert (n ≤ m * 2 ^ (ec - e))%Z as Hn.
    { apply round_half_even_le. apply Qle_shift_div_r; [done|].
      by rewrite <- Hc'. }
    rewrite Zle_Qle in Hn. rewrite Hc'. nra.
  - assert (e = k - 52)%Z as Hek by lia.
    assert (pow2 k == inject_Z (2 ^ 52) * pow2 e) as Hs.
    { rewrite (pow2_split k e). rewrite pow2_Z by lia.
      by replace (k - e)%Z with 52%Z by lia. }
    assert (c <= pow2 k) as Hck.
    { assert (pow2 ec <= pow2 (e - 1)) as Hp by (apply pow2_le; lia).
      assert (pow2 k == inject_Z (2 ^ 53) * pow2 (e - 1)) as Hs'.
      { rewrite (pow2_split k (e - 1)). rewrite pow2_Z by lia.
        by replace (k - (e - 1))%Z with 53%Z by lia. }
      pose proof (pow2_pos ec) as Hpe.
      destruct Hm as [Hm0 Hm1]. rewrite Zle_Qle in Hm0, Hm1.
      rewrite Hc, Hs'. apply Qmult_le_compat_nonneg; split; (done || lra). }
    assert (n ≤ 2 ^ 52)%Z as Hn.
    { apply round_half_even_le. apply Qle_shift_div_r; [done|].
      rewrite <- Hs. lra. }
    rewrite Zle_Qle in Hn.
    assert (inject_Z n * pow2 e <= pow2 k) by (rewrite Hs; nra).
    lra.
Qed.

Lemma nearest64_representable a : 0 < a → representable (nearest64 a).
Proof.
  intros Ha. unfold nearest64.
  destruct (Qlog2_spec a Ha) as [Hk1 Hk2].
  set (k := Qlog2 a) in *. set (e := ((k - 52) `max` (-1074))%Z).
  pose proof (pow2_pos e) as He.
  exists (round_half_even (a / pow2 e)), e.
  split; [lia|]. split; [|done]. split.
  - apply round_half_even_ge. apply Qle_shift_div_l; [done|].
    change (inject_Z 0) with 0. lra.
  - apply round_half_even_le. apply Qle_shift_div_r; [done|].
    assert (pow2 (k + 1) <= pow2 (e + 53)) as Hp by (apply pow2_le; lia).
    assert (pow2 (e + 53) == inject_Z (2 ^ 53) * pow2 e) as Hs.
    { rewrite (pow2_split (e + 53) e). rewrite pow2_Z by lia.
      by replace (e + 53 - e)%Z with 53%Z by lia. }
    rewrite <- Hs. lra.
Qed.

Lemma representable_0 : representable 0.
Proof. exists 0%Z, 0%Z. done. Qed.

(** A value between two floats is rounded to a float between them. *)
Lemma round64_between lo hi a :
  representable lo → representable hi → hi < pow2 1024 → lo <= a → a <= hi →
  ∃ r, round64 a = FFin r ∧ lo <= r ∧ r <= hi ∧ representable r.
Proof.
  intros Hlo Hhi Hmax Hla Hah.
  assert (0 <= lo) as Hlo0.
  { destruct Hlo as (m & e & _ & [Hm _] & Hlo). rewrite Zle_Qle in Hm.
    change (inject_Z 0) with 0 in Hm.
    pose proof (pow2_pos e). rewrite Hlo. nra. }
  unfold round64. destruct (a ?= 0) eqn:Hc.
  - apply Qeq_alt in Hc. exists 0. split; [done|].
    split; [lra|]. split; [lra|]. apply representable_0.
  - apply Qlt_alt in Hc. lra.
  - apply Qgt_alt in Hc.
    pose proof (nearest64_ge lo a Hlo Hc Hla) as H1.
    pose proof (nearest64_le hi a Hhi Hc Hah) as H2.
    destruct (Qle_bool _ _) eqn:Hb.
    { apply Qle_bool_iff in Hb. lra. }
    pose proof (Qred_correct (nearest64 a)) as Hq.
    eexists. split; [done|]. split; [lra|]. split; [lra|].
    destruct (nearest64_representable a Hc) as (m & e & He & Hm & Hr).
    exists m, e. split; [done|]. split; [done|]. lra.
Qed.

(** A float is rounded to itself. *)
Lemma round64_exact c :
  representable c → c < pow2 1024 → round64 c = FFin (Qred c).
Proof.
  intros Hc Hmax.
  destruct (round64_between c c c) as (r & Hr & H1 & H2 & _);
    [done|done|done|lra|lra|].
  rewrite Hr. f_equal.
  assert (r == c) as Heq by lra.
  unfold round64 in Hr. destruct (c ?= 0) eqn:Hcmp.
  - injection Hr as <-. apply Qeq_alt in Hcmp.
    symmetry. by apply (Qred_complete c 0).
  - destruct (Qle_bool _ _); [done|]. injection Hr as <-.
    rewrite <- (Qred_complete _ _ Heq). symmetry. apply Qred_complete, Qred_correct.
  - destruct (Qle_bool _ _); [done|]. injection Hr as <-.
    rewrite <- (Qred_complete _ _ Heq). symmetry. apply Qred_complete, Qred_correct.
Qed.


Lemma representable_proper c c' : c == c' → representable c → representable c'.
Proof.
  intros Heq (m & e & He & Hm & Hc). exists m, e.
  split; [done|]. split; [done|]. by rewrite <- Heq.
Qed.

Lemma representable_double c : representable c → representable (2 * c).
Proof.
  intros (m & e & He & Hm & Hc). exists m, (e + 1)%Z.
  split; [lia|]. split; [done|].
  rewrite pow2_add, Hc. change (pow2 1) with 2. ring.
Qed.

Lemma representable_half c :
  representable c → pow2 (-1021) < c → representable (c / 2).
Proof.
  intros (m & e & He & Hm & Hc) Hmin. exists m, (e - 1)%Z.
  split; [|split; [done|]].
  - destruct (Z.eq_dec e (-1074)%Z) as [->|]; [exfalso|lia].
    destruct Hm as [_ Hm]. rewrite Zle_Qle in Hm.
    assert (inject_Z (2 ^ 53) * pow2 (-1074) == pow2 (-1021)) as Hs.
    { rewrite <- pow2_Z by lia. by rewrite <- pow2_add. }
    pose proof (pow2_pos (-1074)). nra.
  - rewrite (pow2_split e (e - 1)) in Hc.
    replace (e - (e - 1))%Z with 1%Z in Hc by lia.
    change (pow2 1) with 2 in Hc. rewrite Hc. field.
Qed.

Lemma representable_pow2 k : (-1074 ≤ k)%Z → representable (pow2 k).
Proof.
  intros. exists 1%Z, k. split; [done|]. split; [lia|].
  change (inject_Z 1) with 1. ring.
Qed.

Lemma representable_Z m : (0 ≤ m ≤ 2 ^ 53)%Z → representable (inject_Z m).
Proof.
  intros. exists m, 0%Z. split; [done|]. split; [done|].
  change (pow2 0) with 1. ring.
Qed.

Lemma Qlog2_unique a k : 0 < a → pow2 k <= a → a < pow2 (k + 1) → Qlog2 a = k.
Proof.
  intros Ha H1 H2. destruct (Qlog2_spec a Ha) as [H3 H4].
  destruct (Z.lt_trichotomy (Qlog2 a) k) as [Hlt|[Heq|Hgt]]; [|done|].
  - assert (pow2 (Qlog2 a + 1) <= pow2 k) by (apply pow2_le; lia). lra.
  - assert (pow2 (k + 1) <= pow2 (Qlog2 a)) by (apply pow2_le; lia). lra.
Qed.

Lemma round_half_even_proper x y :
  x == y → round_half_even x = round_half_even y.
Proof.
  intros Heq. unfold round_half_even.
  rewrite (Qfloor_comp _ _ Heq).
  assert ((x - inject_Z (Qfloor y) ?= 1 # 2) = (y - inject_Z (Qfloor y) ?= 1 # 2))
    as -> by (by rewrite Heq).
  done.
Qed.

Lemma nearest64_proper a b : 0 < a → a == b → nearest64 a == nearest64 b.
Proof.
  intros Ha Heq. unfold nearest64.
  assert (Qlog2 a = Qlog2 b) as ->.
  { destruct (Qlog2_spec a Ha) as [H1 H2].
    symmetry. apply Qlog2_unique; lra. }
  set (e := ((Qlog2 b - 52) `max` (-1074))%Z).
  rewrite (round_half_even_proper (a / pow2 e) (b / pow2 e)); [done|].
  by rewrite Heq.
Qed.

(** A finite result of [round64] is a fraction in lowest terms. *)
Lemma round64_canonical a r : round64 a = FFin r → Qred r = r.
Proof.
  unfold round64. destruct (a ?= 0).
  - by intros [= <-].
  - destruct (Qle_bool _ _); [done|]. intros [= <-].
    apply Qred_complete, Qred_correct.
  - destruct (Qle_bool _ _); [done|]. intros [= <-].
    apply Qred_complete, Qred_correct.
Qed.

(** The float does not depend on how the rational is written. *)
Lemma round64_proper a b : a == b → round64 a = round64 b.
Proof.
  intros Heq. unfold round64.
  assert ((a ?= 0) = (b ?= 0)) as -> by (by rewrite Heq).
  destruct (b ?= 0) eqn:Hc; [done| |].
  - apply Qlt_alt in Hc.
    assert (nearest64 (- a) == nearest64 (- b)) as Hn.
    { apply nearest64_proper; lra. }
    assert (Qle_bool (pow2 1024) (nearest64 (- a))
            = Qle_bool (pow2 1024) (nearest64 (- b))) as ->.
    { destruct (Qle_bool _ (nearest64 (- b))) eqn:Hb.
      - apply Qle_bool_iff. apply Qle_bool_iff in Hb. lra.
      - apply not_true_is_false. intros Hb'. apply Qle_bool_iff in Hb'.
        apply not_true_iff_false in Hb. apply Hb, Qle_bool_iff. lra. }
    destruct (Qle_bool _ _); [done|]. f_equal. apply Qred_complete. lra.
  - apply Qgt_alt in Hc.
    assert (nearest64 a == nearest64 b) as Hn.
    { apply nearest64_proper; lra. }
    assert (Qle_bool (pow2 1024) (nearest64 a)
            = Qle_bool (pow2 1024) (nearest64 b)) as ->.
    { destruct (Qle_bool _ (nearest64 b)) eqn:Hb.
      - apply Qle_bool_iff. apply Qle_bool_iff in Hb. lra.
      - apply not_true_is_false. intros Hb'. apply Qle_bool_iff in Hb'.
        apply not_true_iff_false in Hb. apply Hb, Qle_bool_iff. lra. }
    destruct (Qle_bool _ _); [done|]. f_equal. apply Qred_complete. lra.
Qed.

Lemma round_half_even_close x :
  - (1 # 2) <= inject_Z (round_half_even x) - x
  ∧ inject_Z (round_half_even x) - x <= 1 # 2.
Proof.
  unfold round_half_even.
  pose proof (Qfloor_le x) as H1. pose proof (Qlt_floor x) as H2.
  rewrite inject_Z_plus in H2. change (inject_Z 1) with 1 in H2.
  destruct (x - inject_Z (Qfloor x) ?= 1 # 2) eqn:Hc.
  - apply Qeq_alt in Hc. destruct (Z.even _).
    + lra.
    + rewrite inject_Z_plus. change (inject_Z 1) with 1. lra.
  - apply Qlt_alt in Hc. lra.
  - apply Qgt_alt in Hc. rewrite inject_Z_plus. change (inject_Z 1) with 1. lra.
Qed.

(** Rounding a value of the normal range changes it by at most one part in
    [2 ** 53]. *)
Lemma round64_close a r :
  pow2 (-1022) <= a → round64 a = FFin r →
  - (a * pow2 (-53)) <= r - a ∧ r - a <= a * pow2 (-53).
Proof.
  intros Hmin Hr.
  assert (0 < a) as Ha by (pose proof (pow2_pos (-1022)); lra).
  unfold round64 in Hr.
  assert ((a ?= 0) = Gt) as Hc by (by apply Qgt_alt).
  rewrite Hc in Hr. destruct (Qle_bool _ _); [done|]. injection Hr as <-.
  pose proof (Qred_correct (nearest64 a)) as Hq.
  unfold nearest64 in *.
  destruct (Qlog2_spec a Ha) as [Hk1 Hk2]. set (k := Qlog2 a) in *.
  assert (-1022 ≤ k)%Z as Hk.
  { destruct (Z_le_gt_dec (-1022) k) as [|Hgt]; [done|exfalso].
    assert (pow2 (k + 1) <= pow2 (-1022)) by (apply pow2_le; lia). lra. }
  replace ((k - 52) `max` (-1074))%Z with (k - 52)%Z in * by lia.
  set (e := (k - 52)%Z) in *.
  pose proof (pow2_pos e) as He.
  set (t := a / pow2 e) in *.
  destruct (round_half_even_close t) as [H1 H2].
  set (n := inject_Z (round_half_even t)) in *.
  assert (a == t * pow2 e) as Hat.
  { unfold t. field. lra. }
  assert (pow2 e == pow2 k * pow2 (-52)) as Hek.
  { unfold e. rewrite <- pow2_add. by replace (k + -52)%Z with (k - 52)%Z by lia. }
  assert (pow2 (-53) == pow2 (-52) * (1 # 2)) as H53 by reflexivity.
  pose proof (pow2_pos (-52)) as H52.
  rewrite Hq, H53.
  assert (pow2 e * (1 # 2) <= a * (pow2 (-52) * (1 # 2))) as Hb.
  { rewrite Hek. nra. }
  split; nra.
Qed.

(** Three roundings in a row change a product by at most four parts in
    [2 ** 53]. *)
Lemma three_roundings A B x y d u :
  0 <= A → 0 <= B → 0 <= u → u <= 1 # 4 →
  - (A * u) <= x - A → x - A <= A * u →
  - (B * u) <= y - B → y - B <= B * u →
  - (x * y * u) <= d - x * y → d - x * y <= x * y * u →
  - (A * B * (4 * u)) <= d - A * B ∧ d - A * B <= A * B * (4 * u).
Proof.
  intros HA HB Hu0 Hu1 Hx1 Hx2 Hy1 Hy2 Hd1 Hd2.
  assert (0 <= A * B) as HAB by nra.
  assert (0 <= x) as Hx0 by nra.
  assert (0 <= y) as Hy0 by nra.
  assert (A * B * ((1 - u) * (1 - u)) <= x * y) as Hlo.
  { assert (A * (1 - u) <= x) by lra. assert (B * (1 - u) <= y) by lra.
    assert (0 <= A * (1 - u)) by nra. assert (0 <= B * (1 - u)) by nra.
    setoid_replace (A * B * ((1 - u) * (1 - u)))
      with ((A * (1 - u)) * (B * (1 - u))) using relation Qeq by ring.
    apply Qmult_le_compat_nonneg; split; done. }
  assert (x * y <= A * B * ((1 + u) * (1 + u))) as Hhi.
  { assert (x <= A * (1 + u)) by lra. assert (y <= B * (1 + u)) by lra.
    setoid_replace (A * B * ((1 + u) * (1 + u)))
      with ((A * (1 + u)) * (B * (1 + u))) using relation Qeq by ring.
    apply Qmult_le_compat_nonneg; split; done. }
  set (P := x * y) in *. set (E := A * B) in *.
  assert (0 <= P) as HP by (unfold P; nra).
  assert ((1 + u) * (1 + u) * (1 + u) <= 1 + 4 * u) as Hc1 by nra.
  assert (1 - 4 * u <= (1 - u) * (1 - u) * (1 - u)) as Hc2 by nra.
  assert (0 <= (1 - u) * (1 - u)) as Hs1 by nra.
  assert (0 <= (1 + u) * (1 + u)) as Hs2 by nra.
  split.
  - assert (E * ((1 - u) * (1 - u)) * (1 - u) <= P * (1 - u)) by nra.
    assert (E * (1 - 4 * u) <= E * ((1 - u) * (1 - u) * (1 - u))) by nra.
    lra.
  - assert (P * (1 + u) <= E * ((1 + u) * (1 + u)) * (1 + u)) by nra.
    assert (E * ((1 + u) * (1 + u) * (1 + u)) <= E * (1 + 4 * u)) by nra.
    lra.
Qed.

End Binary64.

(** ** The arithmetic of the duration *)

Section Duration.
Local Open Scope Q_scope.

Lemma split_go_length cur s :
  (length (split_go cur s)
   ≤ String.length s + match cur with Some _ => 1 | None => 0 end)%nat.
Proof.
  revert cur. induction s as [|c s IH]; intros cur; simpl.
  - destruct cur; simpl; lia.
  - destruct (is_whitespace c).
    + rewrite length_app. specialize (IH None). simpl in IH.
      destruct cur; simpl; lia.
    + specialize (IH (Some (String c (default "" cur)))). simpl in IH. lia.
Qed.

(** A text has no more words than characters. *)
Lemma word_count_le text : (0 ≤ word_count text ≤ len text)%Z.
Proof.
  unfold word_count, split, len.
  pose proof (split_go_length None text) as H. simpl in H. lia.
Qed.

Lemma round64_1 : round64 1 = FFin 1.
Proof. reflexivity. Qed.

(** [words / 150] for the word count of a text that passed the length
    check: the float nearest to the quotient, at most 128, and at least
    [2 ** -8] as soon as there is a word. *)
Lemma truediv_words (words : Z) :
  (0 ≤ words ≤ 10000)%Z →
  ∃ x, truediv (VInt words) (VInt 150) = Ok (FFin x)
       ∧ round64 (inject_Z words / 150) = FFin x
       ∧ representable x ∧ 0 <= x ∧ x <= 128
       ∧ ((1 ≤ words)%Z → pow2 (-8) <= x).
Proof.
  intros [H0 H1]. unfold truediv. cbn [as_int]. change (150 =? 0)%Z with false. cbv iota.
  change (inject_Z 150) with 150.
  assert (128 < pow2 1024) as Hmax by reflexivity.
  assert (representable 128) as H128 by (by apply (representable_Z 128)).
  destruct (Z_le_gt_dec 1 words) as [Hw|Hw].
  - rewrite Zle_Qle in Hw, H1. change (inject_Z 1) with 1 in Hw.
    change (inject_Z 10000) with 10000 in H1.
    assert (pow2 (-8) == 1 # 256) as Hp by reflexivity.
    destruct (round64_between (pow2 (-8)) 128 (inject_Z words / 150))
      as (x & Hx & Hlo & Hhi & Hr); [by apply representable_pow2|done|done| | |].
    { apply Qle_shift_div_l; [reflexivity|]. lra. }
    { apply Qle_shift_div_r; [reflexivity|]. lra. }
    exists x. rewrite Hx.
    pose proof (pow2_pos (-8)). repeat split; try done; lra.
  - assert (words = 0)%Z as -> by lia.
    exists 0. repeat split; try done; try lra; try lia.
    apply representable_0.
Qed.

Lemma truediv_nan v : to_float v = Some FNaN → truediv (VInt 1) v = Ok FNaN.
Proof. destruct v as [| | |f| |]; try done. by intros [= ->]. Qed.

(** [1 / speed] for a finite speed that passed the range check: the float
    nearest to the reciprocal of the speed, itself between 0.5 and 2. *)
Lemma truediv_speed v q :
  to_float v = Some (FFin q) → 0.5 <= q → q <= 2.0 →
  ∃ s y, round64 q = FFin s ∧ round64 (1 / s) = FFin y
         ∧ truediv (VInt 1) v = Ok (FFin y)
         ∧ representable y ∧ 1 # 2 <= y ∧ y <= 2
         ∧ 1 # 2 <= s ∧ s <= 2.
Proof.
  intros Hf Hlo Hhi.
  assert (representable (1 # 2)) as Hhalf by (by apply (representable_pow2 (-1))).
  assert (representable 2) as Htwo by (by apply (representable_Z 2)).
  assert (2 < pow2 1024) as Hmax by reflexivity.
  destruct (round64_between (1 # 2) 2 q) as (s & Hs & Hs1 & Hs2 & _);
    [done|done|done|lra|lra|].
  assert (1 # 2 <= 1 / s ∧ 1 / s <= 2) as [Hi1 Hi2].
  { split.
    - apply Qle_shift_div_l; lra.
    - apply Qle_shift_div_r; lra. }
  destruct (round64_between (1 # 2) 2 (1 / s)) as (y & Hy & Hy1 & Hy2 & Hyr);
    [done|done|done|done|done|].
  exists s, y. repeat (split; [done|]).
  split; [|done].
  destruct v as [|b|z|f| |]; try done.
  - (* bool *)
    injection Hf as <-. destruct b; [|by vm_compute in Hlo].
    unfold truediv. cbn [as_int]. change (1 =? 0)%Z with false. cbv iota.
    assert (round64 (inject_Z 1 / inject_Z 1) = FFin y) as ->; [|done].
    rewrite <- Hy. apply round64_proper.
    change (inject_Z 1) with 1 in Hs.
    assert (s = 1) as -> by (rewrite round64_1 in Hs; congruence). reflexivity.
  - (* int *)
    injection Hf as <-.
    assert (z = 1 ∨ z = 2)%Z as Hz.
    { unfold Qle in Hlo, Hhi. simpl in Hlo, Hhi. lia. }
    unfold truediv. cbn [as_int].
    assert (round64 (inject_Z z) = FFin (inject_Z z)) as Hsz
      by (by destruct Hz as [-> | ->]).
    assert (s = inject_Z z) as -> by congruence.
    assert ((z =? 0)%Z = false) as -> by (by destruct Hz as [-> | ->]).
    cbv iota.
    assert (round64 (inject_Z 1 / inject_Z z) = FFin y) as ->; [|done].
    rewrite <- Hy. by apply round64_proper.
  - (* float *)
    simpl in Hf. injection Hf as ->.
    unfold truediv. cbn [as_int float_operand].
    change (float_of_int 1) with (Ok (FFin 1)).
    cbn [mbind result_bind bind].
    unfold float_div. cbn [as_double]. rewrite round64_1, Hs.
    destruct (Qeq_bool s 0) eqn:Hz.
    { apply Qeq_bool_iff in Hz. lra. }
    by rewrite Hy.
Qed.

(** The product of [words / 150] and [1 / speed]: a float between half and
    twice the first factor. *)
Lemma float_mul_scaled x y :
  representable x → pow2 (-8) <= x ∨ x == 0 → x <= 128 →
  representable y → 1 # 2 <= y → y <= 2 →
  ∃ d, float_mul (FFin x) (FFin y) = FFin d
       ∧ round64 (x * y) = FFin d
       ∧ x / 2 <= d ∧ d <= 2 * x.
Proof.
  intros Hx Hxmin Hxmax Hy Hy1 Hy2.
  assert (0 <= x) as Hx0.
  { pose proof (pow2_pos (-8)). destruct Hxmin; lra. }
  assert (256 < pow2 1024) as Hmax by reflexivity.
  assert (pow2 (-1021) < pow2 (-8)) as Hmin by reflexivity.
  unfold float_mul. cbn [as_double].
  rewrite (round64_exact x), (round64_exact y) by (done || lra).
  rewrite (round64_proper (Qred x * Qred y) (x * y))
    by (by rewrite !Qred_correct).
  assert (representable (x / 2)) as Hlo.
  { destruct Hxmin as [Hxmin|Hxz].
    - apply representable_half; [done|lra].
    - apply (representable_proper 0); [rewrite Hxz; reflexivity|].
      apply representable_0. }
  destruct (round64_between (x / 2) (2 * x) (x * y)) as (d & Hd & Hd1 & Hd2 & _).
  - done.
  - by apply representable_double.
  - lra.
  - assert (x / 2 == x * (1 # 2)) as -> by field. nra.
  - nra.
  - exists d. by rewrite Hd.
Qed.

(** The three roundings of the duration, against the exact quotient. *)
Lemma duration_accuracy (words : Z) s wpm r d :
  (0 ≤ words)%Z → 1 # 2 <= s → s <= 2 →
  round64 (inject_Z words / 150) = FFin wpm →
  round64 (1 / s) = FFin r →
  round64 (wpm * r) = FFin d →
  pow2 (-8) <= wpm ∨ words = 0%Z →
  let exact := inject_Z words / 150 * (1 / s) in
  exact * (1 - pow2 (-51)) <= d ∧ d <= exact * (1 + pow2 (-51)).
Proof.
  intros Hw Hs1 Hs2 Hwpm Hr Hd Hcase exact.
  assert (pow2 (-1022) <= pow2 (-9)) as Hmin by (by apply Qle_bool_iff).
  assert (pow2 (-9) == pow2 (-8) * (1 # 2)) as H9 by reflexivity.
  assert (pow2 (-9) <= 1 # 2) as H9' by (by apply Qle_bool_iff).
  pose proof (pow2_pos (-8)) as H8.
  assert (1 # 2 <= 1 / s ∧ 1 / s <= 2) as [Hi1 Hi2].
  { split; [apply Qle_shift_div_l|apply Qle_shift_div_r]; lra. }
  destruct (round64_close (1 / s) r) as [Hr1 Hr2]; [lra|done|].
  assert (0 <= pow2 (-53)) as Hu0 by (by apply Qle_bool_iff).
  assert (pow2 (-53) <= 1 # 4) as Hu1 by (by apply Qle_bool_iff).
  assert (4 * pow2 (-53) == pow2 (-51)) as Hu4 by reflexivity.
  destruct Hcase as [Hwmin| ->].
  - assert (1 ≤ words)%Z as Hw1.
    { destruct (Z_le_gt_dec 1 words) as [|Hgt]; [done|exfalso].
      assert (words = 0)%Z as -> by lia.
      change (round64 (inject_Z 0 / 150)) with (FFin 0) in Hwpm.
      injection Hwpm as <-. lra. }
    rewrite Zle_Qle in Hw1. change (inject_Z 1) with 1 in Hw1.
    assert (pow2 (-1022) <= inject_Z words / 150) as HA.
    { apply Qle_shift_div_l; [reflexivity|].
      assert (pow2 (-1022) * 150 <= 1) by (by apply Qle_bool_iff). lra. }
    destruct (round64_close _ _ HA Hwpm) as [Hx1 Hx2].
    assert (1 # 2 <= r) as Hrlo.
    { destruct (round64_between (1 # 2) 2 (1 / s)) as (r' & Hr' & Hlo & _);
        [by apply (representable_pow2 (-1))|by apply (representable_Z 2)
        |reflexivity|done|done|].
      by assert (r' = r) as <- by congruence. }
    assert (pow2 (-1022) <= wpm * r) as HP by nra.
    destruct (round64_close _ _ HP Hd) as [Hd1 Hd2].
    destruct (three_roundings (inject_Z words / 150) (1 / s) wpm r d (pow2 (-53)))
      as [H1 H2]; try done; try lra.
    { apply Qle_shift_div_l; [reflexivity|]. lra. }
    fold exact in H1, H2. rewrite <- Hu4. split; lra.
  - change (round64 (inject_Z 0 / 150)) with (FFin 0) in Hwpm.
    injection Hwpm as <-.
    rewrite (round64_proper (0 * r) 0) in Hd by ring.
    change (round64 0) with (FFin 0) in Hd. injection Hd as <-.
    assert (exact == 0) as -> by (unfold exact; reflexivity). lra.
Qed.

End Duration.

(** ** SynthesisEngine: [generate_audio] *)

Section GenerateAudio.
Variable env : Env.
Implicit Types (w : Tts.World) (params : option (gmap string value)).

Lemma ensure_model_loaded_eq w :
  Tts.ensure_model_loaded w = (Ok (), Tts.set_self w (loaded (Tts.self w))).
Proof.
  unfold Tts.ensure_model_loaded, loaded. destruct w as [s fs]; simpl.
  destruct (Tts.initialized s); done.
Qed.

Lemma voice_exists_elem_of voices vid :
  Tts.voice_exists voices vid = true ↔ vid ∈ Tts.v_id <$> voices.
Proof.
  unfold Tts.voice_exists. rewrite existsb_exists, list_elem_of_fmap. split.
  - intros (v & Hin & Hv). apply bool_decide_eq_true in Hv.
    exists v. by rewrite list_elem_of_In.
  - intros (v & -> & Hin). exists v. rewrite bool_decide_eq_true.
    by rewrite <-list_elem_of_In.
Qed.

Lemma voice_exists_false voices vid :
  vid ∉ Tts.v_id <$> voices → Tts.voice_exists voices vid = false.
Proof. rewrite <-voice_exists_elem_of. by destruct (Tts.voice_exists _ _). Qed.

(** Gate 1: an empty or too long text raises [ValueError] and leaves the
    world as it was: the model is not loaded, no voice is looked up. *)
Lemma generate_audio_text_gate text vid params w :
  text = "" ∨ 10000 < len text →
  ∃ msg, Tts.generate_audio env text vid params w = (Raise (ValueError msg), w).
Proof.
  intros Ht. unfold Tts.generate_audio.
  case_bool_decide; [eauto|]. case_bool_decide; [eauto|].
  destruct Ht as [?|Ht]; [done|].
  apply Z.ltb_lt in Ht as ->. eauto.
Qed.

(** Gate 2: with a good text, a voice id that the loaded catalog does not
    hold raises the same [ValueError] whatever the parameters are, valid or
    not, and writes no file. *)
Lemma generate_audio_voice_gate text vid w :
  text ≠ "" → len text ≤ 10000 → vid ≠ "" →
  vid ∉ voice_ids (loaded (Tts.self w)) →
  ∀ params,
    Tts.generate_audio env text vid params w
    = (Raise (ValueError
         ("Voice ID '" +:+ vid +:+ "' not found. Available voices: "
          +:+ Tts.available_ids env (Tts.available_voices (loaded (Tts.self w))))),
       Tts.set_self w (loaded (Tts.self w))).
Proof.
  intros Ht Hl Hne Hv params. unfold Tts.generate_audio.
  rewrite !bool_decide_eq_false_2 by done.
  apply Z.ltb_ge in Hl as ->.
  rewrite ensure_model_loaded_eq. simpl.
  by rewrite voice_exists_false.
Qed.

(** What [generate_audio] does once text and voice have passed. *)
Lemma generate_audio_past_gates text vid params w :
  text ≠ "" → len text ≤ 10000 → vid ≠ "" →
  vid ∈ voice_ids (loaded (Tts.self w)) →
  Tts.generate_audio env text vid params w
  = let '(r, w') :=
      Tts.generate_audio_body env text vid (default ∅ params)
        (Tts.set_self w (loaded (Tts.self w))) in
    (try_wrap (λ m, TTSProcessingError ("Failed to generate audio: " +:+ m)) r, w').
Proof.
  intros Ht Hl Hne Hv. unfold Tts.generate_audio.
  rewrite !bool_decide_eq_false_2 by done.
  apply Z.ltb_ge in Hl as ->.
  rewrite ensure_model_loaded_eq. simpl.
  apply voice_exists_elem_of in Hv as ->. done.
Qed.

(** Gate 3: parameters that [_process_params] rejects stop the call before
    the audio file is written; the error that reaches the caller is the
    [TTSProcessingError] of the enclosing [except], not the [ValueError]. *)
Lemma generate_audio_params_gate text vid params w e :
  text ≠ "" → len text ≤ 10000 → vid ≠ "" →
  vid ∈ voice_ids (loaded (Tts.self w)) →
  Tts._process_params (default ∅ params) = Raise e →
  Tts.generate_audio env text vid params w
  = (Raise (TTSProcessingError ("Failed to generate audio: " +:+ exn_str e)),
     Tts.set_self w (loaded (Tts.self w))).
Proof.
  intros Ht Hl Hne Hv He. rewrite generate_audio_past_gates by done.
  unfold Tts.generate_audio_body. by rewrite He.
Qed.

(** Gate 4: when the audio file cannot be written, the call raises
    [TTSProcessingError]. *)
Lemma generate_audio_provider_failure text vid params w m msg :
  text ≠ "" → len text ≤ 10000 → vid ≠ "" →
  vid ∈ voice_ids (loaded (Tts.self w)) →
  Tts._process_params (default ∅ params) = Ok m →
  (∀ path, open_w env path = Some msg) →
  Tts.generate_audio env text vid params w
  = (Raise (TTSProcessingError ("Failed to generate audio: " +:+ msg)),
     Tts.set_self w (loaded (Tts.self w))).
Proof.
  intros Ht Hl Hne Hv Hm Ho. rewrite generate_audio_past_gates by done.
  unfold Tts.generate_audio_body, Tts.write_file. by rewrite Hm, Ho.
Qed.

Lemma loaded_fresh mp :
  Tts.available_voices (loaded (Tts.__init__ env mp))
  = Tts.available_voices (Tts._load_model (Tts.__init__ env mp)).
Proof.
  unfold loaded, Tts.__init__.
  destruct (negb (path_exists env _)); done.
Qed.

Lemma loaded_fresh_ids mp :
  voice_ids (loaded (Tts.__init__ env mp))
  = ["voice_1"; "voice_2"; "voice_3"; "voice_4"].
Proof. unfold voice_ids. by rewrite loaded_fresh. Qed.

(** C2, at the failing input.  On a newly built service, the call
    [generate_audio("Hello", "voice_1", {"pitch": 11.0})] passes the text and
    voice gates, and [_process_params] raises [ValueError] for the pitch; the
    call itself raises [TTSProcessingError], the class it also raises when
    the synthesis step fails, and no file is written. *)
Theorem generate_audio_invalid_pitch_error_class mp :
  let params : gmap string value := {[ "pitch" := VFloat (FFin 11.0) ]} in
  let w := fresh_world env mp in
  Tts._process_params params
    = Raise (ValueError "Pitch must be between -10.0 and 10.0")
  ∧ Tts.generate_audio env "Hello" "voice_1" (Some params) w
    = (Raise (TTSProcessingError
         "Failed to generate audio: Pitch must be between -10.0 and 10.0"),
       Tts.set_self w (loaded (Tts.self w)))
  ∧ Tts.files (Tts.generate_audio env "Hello" "voice_1" (Some params) w).2 = ∅.
Proof.
  intros params w.
  assert (Tts._process_params params
          = Raise (ValueError "Pitch must be between -10.0 and 10.0")) as Hp
    by done.
  assert (Tts.generate_audio env "Hello" "voice_1" (Some params) w
    = (Raise (TTSProcessingError
         "Failed to generate audio: Pitch must be between -10.0 and 10.0"),
       Tts.set_self w (loaded (Tts.self w)))) as Hg.
  { apply (generate_audio_params_gate "Hello" "voice_1" (Some params) w
             (ValueError "Pitch must be between -10.0 and 10.0")); try done.
    unfold w, fresh_world; simpl. rewrite loaded_fresh_ids. set_solver. }
  rewrite Hg. done.
Qed.

Lemma generate_audio_ok_inv text vid params w a w' :
  Tts.generate_audio env text vid params w = (Ok a, w') →
  ∃ m x y,
    Tts._process_params (default ∅ params) = Ok m
    ∧ truediv (VInt (word_count text)) (VInt 150) = Ok x
    ∧ truediv (VInt 1) (default (VFloat (FFin 1.0)) (m !! "speed")) = Ok y
    ∧ Tts.duration a = float_mul x y
    ∧ Tts.format a = "mp3"
    ∧ Tts.parameters a = m
    ∧ len text ≤ 10000.
Proof.
  unfold Tts.generate_audio.
  repeat (case_bool_decide; [done|]).
  destruct (10000 <? len text) eqn:Hlen; [done|]. apply Z.ltb_ge in Hlen.
  rewrite ensure_model_loaded_eq; simpl.
  destruct (Tts.voice_exists _ _); simpl; [|done].
  unfold Tts.generate_audio_body, Tts.write_file.
  destruct (Tts._process_params _) as [m|] eqn:Hm; [|done].
  destruct (open_w env _); [done|].
  destruct (write_w env _ _) as [[? ?]|]; [done|].
  cbn -[float_mul truediv length split]. fold (word_count text).
  destruct (truediv (VInt (word_count text)) (VInt 150)) as [x|] eqn:Hx;
    cbn -[float_mul truediv]; [|done].
  destruct (truediv (VInt 1) _) as [y|] eqn:Hy; cbn -[float_mul]; [|done].
  intros [= <- <-]. exists m, x, y. done.
Qed.

(** C3.  For every successful [generate_audio] call the speed entry of the
    returned (normalized) parameters is the speed the caller gave, or 1.0
    when the caller gave none, and the returned duration is
    [(words / 150) * (1 / speed)] as Python computes it, where [words] is the
    number of words of the text: for a finite speed, the float nearest to
    [words / 150] times the float nearest to [1 / speed], rounded to the
    nearest float; for the speed 1.0 that is the float nearest to
    [words / 150], and for every speed it differs from the exact quotient
    [words / 150 / speed] by at most one part in [2 ** 51].  In particular,
    when the audio file can be written,
    [generate_audio("Hello world", "voice_1", {"speed": 1.0})] returns the
    duration [2 / 150], the float 0.013333333333333334, and the format
    "mp3"; and an empty text raises [ValueError]. *)
Theorem generate_audio_duration :
  (∀ text vid params w a w',
     Tts.generate_audio env text vid params w = (Ok a, w') →
     let speed := default (VFloat (FFin 1.0)) (default ∅ params !! "speed") in
     Tts.parameters a !! "speed" = Some speed
     ∧ ∃ x y,
         truediv (VInt (word_count text)) (VInt 150) = Ok x
         ∧ truediv (VInt 1) speed = Ok y
         ∧ Tts.duration a = float_mul x y
         ∧ ∀ q, to_float speed = Some (FFin q) →
             ∃ wpm s r d,
               round64 (inject_Z (word_count text) / 150) = FFin wpm
               ∧ round64 q = FFin s
               ∧ round64 (1 / s) = FFin r
               ∧ round64 (wpm * r) = FFin d
               ∧ Tts.duration a = FFin d
               ∧ ((q == 1)%Q → d = wpm)
               ∧ let exact := (inject_Z (word_count text) / 150 * (1 / s))%Q in
                 (exact * (1 - pow2 (-51)) <= d)%Q
                 ∧ (d <= exact * (1 + pow2 (-51)))%Q)
  ∧ (∀ mp,
       (∀ path, open_w env path = None) →
       (∀ path data, write_w env path data = None) →
       ∃ a w' d,
         Tts.generate_audio env "Hello world" "voice_1"
           (Some {[ "speed" := VFloat (FFin 1.0) ]}) (fresh_world env mp)
         = (Ok a, w')
         ∧ Tts.duration a = FFin d
         ∧ round64 (2 / 150) = FFin d
         ∧ (d == 7686143364045647 # 576460752303423488)%Q
         ∧ Tts.format a = "mp3")
  ∧ (∀ vid params w,
       Tts.generate_audio env "" vid params w
       = (Raise (ValueError "Text must be a non-empty string"), w)).
Proof.
  split; [|split].
  - intros text vid params w a w' Hok speed.
    apply generate_audio_ok_inv in Hok
      as (m & x & y & Hm & Hx & Hy & Hd & _ & Hp & Hlen).
    apply process_params_ok_inv in Hm as [Hm Hsp]. fold speed in Hm, Hsp.
    assert (m !! "speed" = Some speed) as Hlk.
    { rewrite Hm. by simplify_map_eq. }
    rewrite Hlk in Hy. simpl in Hy.
    rewrite Hp. split; [done|]. exists x, y. repeat (split; [done|]).
    intros q Hq. destruct Hsp as [Hnan|(q' & Hq' & Hlo & Hhi)]; [congruence|].
    assert (q' = q) as -> by congruence.
    destruct (truediv_words (word_count text)) as (wpm & Hx' & Hwpm & Hr & H0 & H128 & Hmin).
    { pose proof (word_count_le text). lia. }
    destruct (truediv_speed speed q Hq Hlo Hhi)
      as (s & r & Hs & Hr' & Hy' & Hrr & Hr1 & Hr2 & Hs1 & Hs2).
    assert (x = FFin wpm) as -> by congruence.
    assert (y = FFin r) as -> by congruence.
    assert ((pow2 (-8) <= wpm)%Q ∨ (word_count text = 0 ∧ (wpm == 0)%Q)) as Hcase.
    { destruct (Z_le_gt_dec 1 (word_count text)) as [Hw|Hw]; [left; auto|right].
      assert (word_count text = 0) as Hw0 by (pose proof (word_count_le text); lia).
      rewrite Hw0 in Hwpm. injection Hwpm as <-. done. }
    destruct (float_mul_scaled wpm r) as (d & Hmul & Hd' & Hd1 & Hd2); try done.
    { destruct Hcase as [?|[_ ?]]; auto. }
    exists wpm, s, r, d. rewrite Hd. repeat (split; [done|]). split.
    { intros Hq1.
      rewrite (round64_proper q 1 Hq1), round64_1 in Hs. injection Hs as <-.
      change (round64 (1 / 1)) with (FFin 1) in Hr'. injection Hr' as <-.
      rewrite (round64_proper (wpm * 1) wpm) in Hd' by ring.
      rewrite (round64_exact wpm) in Hd'; [|done|].
      + rewrite (round64_canonical _ _ Hwpm) in Hd'. congruence.
      + assert (128 < pow2 1024)%Q by reflexivity. lra. }
    apply (duration_accuracy (word_count text) s wpm r d); try done.
    + pose proof (word_count_le text). lia.
    + destruct Hcase as [?|[? _]]; auto.
  - intros mp Ho Hw.
    rewrite generate_audio_past_gates; try done.
    2: { unfold fresh_world; simpl. rewrite loaded_fresh_ids. set_solver. }
    unfold Tts.generate_audio_body, Tts.write_file.
    assert (Tts._process_params (default ∅ (Some {[ "speed" := VFloat (FFin 1.0) ]}))
            = Ok (<["emphasis" := VList []]> (<["emotion" := VStr "neutral"]>
                 (<["speed" := VFloat (FFin 1.0)]>
                 (<["pitch" := VFloat (FFin 0.0)]> (∅ : gmap string value))))))
      as -> by done.
    rewrite Ho, Hw. cbn -[truediv float_mul split length].
    set (d := (7686143364045647 # 576460752303423488)%Q).
    assert (truediv (VInt (Z.of_nat (length (split "Hello world")))) (VInt 150)
            = Ok (FFin d)) as -> by (vm_compute; reflexivity).
    cbn [mbind result_bind bind].
    rewrite lookup_insert_ne, lookup_insert_ne, lookup_insert_eq by done.
    cbn [default from_option id].
    assert (truediv (VInt 1) (VFloat (FFin 1.0)) = Ok (FFin 1))
      as -> by (vm_compute; reflexivity).
    cbn [mbind result_bind bind try_wrap].
    assert (float_mul (FFin d) (FFin 1) = FFin d)
      as -> by (vm_compute; reflexivity).
    assert (round64 (2 / 150) = FFin d) as -> by (vm_compute; reflexivity).
    by eexists _, _, d.
  - intros vid params w. done.
Qed.

End GenerateAudio.

Lemma generate_audio_duration_witness :
  let w := fresh_world example_env None in
  (∃ a w' d,
     Tts.generate_audio example_env "Hello world" "voice_1"
       (Some {[ "speed" := VFloat (FFin 1.0) ]}) w
     = (Ok a, w')
     ∧ Tts.duration a = FFin d
     ∧ round64 (2 / 150) = FFin d
     ∧ (d == 7686143364045647 # 576460752303423488)%Q
     ∧ Tts.format a = "mp3")
  ∧ ∃ a w',
      Tts.generate_audio example_env "one two three" "voice_1"
        (Some {[ "speed" := VFloat (FFin 1.5) ]}) w
      = (Ok a, w')
      ∧ Tts.parameters a !! "speed" = Some (VFloat (FFin 1.5))
      ∧ ∃ wpm s r d,
          round64 (inject_Z (word_count "one two three") / 150) = FFin wpm
          ∧ round64 1.5 = FFin s
          ∧ round64 (1 / s) = FFin r
          ∧ round64 (wpm * r) = FFin d
          ∧ Tts.duration a = FFin d
          ∧ ((1.5 == 1)%Q → d = wpm)
          ∧ let exact :=
              (inject_Z (word_count "one two three") / 150 * (1 / s))%Q in
            (exact * (1 - pow2 (-51)) <= d)%Q
            ∧ (d <= exact * (1 + pow2 (-51)))%Q.
Proof.
  intros w.
  pose proof (generate_audio_duration example_env) as (Hgen & Hex & _).
  split.
  - exact (Hex None (λ _, eq_refl) (λ _ _, eq_refl)).
  - eexists _, _. split; [vm_compute; reflexivity|].
    edestruct (Hgen "one two three" "voice_1"
                 (Some {[ "speed" := VFloat (FFin 1.5) ]}) w)
      as (Hsp & x & y & _ & _ & _ & Hfin); [vm_compute; reflexivity|].
    split; [exact Hsp|]. exact (Hfin 1.5%Q eq_refl).
Defined.

(** ** VoiceCatalog: [customize_voice] *)

Section StringFacts.

Lemma has_char_pretty_N_go c x s :
  (∀ d, pretty_N_char d ≠ c) →
  has_char c s = false → has_char c (pretty_N_go x s) = false.
Proof.
  intros Hc. revert s. induction (N.lt_wf_0 x) as [x _ IH]; intros s Hs.
  assert (x = 0 ∨ 0 < x)%N as [->|?] by lia.
  - by rewrite pretty_N_go_0.
  - rewrite pretty_N_go_step by done. apply IH.
    { by apply N.div_lt. }
    simpl. rewrite Hs, orb_false_r. apply bool_decide_eq_false_2, Hc.
Qed.

Lemma pretty_N_char_not_underscore d : pretty_N_char d ≠ "_"%char.
Proof. unfold pretty_N_char. by repeat case_match. Qed.

Lemma has_char_pretty_Z (k : Z) : has_char "_" (pretty k) = false.
Proof.
  assert (∀ n : N, has_char "_" (pretty n) = false) as HN.
  { intros n. unfold pretty, pretty_N. case_decide; [done|].
    by apply has_char_pretty_N_go; [apply pretty_N_char_not_underscore|]. }
  destruct k as [|p|p]; [done|apply HN|].
  change (pretty (Z.neg p)) with ("-" +:+ pretty (N.pos p)).
  simpl. apply HN.
Qed.

(** Two strings that end in the same separator followed by separator-free
    text agree on that text. *)
Lemma append_sep_inj c a b d1 d2 :
  has_char c d1 = false → has_char c d2 = false →
  a +:+ String c d1 = b +:+ String c d2 → a = b ∧ d1 = d2.
Proof.
  intros H1 H2. revert b. induction a as [|x a IH]; intros [|y b]; simpl.
  - by intros [= ->].
  - intros [= <- ->]. exfalso. revert H1. clear.
    induction b as [|z b IHb]; simpl.
    + by rewrite bool_decide_eq_true_2.
    + rewrite orb_false_iff. tauto.
  - intros [= -> <-]. exfalso. revert H2. clear.
    induction a as [|z a IHa]; simpl.
    + by rewrite bool_decide_eq_true_2.
    + rewrite orb_false_iff. tauto.
  - intros [= -> H]. apply IH in H as [-> ->]. done.
Qed.

Lemma custom_id_inj b1 b2 (k1 k2 : Z) :
  "custom_" +:+ b1 +:+ "_" +:+ pretty k1 = "custom_" +:+ b2 +:+ "_" +:+ pretty k2 →
  b1 = b2 ∧ k1 = k2.
Proof.
  intros [= H].
  apply append_sep_inj in H as [-> H]; [|apply has_char_pretty_Z..].
  split; [done|]. by apply (inj pretty).
Qed.

End StringFacts.

Section Catalog.
Variable env : Env.
Implicit Types (s : Tts.KokoroTTSService) (w : Tts.World).

Lemma catalog_inv_init mp : catalog_inv (Tts.__init__ env mp).
Proof.
  unfold Tts.__init__. destruct (negb (path_exists env _)); [done|].
  exists []. split; [done|]. intros j v. by rewrite lookup_nil.
Qed.

Lemma catalog_inv_loaded s :
  catalog_inv s → catalog_inv (loaded s) ∧ Tts.initialized (loaded s) = true.
Proof.
  unfold loaded. destruct (Tts.initialized s) eqn:Hi; [done|].
  intros _. split; [|done].
  exists []. split; [done|]. intros j v. by rewrite lookup_nil.
Qed.

Lemma catalog_inv_ids s :
  catalog_inv s → Tts.initialized s = true →
  ∃ customs,
    voice_ids s = ["voice_1"; "voice_2"; "voice_3"; "voice_4"] ++ customs
    ∧ length (Tts.available_voices s) = (4 + length customs)%nat
    ∧ ∀ (j : nat) i, customs !! j = Some i →
        ∃ base, i = "custom_" +:+ base +:+ "_" +:+ pretty (Z.of_nat (4 + j) + 1).
Proof.
  unfold catalog_inv, voice_ids. intros H Hi. rewrite Hi in H.
  destruct H as (customs & -> & Hc).
  exists (Tts.v_id <$> customs). rewrite fmap_app. split; [done|].
  split; [by rewrite length_app, length_fmap|].
  intros j i. rewrite list_lookup_fmap.
  destruct (customs !! j) as [v|] eqn:Hv; [|done].
  intros [= <-]. eauto.
Qed.

Lemma catalog_inv_NoDup s : catalog_inv s → NoDup (voice_ids s).
Proof.
  intros H. destruct (Tts.initialized s) eqn:Hi.
  - destruct (catalog_inv_ids s H Hi) as (customs & -> & _ & Hc).
    apply NoDup_app. split; [|split].
    + repeat (apply NoDup_cons; split; [set_solver|]). apply NoDup_nil_2.
    + intros i Hb Hin. apply list_elem_of_lookup in Hin as [j Hj].
      apply Hc in Hj as [base ->]. set_solver.
    + apply NoDup_alt. intros j1 j2 i H1 H2.
      apply Hc in H1 as [b1 ->]. apply Hc in H2 as [b2 H2].
      apply custom_id_inj in H2 as [_ H2]. lia.
  - unfold catalog_inv in H. rewrite Hi in H. unfold voice_ids. rewrite H.
    apply NoDup_nil_2.
Qed.

Lemma catalog_ids_nonempty s vid :
  catalog_inv s → vid ∈ voice_ids s → vid ≠ "".
Proof.
  intros H Hin. destruct (Tts.initialized s) eqn:Hi.
  - destruct (catalog_inv_ids s H Hi) as (customs & Hids & _ & Hc).
    rewrite Hids in Hin. apply elem_of_app in Hin as [Hin|Hin].
    + set_solver.
    + apply list_elem_of_lookup in Hin as [j Hj].
      apply Hc in Hj as [base ->]. done.
  - unfold catalog_inv in H. rewrite Hi in H. unfold voice_ids in Hin.
    rewrite H in Hin. set_solver.
Qed.

Lemma find_voice voices vid :
  vid ∈ Tts.v_id <$> voices →
  ∃ base, find (λ voice, bool_decide (Tts.v_id voice = vid)) voices = Some base
          ∧ base ∈ voices ∧ Tts.v_id base = vid.
Proof.
  induction voices as [|v voices IH]; simpl; [set_solver|].
  case_bool_decide as Hv.
  - intros _. exists v. set_solver.
  - intros Hin. apply elem_of_cons in Hin as [?|Hin]; [done|].
    destruct (IH Hin) as (base & ? & ? & ?). exists base. set_solver.
Qed.

(** The voice that a successful [customize_voice] call appends. *)
Lemma customize_voice_ok w vid customizations :
  vid ≠ "" → customizations ≠ ∅ →
  vid ∈ voice_ids (loaded (Tts.self w)) →
  ∃ base new_voice,
    base ∈ Tts.available_voices (loaded (Tts.self w))
    ∧ Tts.v_id base = vid
    ∧ new_voice
      = {| Tts.v_id := "custom_" +:+ vid +:+ "_"
             +:+ pretty (Z.of_nat (length (Tts.available_voices
                                             (loaded (Tts.self w)))) + 1);
           Tts.v_name :=
             default (VStr ("Customized " +:+ str env (Tts.v_name base)))
                     (customizations !! "name");
           Tts.v_gender := Tts.v_gender base;
           Tts.v_language := Tts.v_language base;
           Tts.v_is_custom := Some true;
           Tts.v_base_voice_id := Some vid;
           Tts.v_customizations := Some customizations |}
    ∧ Tts.customize_voice env vid customizations w
      = (Ok (Tts.v_id new_voice),
         Tts.set_self w
           {| Tts.model_path := Tts.model_path (loaded (Tts.self w));
              Tts.initialized := Tts.initialized (loaded (Tts.self w));
              Tts.available_voices :=
                Tts.available_voices (loaded (Tts.self w)) ++ [new_voice];
              Tts.model := Tts.model (loaded (Tts.self w)) |}).
Proof.
  intros Hne Hc Hin. unfold Tts.customize_voice.
  rewrite !bool_decide_eq_false_2 by done.
  rewrite ensure_model_loaded_eq; simpl.
  pose proof Hin as Hex. apply voice_exists_elem_of in Hex as ->. simpl.
  unfold Tts.customize_voice_body; simpl.
  destruct (find_voice _ _ Hin) as (base & -> & Hb & Hid).
  exists base. eexists. split; [done|]. split; [done|]. split; reflexivity.
Qed.

(** An unknown base id, an empty id or empty customizations: [ValueError],
    and the catalog is the loaded one or is left as it was. *)
Lemma customize_voice_rejected w vid customizations :
  vid = "" ∨ customizations = ∅ ∨ vid ∉ voice_ids (loaded (Tts.self w)) →
  ∃ msg w',
    Tts.customize_voice env vid customizations w = (Raise (ValueError msg), w')
    ∧ (w' = w ∨ w' = Tts.set_self w (loaded (Tts.self w))).
Proof.
  intros H. unfold Tts.customize_voice.
  case_bool_decide; [eauto|]. case_bool_decide; [eauto|].
  destruct H as [?|[?|H]]; [done..|].
  rewrite ensure_model_loaded_eq; simpl.
  rewrite voice_exists_false by done. simpl. eauto.
Qed.

Lemma catalog_inv_append s new_voice base :
  catalog_inv s → Tts.initialized s = true →
  Tts.v_id new_voice
  = "custom_" +:+ base +:+ "_"
    +:+ pretty (Z.of_nat (length (Tts.available_voices s)) + 1) →
  catalog_inv {| Tts.model_path := Tts.model_path s;
                 Tts.initialized := Tts.initialized s;
                 Tts.available_voices := Tts.available_voices s ++ [new_voice];
                 Tts.model := Tts.model s |}.
Proof.
  unfold catalog_inv. intros H Hi Hid. simpl. rewrite Hi in H |- *.
  destruct H as (customs & Hv & Hc).
  exists (customs ++ [new_voice]). split.
  { rewrite Hv. by rewrite <-app_assoc. }
  intros j v Hj. apply lookup_app_Some in Hj as [Hj|[Hlen Hj]]; [by apply Hc|].
  apply list_lookup_singleton_Some in Hj as [Hj <-].
  exists base. rewrite Hid, Hv, length_app. simpl.
  replace j with (length customs) by lia. done.
Qed.

(** Every method leaves a catalog of the expected shape. *)
Lemma customize_voice_inv w vid customizations :
  catalog_inv (Tts.self w) →
  catalog_inv (Tts.self (Tts.customize_voice env vid customizations w).2).
Proof.
  intros Hinv.
  destruct (decide (vid = "" ∨ customizations = ∅
                    ∨ vid ∉ voice_ids (loaded (Tts.self w)))) as [Hr|Hok].
  - destruct (customize_voice_rejected w vid customizations Hr)
      as (msg & w' & -> & [->| ->]); simpl; [done|].
    by apply catalog_inv_loaded.
  - assert (vid ≠ "" ∧ customizations ≠ ∅
            ∧ vid ∈ voice_ids (loaded (Tts.self w))) as (H1 & H2 & H3).
    { repeat split; [intros ?|intros ?|apply dec_stable; intros ?];
        apply Hok; auto. }
    destruct (customize_voice_ok w vid customizations H1 H2 H3)
      as (base & nv & _ & _ & Hnv & ->). simpl.
    apply catalog_inv_loaded in Hinv as [Hinv Hi].
    apply (catalog_inv_append _ _ vid); [done..|]. by rewrite Hnv.
Qed.

Lemma generate_audio_self text vid params w :
  Tts.self (Tts.generate_audio env text vid params w).2 = Tts.self w
  ∨ Tts.self (Tts.generate_audio env text vid params w).2 = loaded (Tts.self w).
Proof.
  unfold Tts.generate_audio.
  repeat (case_bool_decide; [by left|]).
  destruct (10000 <? len text); [by left|].
  rewrite ensure_model_loaded_eq; simpl.
  destruct (negb (Tts.voice_exists _ _)); [by right|].
  unfold Tts.generate_audio_body, Tts.write_file.
  destruct (Tts._process_params _); [|by right].
  destruct (open_w env _); [by right|].
  destruct (write_w env _ _) as [[? ?]|]; by right.
Qed.

Lemma reachable_inv w : reachable env w → catalog_inv (Tts.self w).
Proof.
  induction 1 as [mp|w text vid params _ IH|w _ IH|w vid c _ IH].
  - apply catalog_inv_init.
  - destruct (generate_audio_self text vid params w) as [-> | ->]; [done|].
    by apply catalog_inv_loaded.
  - unfold Tts.get_available_voices. rewrite ensure_model_loaded_eq. simpl.
    by apply catalog_inv_loaded.
  - by apply customize_voice_inv.
Qed.

Lemma customize_all_reachable calls w :
  reachable env w → reachable env (customize_all env calls w).
Proof.
  revert w. induction calls as [|[vid c] calls IH]; intros w Hw; [done|].
  simpl. apply IH. by constructor.
Qed.

Lemma builtin_voice_known w :
  reachable env w → "voice_1" ∈ voice_ids (loaded (Tts.self w)).
Proof.
  intros Hw. apply reachable_inv, catalog_inv_loaded in Hw as [Hinv Hi].
  destruct (catalog_inv_ids _ Hinv Hi) as (customs & -> & _). set_solver.
Qed.

Lemma customize_same_base_length customizations n w :
  reachable env w → customizations ≠ ∅ →
  length (voice_ids (loaded (Tts.self
    (customize_all env (replicate n ("voice_1", customizations)) w))))
  = (length (voice_ids (loaded (Tts.self w))) + n)%nat.
Proof.
  intros Hw Hc. revert w Hw. induction n as [|n IH]; intros w Hw; simpl.
  { lia. }
  rewrite IH by by constructor.
  destruct (customize_voice_ok w "voice_1" customizations)
    as (base & nv & _ & _ & _ & ->); [done..|by apply builtin_voice_known|].
  simpl. apply reachable_inv, catalog_inv_loaded in Hw as [_ Hi].
  unfold loaded at 1; simpl. rewrite Hi. unfold voice_ids; simpl.
  rewrite !length_fmap, length_app. simpl. lia.
Qed.

(** Counterexample to C9 as stated: the base voice is known, yet the call
    with empty customizations raises [ValueError] and appends nothing. *)
Lemma customize_voice_empty_customizations_rejected :
  let w := fresh_world example_env None in
  "voice_1" ∈ voice_ids (loaded (Tts.self w))
  ∧ Tts.customize_voice example_env "voice_1" ∅ w
    = (Raise (ValueError "Customizations must be a non-empty dictionary"), w).
Proof. split; [|done]. vm_compute. set_solver. Qed.

(** C9 (amended).  For every [customize_voice] call on a catalog reached
    from a new service: it raises [ValueError] when the base voice id is
    unknown; when the base id is known and the customizations are a non-empty
    mapping it appends exactly one new profile, which inherits gender and
    language from the base, has [is_custom = True] and [base_voice_id] set to
    the base id, and whose id is none of the ids already present.  In every
    case the ids of the catalog stay pairwise distinct and the profiles that
    were there are still there, unchanged and in place.  So after any
    sequence of calls all ids are pairwise distinct, and [n] calls with
    non-empty customizations on the base "voice_1" leave the four built-in
    voices and [n] derived ones. *)
Theorem customize_voice_catalog w vid customizations :
  reachable env w →
  let s := loaded (Tts.self w) in
  let r := Tts.customize_voice env vid customizations w in
  (vid ∉ voice_ids s → ∃ msg, r.1 = Raise (ValueError msg))
  ∧ (vid ∈ voice_ids s → customizations ≠ ∅ →
     ∃ base new_voice,
       base ∈ Tts.available_voices s ∧ Tts.v_id base = vid
       ∧ r.1 = Ok (Tts.v_id new_voice)
       ∧ Tts.available_voices (Tts.self r.2)
         = Tts.available_voices s ++ [new_voice]
       ∧ Tts.v_gender new_voice = Tts.v_gender base
       ∧ Tts.v_language new_voice = Tts.v_language base
       ∧ Tts.v_is_custom new_voice = Some true
       ∧ Tts.v_base_voice_id new_voice = Some vid
       ∧ Tts.v_id new_voice ∉ voice_ids s)
  ∧ NoDup (voice_ids (Tts.self r.2))
  ∧ Tts.available_voices (Tts.self w) `prefix_of` Tts.available_voices (Tts.self r.2)
  ∧ (∀ calls, NoDup (voice_ids (Tts.self (customize_all env calls w))))
  ∧ (∀ n, customizations ≠ ∅ →
       let w' := customize_all env (replicate n ("voice_1", customizations))
                   (fresh_world env None) in
       length (voice_ids (loaded (Tts.self w'))) = (4 + n)%nat
       ∧ NoDup (voice_ids (loaded (Tts.self w')))).
Proof.
  intros Hw s r.
  assert (Tts.available_voices (Tts.self w) `prefix_of` Tts.available_voices s)
    as Hpre.
  { unfold s, loaded. destruct (Tts.initialized (Tts.self w)) eqn:Hi; [done|].
    apply reachable_inv in Hw. unfold catalog_inv in Hw. rewrite Hi in Hw.
    rewrite Hw. apply prefix_nil. }
  assert (NoDup (voice_ids (Tts.self r.2))) as Hnd.
  { apply catalog_inv_NoDup, customize_voice_inv, reachable_inv, Hw. }
  split; [|split; [|split; [done|split; [|split]]]].
  - intros Hv.
    destruct (customize_voice_rejected w vid customizations)
      as (msg & w' & Hr & _); [auto|].
    exists msg. unfold r. by rewrite Hr.
  - intros Hv Hc.
    assert (vid ≠ "") as Hne.
    { eapply catalog_ids_nonempty; [|exact Hv].
      by apply catalog_inv_loaded, reachable_inv. }
    destruct (customize_voice_ok w vid customizations Hne Hc Hv)
      as (base & nv & Hb & Hid & Hnv & Hr).
    exists base, nv. unfold r in *. rewrite Hr in Hnd |- *. simpl in *.
    repeat (split; [by rewrite ?Hnv|]).
    unfold voice_ids in Hnd; simpl in Hnd. rewrite fmap_app in Hnd.
    apply NoDup_app in Hnd as (_ & Hnd & _).
    intros Hin. apply (Hnd _ Hin). set_solver.
  - destruct (decide (vid = "" ∨ customizations = ∅ ∨ vid ∉ voice_ids s))
      as [Hr|Hok].
    + destruct (customize_voice_rejected w vid customizations Hr)
        as (msg & w' & Hr' & [->| ->]); unfold r; rewrite Hr'; simpl; done.
    + assert (vid ≠ "" ∧ customizations ≠ ∅ ∧ vid ∈ voice_ids s)
        as (H1 & H2 & H3).
      { repeat split; [intros ?|intros ?|apply dec_stable; intros ?];
          apply Hok; auto. }
      destruct (customize_voice_ok w vid customizations H1 H2 H3)
        as (base & nv & _ & _ & _ & Hr).
      unfold r; rewrite Hr; simpl.
      etrans; [exact Hpre|]. by apply prefix_app_r.
  - intros calls.
    by apply catalog_inv_NoDup, reachable_inv, customize_all_reachable.
  - intros n Hc w'. split.
    + unfold w'. rewrite customize_same_base_length by (done || constructor).
      unfold fresh_world; simpl. by rewrite loaded_fresh_ids.
    + apply catalog_inv_NoDup, catalog_inv_loaded, reachable_inv.
      apply customize_all_reachable. constructor.
Qed.

End Catalog.

Lemma customize_voice_catalog_witness :
  let w := fresh_world example_env None in
  let s := loaded (Tts.self w) in
  let customizations : gmap string value := {[ "name" := VStr "Deep" ]} in
  let r := Tts.customize_voice example_env "voice_1" customizations w in
  reachable example_env w
  ∧ (∃ base new_voice,
       base ∈ Tts.available_voices s ∧ Tts.v_id base = "voice_1"
       ∧ r.1 = Ok (Tts.v_id new_voice)
       ∧ Tts.available_voices (Tts.self r.2)
         = Tts.available_voices s ++ [new_voice]
       ∧ Tts.v_gender new_voice = Tts.v_gender base
       ∧ Tts.v_language new_voice = Tts.v_language base
       ∧ Tts.v_is_custom new_voice = Some true
       ∧ Tts.v_base_voice_id new_voice = Some "voice_1"
       ∧ Tts.v_id new_voice ∉ voice_ids s)
  ∧ r.1 = Ok "custom_voice_1_5"
  ∧ NoDup (voice_ids (Tts.self r.2))
  ∧ length (voice_ids (loaded (Tts.self
      (customize_all example_env (replicate 3 ("voice_1", customizations)) w))))
    = 7%nat.
Proof.
  intros w s customizations r.
  pose proof (customize_voice_catalog example_env w "voice_1" customizations
                (reach_init example_env None)) as (_ & Hok & Hnd & _ & _ & Hn).
  split; [apply reach_init|]. split.
  { apply Hok; [apply list_elem_of_here|apply insert_non_empty]. }
  split; [reflexivity|]. split; [exact Hnd|].
  apply (Hn 3%nat). apply insert_non_empty.
Defined.

(** ** CharacterAnalyzer: [identify_characters] *)

Section Analyzer.
Implicit Types (self : Gemini.GeminiService) (text : string).

Lemma mapM_Ok_fmap {A B : Type} (f : A → result B) (g : A → B) (l : list A) :
  (∀ x, x ∈ l → f x = Ok (g x)) → mapM f l = Ok (g <$> l).
Proof.
  induction l as [|x l IH]; intros Hf; [done|].
  cbn. rewrite (Hf x) by set_solver. cbn.
  rewrite IH by set_solver. done.
Qed.

Lemma validate_text_input_ok text :
  text ≠ "" → len text ≤ 1000000 → Gemini._validate_text_input text = Ok ().
Proof.
  intros Hne Hl. unfold Gemini._validate_text_input.
  rewrite bool_decide_eq_false_2 by done.
  by apply Z.ltb_ge in Hl as ->.
Qed.

Lemma validate_text_input_cases text :
  Gemini._validate_text_input text = Ok ()
  ∨ ∃ msg, Gemini._validate_text_input text = Raise (ValueError msg).
Proof.
  unfold Gemini._validate_text_input.
  case_bool_decide; [eauto|]. destruct (1000000 <? len text); eauto.
Qed.

Lemma from_dict_mock_character text d :
  d ∈ Gemini.characters (Gemini._mock_character_analysis text) →
  Gemini.CharacterInfo_.from_dict d = Ok (char_of_dict d).
Proof.
  unfold Gemini._mock_character_analysis; simpl.
  intros (i & -> & _)%list_elem_of_fmap.
  by case_bool_decide.
Qed.

Lemma make_api_request_characters data :
  Gemini._make_api_request "analyzeCharacters" data
  = Ok (Gemini.RCharacters
          (Gemini._mock_character_analysis (default "" (Gemini.q_text data)))).
Proof. reflexivity. Qed.

Lemma make_api_request_dialogue data :
  Gemini._make_api_request "analyzeDialogue" data
  = Ok (Gemini.RDialogues
          (Gemini._mock_dialogue_analysis (default "" (Gemini.q_text data)))).
Proof. reflexivity. Qed.

Lemma make_api_request_voices data :
  Gemini._make_api_request "suggestVoices" data
  = Ok (Gemini.RVoices
          (Gemini._mock_voice_suggestions
             (inr <$> default [] (Gemini.q_characters data)))).
Proof. reflexivity. Qed.

(** Both branches of [identify_characters] return the mock roster. *)
Lemma identify_characters_eq self text :
  text ≠ "" → len text ≤ 1000000 →
  Gemini.identify_characters self text
  = Ok (char_of_dict <$> Gemini.characters (Gemini._mock_character_analysis text)).
Proof.
  intros Hne Hl. unfold Gemini.identify_characters.
  rewrite validate_text_input_ok by done.
  unfold Gemini._validate_api_key.
  rewrite make_api_request_characters. simpl default.
  pose proof (from_dict_mock_character text) as Hd.
  destruct (Gemini._mock_character_analysis text) as [cs lang n].
  destruct (Gemini.truthy _); cbn -[mapM];
    by rewrite (mapM_Ok_fmap _ char_of_dict).
Qed.

(** C4.  For every non-empty text of length [L <= 1,000,000], with no
    provider configured, [identify_characters] returns exactly
    [min(max(2, L // 10000), 10)] characters; the character at index 0, and
    only that one, is the narrator, and its dialogue count is three times the
    count [L // 500] that every other character gets. *)
Theorem identify_characters_fallback self text :
  Gemini.truthy (Gemini.api_key self) = false →
  text ≠ "" → len text ≤ 1000000 →
  ∃ cs,
    Gemini.identify_characters self text = Ok cs
    ∧ Z.of_nat (length cs) = (2 `max` (len text `div` 10000)) `min` 10
    ∧ ∀ (i : nat) c, cs !! i = Some c →
        Gemini.is_narrator c = bool_decide (i = 0%nat)
        ∧ Gemini.dialogue_count c
          = if bool_decide (i = 0%nat) then 3 * (len text `div` 500)
            else len text `div` 500.
Proof.
  intros _ Hne Hl. eexists. split; [by apply identify_characters_eq|].
  unfold Gemini._mock_character_analysis; simpl.
  split.
  - rewrite !length_fmap, length_seqZ. lia.
  - intros i c. rewrite <-list_fmap_compose, list_lookup_fmap.
    destruct (seqZ _ _ !! i) as [z|] eqn:Hz; [|done].
    apply lookup_seqZ in Hz as [-> _]. intros [= <-]. simpl.
    destruct i as [|i].
    + rewrite !bool_decide_eq_true_2 by done. simpl. split; [done|lia].
    + rewrite !bool_decide_eq_false_2 by lia. simpl. split; [done|lia].
Qed.

Lemma identify_characters_fallback_witness :
  ∃ cs,
    Gemini.identify_characters no_provider (text_of_length 25000) = Ok cs
    ∧ Z.of_nat (length cs) = 2
    ∧ ∀ (i : nat) c, cs !! i = Some c →
        Gemini.is_narrator c = bool_decide (i = 0%nat)
        ∧ Gemini.dialogue_count c
          = if bool_decide (i = 0%nat) then 3 * 50 else 50.
Proof.
  exact (identify_characters_fallback no_provider (text_of_length 25000)
           eq_refl
           (λ H, eq_ind (text_of_length 25000)
                   (λ s, match s with EmptyString => False | _ => True end)
                   I "" H)
           (λ H, eq_ind Lt
                   (λ c, match c with Gt => False | _ => True end)
                   I Gt H)).
Defined.

(** Counterexample to C8 as stated: on the same text the service without a
    key and a service with a key return equal rosters; nothing in the result
    tells the fallback mode from the other. *)
Lemma identify_characters_same_without_key :
  ∃ cs,
    Gemini.identify_characters no_provider "Call me Ishmael." = Ok cs
    ∧ Gemini.identify_characters {| Gemini.api_key := Some "key" |}
        "Call me Ishmael." = Ok cs.
Proof. eexists. split; reflexivity. Qed.

(** C8 (amended).  The roster that [identify_characters] returns in fallback
    mode carries no degraded flag: for every text the result, a plain list of
    characters or the error, is equal to the result of a service that has a
    key, so the caller cannot tell the two modes apart from the result. *)
Theorem identify_characters_mode_unobservable self1 self2 text :
  Gemini.identify_characters self1 text = Gemini.identify_characters self2 text.
Proof.
  destruct (decide (text ≠ "" ∧ len text ≤ 1000000)) as [[Hne Hl]|Hbad].
  - by rewrite !identify_characters_eq.
  - unfold Gemini.identify_characters, Gemini._validate_text_input.
    case_bool_decide; [done|].
    destruct (1000000 <? len text) eqn:Hlt; [done|].
    apply Z.ltb_ge in Hlt. tauto.
Qed.

End Analyzer.

(** ** DialogueAttributor: [identify_dialogue] *)

Section Attributor.
Implicit Types (self : Gemini.GeminiService) (text : string).
Implicit Types (range : list Z) (pos : Z).

(** The loop only ever appends to the list it has collected. *)
Lemma dialogue_loop_acc text L n range pos acc :
  Gemini.dialogue_loop text L n range pos acc
  = acc ++ Gemini.dialogue_loop text L n range pos [].
Proof.
  revert pos acc. induction range as [|i range IH]; intros pos acc; simpl.
  { by rewrite app_nil_r. }
  destruct (L <=? pos + _); [by rewrite app_nil_r|].
  destruct (L <=? pos + _); [by rewrite app_nil_r|].
  rewrite IH. rewrite (IH _ [_]). by rewrite <-app_assoc.
Qed.

(** The [k]-th span the loop produces comes from the [k]-th value of [i]; it
    has all four required keys, starts at or after the position the loop was
    entered with, and its name is fixed by [i mod 3]. *)
Lemma dialogue_loop_lookup text L n range pos (k : nat) d :
  0 ≤ L `div` n → 0 ≤ L `div` (n * 2) →
  Gemini.dialogue_loop text L n range pos [] !! k = Some d →
  ∃ i s,
    range !! k = Some i
    ∧ complete_dialogue d
    ∧ Gemini.d_character_name d
      = Some (if bool_decide (i `mod` 3 = 0) then "Narrator"
              else "Character " +:+ pretty (i `mod` 3))
    ∧ Gemini.d_start_index d = Some s
    ∧ Gemini.d_end_index d = Some (s + 100 `min` (L `div` n))
    ∧ pos ≤ s.
Proof.
  intros Hdl Hskip. revert pos k.
  induction range as [|i range IH]; intros pos k; simpl; [done|].
  destruct (L <=? pos + _); [done|].
  destruct (L <=? pos + _); [done|].
  rewrite dialogue_loop_acc. destruct k as [|k]; simpl.
  - intros [= <-]. eexists _, _. unfold complete_dialogue; simpl.
    repeat (split; [by eauto|]). lia.
  - intros Hk. apply IH in Hk as (j & s & ? & ? & ? & ? & ? & ?).
    exists j, s. repeat (split; [done|]). lia.
Qed.

(** Consecutive spans do not overlap: the next one starts at or after the
    end of the previous one. *)
Lemma dialogue_loop_consecutive text L n range pos (k : nat) d1 d2 :
  0 ≤ L `div` n → 0 ≤ L `div` (n * 2) →
  Gemini.dialogue_loop text L n range pos [] !! k = Some d1 →
  Gemini.dialogue_loop text L n range pos [] !! S k = Some d2 →
  ∃ e1 s2,
    Gemini.d_end_index d1 = Some e1 ∧ Gemini.d_start_index d2 = Some s2
    ∧ e1 ≤ s2.
Proof.
  intros Hdl Hskip. revert pos k.
  induction range as [|i range IH]; intros pos k; simpl; [done|].
  destruct (L <=? pos + _); [done|].
  destruct (L <=? pos + _); [done|].
  rewrite dialogue_loop_acc. destruct k as [|k]; simpl.
  - intros [= <-] H2. simpl.
    apply dialogue_loop_lookup in H2 as (j & s & _ & _ & _ & Hs & _ & Hle);
      [|done..].
    eauto.
  - apply IH.
Qed.

Lemma from_dict_complete d :
  complete_dialogue d →
  Gemini.DialogueInfo_.from_dict d = Ok (dialogue_of_dict d).
Proof.
  unfold complete_dialogue. destruct d as [t c s e cf em]; simpl.
  by intros ([? ->] & [? ->] & [? ->] & [? ->]).
Qed.

Lemma mock_dialogue_bounds (L : Z) :
  0 ≤ L →
  let n := (5 `max` (L `div` 5000)) `min` 50 in
  0 ≤ L `div` n ∧ 0 ≤ L `div` (n * 2).
Proof. intros HL n. split; apply Z.div_pos; lia. Qed.

Lemma len_nonneg text : 0 ≤ len text.
Proof. unfold len. lia. Qed.

Lemma mock_dialogue_complete text d :
  d ∈ Gemini.dialogues (Gemini._mock_dialogue_analysis text) →
  complete_dialogue d.
Proof.
  unfold Gemini._mock_dialogue_analysis; simpl.
  intros [k Hk]%list_elem_of_lookup.
  destruct (mock_dialogue_bounds (len text) (len_nonneg text)).
  apply dialogue_loop_lookup in Hk as (? & ? & ? & ? & _); done.
Qed.

(** Both branches of [identify_dialogue] return the mock spans; the roster
    is only tested for emptiness. *)
Lemma identify_dialogue_eq self text (cs : list Gemini.CharacterInfo) :
  text ≠ "" → len text ≤ 1000000 → cs ≠ [] →
  Gemini.identify_dialogue self text cs
  = Ok (dialogue_of_dict <$> Gemini.dialogues (Gemini._mock_dialogue_analysis text)).
Proof.
  intros Hne Hl Hcs. unfold Gemini.identify_dialogue.
  rewrite validate_text_input_ok by done.
  rewrite make_api_request_dialogue.
  simpl default.
  pose proof (mock_dialogue_complete text) as Hd.
  destruct (Gemini._mock_dialogue_analysis text) as [ds n]. simpl in Hd.
  assert (∀ d, d ∈ ds → Gemini.DialogueInfo_.from_dict d = Ok (dialogue_of_dict d))
    as Hm by (intros d Hin; apply from_dict_complete; by apply Hd).
  rewrite bool_decide_eq_false_2 by done.
  unfold Gemini._validate_api_key.
  destruct (Gemini.truthy _); cbn -[mapM];
    by rewrite (mapM_Ok_fmap _ dialogue_of_dict).
Qed.

Lemma cycle_name_eq (k : nat) :
  (if bool_decide (Z.of_nat k `mod` 3 = 0) then "Narrator"
   else "Character " +:+ pretty (Z.of_nat k `mod` 3))
  = cycle_name k.
Proof.
  unfold cycle_name.
  change 3 with (Z.of_nat 3). rewrite <-Nat2Z.inj_mod.
  pose proof (Nat.mod_upper_bound k 3 ltac:(done)) as Hlt.
  destruct (k `mod` 3)%nat as [|[|[|r]]]; [done..|lia].
Qed.

Lemma cycle_name_fixed (k : nat) :
  cycle_name k ∈ ["Narrator"; "Character 1"; "Character 2"].
Proof.
  unfold cycle_name. destruct (k `mod` 3)%nat as [|[|r]]; set_solver.
Qed.

(** The spans of the mock analysis: named by position, starting at or after
    0, ending at or after their start, each starting at or after the end of
    the one before. *)
Lemma mock_dialogue_spans text (k : nat) d :
  Gemini.dialogues (Gemini._mock_dialogue_analysis text) !! k = Some d →
  complete_dialogue d
  ∧ Gemini.character_name (dialogue_of_dict d) = cycle_name k
  ∧ 0 ≤ Gemini.start_index (dialogue_of_dict d)
  ∧ Gemini.start_index (dialogue_of_dict d) ≤ Gemini.end_index (dialogue_of_dict d)
  ∧ ∀ d', Gemini.dialogues (Gemini._mock_dialogue_analysis text) !! S k = Some d' →
      Gemini.end_index (dialogue_of_dict d) ≤ Gemini.start_index (dialogue_of_dict d').
Proof.
  unfold Gemini._mock_dialogue_analysis; simpl. intros Hk.
  destruct (mock_dialogue_bounds (len text) (len_nonneg text)) as [Hdl Hskip].
  pose proof Hk as Hk'.
  apply dialogue_loop_lookup in Hk' as (i & s & Hi & Hc & Hn & Hs & He & Hpos);
    [|done..].
  apply lookup_seqZ in Hi as [-> _].
  split; [done|]. unfold dialogue_of_dict; simpl.
  rewrite Hn, Hs, He; simpl. rewrite Z.add_0_l, cycle_name_eq.
  split; [done|]. split; [done|]. split; [lia|].
  intros d' Hk2.
  destruct (dialogue_loop_consecutive _ _ _ _ _ _ _ _ Hdl Hskip Hk Hk2)
    as (e1 & s2 & He1 & Hs2 & Hle).
  rewrite He in He1. injection He1 as <-. by rewrite Hs2.
Qed.

(** What holds of the spans of every successful call: they are ordered by
    start index and do not overlap, and no start index is negative. *)
Lemma identify_dialogue_spans_ordered self text (cs : list Gemini.CharacterInfo) :
  text ≠ "" → len text ≤ 1000000 → cs ≠ [] →
  ∃ ds,
    Gemini.identify_dialogue self text cs = Ok ds
    ∧ ∀ (k : nat) d, ds !! k = Some d →
        0 ≤ Gemini.start_index d ≤ Gemini.end_index d
        ∧ ∀ d', ds !! S k = Some d' →
            Gemini.end_index d ≤ Gemini.start_index d'.
Proof.
  intros Hne Hl Hcs. eexists. split; [by apply identify_dialogue_eq|].
  intros k d. rewrite list_lookup_fmap.
  destruct (_ !! k) as [x|] eqn:Hx; [|done]. intros [= <-].
  apply mock_dialogue_spans in Hx as (_ & _ & H0 & H1 & H2).
  split; [done|]. intros d'. rewrite list_lookup_fmap.
  destruct (_ !! S k) as [x'|] eqn:Hx'; [|done]. intros [= <-]. by apply H2.
Qed.

(** C5, at two failing inputs.  On a text of 23 characters the fourth span
    is [(20, 24)]: its end index is past the end of the text, while its
    [text] field, clipped by the slice, holds the 3 characters that are
    left.  On a text of 3 characters the five spans are all [(0, 0)], so
    start index and end index are equal. *)
Theorem identify_dialogue_span_bounds_violated :
  let roster := [character "Narrator" true None] in
  let bounds d := (Gemini.start_index d, Gemini.end_index d) in
  (∃ ds,
     Gemini.identify_dialogue no_provider (text_of_length 23) roster = Ok ds
     ∧ len (text_of_length 23) = 23
     ∧ bounds <$> ds = [(2, 6); (8, 12); (14, 18); (20, 24)]
     ∧ (len ∘ Gemini.text) <$> ds = [4; 4; 4; 3]
     ∧ ¬ ∀ d, d ∈ ds → Gemini.end_index d ≤ len (text_of_length 23))
  ∧ (∃ ds,
       Gemini.identify_dialogue no_provider "abc" roster = Ok ds
       ∧ bounds <$> ds = [(0, 0); (0, 0); (0, 0); (0, 0); (0, 0)]
       ∧ ¬ ∀ d, d ∈ ds → Gemini.start_index d < Gemini.end_index d).
Proof.
  split; eexists; (split; [vm_compute; reflexivity|]).
  - repeat (split; [vm_compute; reflexivity|]).
    intros H.
    pose proof (H _ (list_elem_of_further _ _ _
                      (list_elem_of_further _ _ _
                        (list_elem_of_further _ _ _ (list_elem_of_here _ _)))))
      as Hle.
    vm_compute in Hle. by apply Hle.
  - split; [vm_compute; reflexivity|].
    intros H. pose proof (H _ (list_elem_of_here _ _)) as Hlt.
    vm_compute in Hlt. discriminate.
Qed.

Lemma identify_dialogue_ok_inv self text (cs : list Gemini.CharacterInfo) ds :
  Gemini.identify_dialogue self text cs = Ok ds →
  text ≠ "" ∧ len text ≤ 1000000 ∧ cs ≠ [].
Proof.
  unfold Gemini.identify_dialogue, Gemini._validate_text_input.
  destruct (bool_decide (text = "")) eqn:Ht; [by cbn|].
  destruct (1000000 <? len text) eqn:Hlt; [by cbn|].
  cbn -[mapM]. destruct (bool_decide (cs = [])) eqn:Hcs; [done|]. intros _.
  apply bool_decide_eq_false in Ht, Hcs. apply Z.ltb_ge in Hlt. done.
Qed.

Lemma identify_dialogue_names_by_position self text
    (cs : list Gemini.CharacterInfo) ds (k : nat) d :
  Gemini.identify_dialogue self text cs = Ok ds →
  ds !! k = Some d → Gemini.character_name d = cycle_name k.
Proof.
  intros Hok Hk.
  destruct (identify_dialogue_ok_inv _ _ _ _ Hok) as (Hne & Hl & Hcs).
  rewrite identify_dialogue_eq in Hok by done. injection Hok as <-.
  rewrite list_lookup_fmap in Hk.
  destruct (_ !! k) as [x|] eqn:Hx; [|done]. injection Hk as <-.
  by apply mock_dialogue_spans in Hx as (_ & ? & _).
Qed.

(** Counterexample to C6 as stated: with the one-entry roster "Alice" the
    call succeeds, and none of the names of its three spans is in the
    roster. *)
Lemma identify_dialogue_names_not_in_roster :
  let roster := [character "Alice" false (Some "female")] in
  ∃ ds,
    Gemini.identify_dialogue no_provider (text_of_length 100) roster = Ok ds
    ∧ Gemini.character_name <$> ds = ["Narrator"; "Character 1"; "Character 2"]
    ∧ Gemini.name <$> roster = ["Alice"]
    ∧ ∀ d, d ∈ ds → Gemini.character_name d ∉ Gemini.name <$> roster.
Proof.
  eexists. split; [vm_compute; reflexivity|].
  repeat (split; [vm_compute; reflexivity|]).
  intros d Hd Hin. apply list_elem_of_singleton in Hin.
  repeat (apply elem_of_cons in Hd as [->|Hd]; [discriminate Hin|]).
  by apply elem_of_nil in Hd.
Qed.

(** C6 (amended).  [identify_dialogue] raises [ValueError] when the roster is
    empty.  For a non-empty roster and a text that passes validation it
    returns spans whose names cycle through the three fixed names "Narrator",
    "Character 1" and "Character 2" by position, whatever the roster holds;
    no span name is checked against the roster. *)
Theorem identify_dialogue_names self text (cs : list Gemini.CharacterInfo) :
  (cs = [] → ∃ msg, Gemini.identify_dialogue self text cs = Raise (ValueError msg))
  ∧ (cs ≠ [] → text ≠ "" → len text ≤ 1000000 →
     ∃ ds,
       Gemini.identify_dialogue self text cs = Ok ds
       ∧ ∀ (k : nat) d, ds !! k = Some d →
           Gemini.character_name d = cycle_name k).
Proof.
  split.
  - intros ->. unfold Gemini.identify_dialogue.
    destruct (validate_text_input_cases text) as [-> |[msg ->]]; cbn; eauto.
  - intros Hcs Hne Hl. eexists. split; [by apply identify_dialogue_eq|].
    intros k d. apply (identify_dialogue_names_by_position self text cs).
    by apply identify_dialogue_eq.
Qed.

Lemma identify_dialogue_names_witness :
  (∃ msg, Gemini.identify_dialogue no_provider "Hi there" [] = Raise (ValueError msg))
  ∧ ∃ ds,
      Gemini.identify_dialogue no_provider (text_of_length 100)
        [character "Alice" false (Some "female")] = Ok ds
      ∧ ∀ (k : nat) d, ds !! k = Some d →
          Gemini.character_name d = cycle_name k.
Proof.
  split.
  - exact (proj1 (identify_dialogue_names no_provider "Hi there" []) eq_refl).
  - apply (proj2 (identify_dialogue_names no_provider (text_of_length 100)
                    [character "Alice" false (Some "female")])).
    + discriminate.
    + discriminate.
    + vm_compute. discriminate.
Defined.

(** C10.  The result of [identify_dialogue] is a function of the text alone:
    for every text and any two non-empty rosters the two calls return the
    same result, span for span (in fallback mode, and with a key as well),
    and every name in it is one of "Narrator", "Character 1" and
    "Character 2". *)
Theorem identify_dialogue_roster_independent self text
    (c1 c2 : list Gemini.CharacterInfo) :
  c1 ≠ [] → c2 ≠ [] →
  Gemini.identify_dialogue self text c1 = Gemini.identify_dialogue self text c2
  ∧ ∀ ds d,
      Gemini.identify_dialogue self text c1 = Ok ds → d ∈ ds →
      Gemini.character_name d ∈ ["Narrator"; "Character 1"; "Character 2"].
Proof.
  intros H1 H2. split.
  - unfold Gemini.identify_dialogue.
    destruct (Gemini._validate_text_input text); [|done]. cbn -[mapM].
    by rewrite !bool_decide_eq_false_2.
  - intros ds d Hok [k Hk]%list_elem_of_lookup.
    rewrite (identify_dialogue_names_by_position _ _ _ _ _ _ Hok Hk).
    apply cycle_name_fixed.
Qed.

Lemma identify_dialogue_roster_independent_witness :
  let c1 := [character "Alice" false (Some "female")] in
  let c2 := [character "Narrator" true None; character "Bob" false (Some "male")] in
  Gemini.identify_dialogue no_provider (text_of_length 100) c1
  = Gemini.identify_dialogue no_provider (text_of_length 100) c2
  ∧ ∀ ds d,
      Gemini.identify_dialogue no_provider (text_of_length 100) c1 = Ok ds →
      d ∈ ds →
      Gemini.character_name d ∈ ["Narrator"; "Character 1"; "Character 2"].
Proof.
  intros c1 c2.
  apply (identify_dialogue_roster_independent no_provider (text_of_length 100)
           c1 c2); discriminate.
Defined.

End Attributor.

(** ** VoiceRecommender: [suggest_voices] *)

Section Recommender.
Implicit Types (self : Gemini.GeminiService) (cs : list Gemini.CharacterInfo).

Lemma mock_voice_suggestions_objects cs :
  Gemini._mock_voice_suggestions (inl <$> cs)
  = Gemini._mock_voice_suggestions (inr <$> (Gemini.CharacterInfo_.to_dict <$> cs)).
Proof.
  unfold Gemini._mock_voice_suggestions. by rewrite <-!list_fmap_compose.
Qed.

(** Both branches of [suggest_voices] return the mock table. *)
Lemma suggest_voices_eq self cs :
  cs ≠ [] →
  Gemini.suggest_voices self cs
  = Ok (Gemini.va_voice_suggestions (Gemini._mock_voice_suggestions (inl <$> cs))).
Proof.
  intros Hcs. unfold Gemini.suggest_voices.
  rewrite bool_decide_eq_false_2 by done.
  rewrite make_api_request_voices. simpl default.
  rewrite <-mock_voice_suggestions_objects.
  unfold Gemini._validate_api_key.
  by destruct (Gemini.truthy _).
Qed.

(** Storing one entry per element, in order: a key that no element has keeps
    its old entry, and with pairwise distinct keys each element finds its
    own entry. *)
Lemma foldl_insert_other {A V : Type} (key : A → string) (val : A → V)
    (l : list A) (m : gmap string V) k :
  (∀ x, x ∈ l → key x ≠ k) →
  foldl (λ m x, <[key x := val x]> m) m l !! k = m !! k.
Proof.
  revert m. induction l as [|x l IH]; intros m Hk; simpl; [done|].
  rewrite IH by set_solver. apply lookup_insert_ne. set_solver.
Qed.

Lemma foldl_insert_lookup {A V : Type} (key : A → string) (val : A → V)
    (l : list A) (m : gmap string V) x :
  NoDup (key <$> l) → x ∈ l →
  foldl (λ m x, <[key x := val x]> m) m l !! key x = Some (val x).
Proof.
  revert m. induction l as [|y l IH]; intros m Hnd Hin; [set_solver|].
  rewrite fmap_cons in Hnd. apply NoDup_cons in Hnd as [Hy Hnd]. simpl.
  apply elem_of_cons in Hin as [->|Hin]; [|by apply IH].
  rewrite foldl_insert_other; [apply lookup_insert_eq|].
  intros z Hz Heq. apply Hy. rewrite <-Heq. by apply list_elem_of_fmap_2.
Qed.

Lemma mock_voice_suggestions_lookup cs c :
  NoDup (Gemini.name <$> cs) → c ∈ cs →
  Gemini.va_voice_suggestions (Gemini._mock_voice_suggestions (inl <$> cs))
    !! Gemini.name c
  = Some (Gemini.suggestions_for (Gemini.CharacterInfo_.to_dict c)).
Proof.
  intros Hnd Hin.
  unfold Gemini._mock_voice_suggestions; simpl.
  rewrite <-list_fmap_compose.
  change (Gemini.name c)
    with (default "Unknown" (Gemini.d_name (Gemini.CharacterInfo_.to_dict c))).
  apply (foldl_insert_lookup
           (λ d, default "Unknown" (Gemini.d_name d)) Gemini.suggestions_for).
  - by rewrite <-list_fmap_compose.
  - by apply (list_elem_of_fmap_2 (Gemini.CharacterInfo_.to_dict)).
Qed.

(** Counterexample to C7 as stated.  Two characters share the name "Sam";
    the first is male and not the narrator, yet the only list returned for
    "Sam" is the female one (pitches 1 and 2), because the second entry
    overwrites the first.  And on the empty character list the call returns
    nothing: it raises [ValueError]. *)
Lemma suggest_voices_not_per_character :
  let cs := [character "Sam" false (Some "male");
             character "Sam" false (Some "female")] in
  (∃ m l,
     Gemini.suggest_voices no_provider cs = Ok m
     ∧ m !! "Sam" = Some l
     ∧ Gemini.s_voice_id <$> l = ["female_1"; "female_2"]
     ∧ Gemini.s_pitch <$> l = [1; 2])
  ∧ Gemini.suggest_voices no_provider []
    = Raise (ValueError "Character list cannot be empty").
Proof. split; [|done]. do 2 eexists. repeat split; vm_compute; reflexivity. Qed.

(** C7 (amended).  For every non-empty character list whose names are
    pairwise distinct, [suggest_voices] returns for each character the
    suggestions of the rule table for its (is_narrator, gender): a narrator
    gets two suggestions with confidences 0.95 and 0.9, the second with
    pitch -1 and speed 0.9; a male character that is not the narrator gets
    two with confidences 0.9 and 0.85, the second with pitch -2 and speed
    0.95; a female one gets two with confidences 0.9 and 0.85, the second
    with pitch 2 and speed 1.05; any other character that is not the
    narrator, in particular one with no gender, gets the one neutral
    suggestion with confidence 0.8.  Each list is in the order in which it
    was built, and that order is by descending confidence. *)
Theorem suggest_voices_rule_table self cs :
  cs ≠ [] → NoDup (Gemini.name <$> cs) →
  ∃ m,
    Gemini.suggest_voices self cs = Ok m
    ∧ ∀ c, c ∈ cs →
        ∃ l,
          m !! Gemini.name c = Some l
          ∧ ranked l
          ∧ (Gemini.is_narrator c = true →
             ∃ s1 s2, l = [s1; s2]
               ∧ Gemini.s_confidence s1 = FFin 0.95
               ∧ Gemini.s_confidence s2 = FFin 0.9
               ∧ Gemini.s_pitch s2 = -1 ∧ Gemini.s_speed s2 = FFin 0.9)
          ∧ (Gemini.is_narrator c = false → Gemini.gender c = Some "male" →
             ∃ s1 s2, l = [s1; s2]
               ∧ Gemini.s_confidence s1 = FFin 0.9
               ∧ Gemini.s_confidence s2 = FFin 0.85
               ∧ Gemini.s_pitch s2 = -2 ∧ Gemini.s_speed s2 = FFin 0.95)
          ∧ (Gemini.is_narrator c = false → Gemini.gender c = Some "female" →
             ∃ s1 s2, l = [s1; s2]
               ∧ Gemini.s_confidence s1 = FFin 0.9
               ∧ Gemini.s_confidence s2 = FFin 0.85
               ∧ Gemini.s_pitch s2 = 2 ∧ Gemini.s_speed s2 = FFin 1.05)
          ∧ (Gemini.is_narrator c = false →
             Gemini.gender c ≠ Some "male" → Gemini.gender c ≠ Some "female" →
             ∃ s1, l = [s1] ∧ Gemini.s_confidence s1 = FFin 0.8).
Proof.
  intros Hcs Hnd. eexists. split; [by apply suggest_voices_eq|].
  intros c Hin. eexists. split; [by apply mock_voice_suggestions_lookup|].
  unfold Gemini.suggestions_for, ranked; simpl.
  destruct (Gemini.is_narrator c); simpl.
  { split; [repeat constructor|]. repeat split; try done.
    intros _. by eexists _, _. }
  case_bool_decide as Hm; simpl.
  { split; [repeat constructor|]. repeat split; try done.
    - intros _ _. by eexists _, _.
    - intros _ Hf. congruence. }
  case_bool_decide as Hf; simpl.
  { split; [repeat constructor|]. repeat split; try done.
    intros _ _. by eexists _, _. }
  split; [repeat constructor|]. repeat split; try done.
  intros _ _ _. by eexists.
Qed.

End Recommender.

Lemma suggest_voices_rule_table_witness :
  let cs := [character "Narrator" true None;
             character "Bob" false (Some "male")] in
  ∃ m,
    Gemini.suggest_voices no_provider cs = Ok m
    ∧ (∃ l s1 s2, m !! "Narrator" = Some l ∧ ranked l ∧ l = [s1; s2]
         ∧ Gemini.s_confidence s1 = FFin 0.95
         ∧ Gemini.s_confidence s2 = FFin 0.9
         ∧ Gemini.s_pitch s2 = -1 ∧ Gemini.s_speed s2 = FFin 0.9)
    ∧ (∃ l s1 s2, m !! "Bob" = Some l ∧ ranked l ∧ l = [s1; s2]
         ∧ Gemini.s_confidence s1 = FFin 0.9
         ∧ Gemini.s_confidence s2 = FFin 0.85
         ∧ Gemini.s_pitch s2 = -2 ∧ Gemini.s_speed s2 = FFin 0.95).
Proof.
  intros cs.
  destruct (suggest_voices_rule_table no_provider cs) as (m & Hm & Hc).
  - discriminate.
  - apply (bool_decide_unpack _). exact I.
  - exists m. split; [exact Hm|]. split.
    + destruct (Hc (character "Narrator" true None)) as (l & Hl & Hr & Hn & _).
      { apply list_elem_of_here. }
      destruct (Hn eq_refl) as (s1 & s2 & H). exists l, s1, s2. tauto.
    + destruct (Hc (character "Bob" false (Some "male")))
        as (l & Hl & Hr & _ & Hb & _).
      { apply list_elem_of_further, list_elem_of_here. }
      destruct (Hb eq_refl eq_refl) as (s1 & s2 & H). exists l, s1, s2. tauto.
Defined.

(** ** More on [_process_params] *)

Section ProcessParamsMore.
Implicit Types (params m : gmap string value) (v : value).

(** When [_process_params] returns, and what. *)
Lemma process_params_Ok_iff params m :
  Tts._process_params params = Ok m ↔
    absent_or (passes (-10.0) 10.0) (params !! "pitch") = true
    ∧ absent_or (passes 0.5 2.0) (params !! "speed") = true
    ∧ absent_or is_emotion (params !! "emotion") = true
    ∧ absent_or is_list (params !! "emphasis") = true
    ∧ m = <["emphasis" := default (VList []) (params !! "emphasis")]>
         (<["emotion" := default (VStr "neutral") (params !! "emotion")]>
         (<["speed" := default (VFloat (FFin 1.0)) (params !! "speed")]>
         (<["pitch" := default (VFloat (FFin 0.0)) (params !! "pitch")]>
            (∅ : gmap string value)))).
Proof.
  unfold Tts._process_params, passes.
  destruct (params !! "pitch") as [p|]; simpl.
  all: try (destruct (is_number p); simpl; [|naive_solver];
            destruct (num_lt p _ || num_gt p _); simpl; [naive_solver|]).
  all: destruct (params !! "speed") as [sp|]; simpl.
  all: try (destruct (is_number sp); simpl; [|naive_solver];
            destruct (num_lt sp _ || num_gt sp _); simpl; [naive_solver|]).
  all: destruct (params !! "emotion") as [[| | | |e|]|]; simpl;
    try naive_solver.
  all: try (destruct (bool_decide (e ∈ Tts.valid_emotions)); simpl;
            [|naive_solver]).
  all: destruct (params !! "emphasis") as [[| | | | |l]|]; simpl;
    naive_solver.
Qed.

(** X1.  [_process_params] reads the four keys "pitch", "speed", "emotion"
    and "emphasis" and nothing else: two mappings that agree on these keys
    get the same result, be it the normalized mapping or the error, whatever
    other keys they hold. *)
Theorem process_params_ignores_other_keys params1 params2 :
  (∀ k, k ∈ param_keys → params1 !! k = params2 !! k) →
  Tts._process_params params1 = Tts._process_params params2.
Proof.
  intros H. unfold Tts._process_params.
  rewrite (H "pitch"), (H "speed"), (H "emotion"), (H "emphasis");
    [done|unfold param_keys; set_solver..].
Qed.

Lemma process_params_ignores_other_keys_witness :
  Tts._process_params {[ "speed" := VFloat (FFin 1.5); "volume" := VInt 11 ]}
  = Tts._process_params {[ "speed" := VFloat (FFin 1.5) ]}.
Proof.
  apply process_params_ignores_other_keys.
  intros k Hk. unfold param_keys in Hk.
  repeat (apply elem_of_cons in Hk as [->|Hk]; [reflexivity|]).
  by apply elem_of_nil in Hk.
Defined.

(** X2.  A mapping that [_process_params] returns has exactly the four keys
    "pitch", "speed", "emotion" and "emphasis", and is a fixed point:
    [_process_params] applied to it returns it unchanged. *)
Theorem process_params_idempotent params m :
  Tts._process_params params = Ok m →
  dom m = list_to_set param_keys
  ∧ Tts._process_params m = Ok m.
Proof.
  intros (Hp & Hs & He & Hl & ->)%process_params_Ok_iff. split.
  { rewrite !dom_insert_L, dom_empty_L. unfold param_keys. set_solver. }
  apply process_params_Ok_iff.
  repeat (rewrite lookup_insert_eq || rewrite lookup_insert_ne by done).
  simpl. repeat split.
  - by destruct (params !! "pitch").
  - by destruct (params !! "speed").
  - by destruct (params !! "emotion").
  - by destruct (params !! "emphasis").
Qed.

Lemma process_params_idempotent_witness :
  let params : gmap string value :=
    {[ "pitch" := VInt (-3); "emotion" := VStr "sad"; "volume" := VInt 11 ]} in
  let m : gmap string value :=
    {[ "pitch" := VInt (-3); "speed" := VFloat (FFin 1.0);
       "emotion" := VStr "sad"; "emphasis" := VList [] ]} in
  Tts._process_params params = Ok m
  ∧ dom m = list_to_set param_keys
  ∧ Tts._process_params m = Ok m.
Proof.
  intros params m.
  exact (conj eq_refl (process_params_idempotent params m eq_refl)).
Defined.

Local Ltac value_error_raised :=
  intros [= <-]; eexists; split; [done|set_solver].

(** X3.  [_process_params] raises nothing but [ValueError], and the message
    is one of seven fixed texts, each naming the key it rejects. *)
Theorem process_params_raises_value_error params e :
  Tts._process_params params = Raise e →
  ∃ msg, e = ValueError msg ∧ msg ∈ param_messages.
Proof.
  unfold Tts._process_params, param_messages.
  destruct (params !! "pitch") as [p|]; simpl.
  all: try (destruct (is_number p); simpl; [|value_error_raised];
            destruct (num_lt p _ || num_gt p _); simpl;
            [value_error_raised|]).
  all: destruct (params !! "speed") as [sp|]; simpl.
  all: try (destruct (is_number sp); simpl; [|value_error_raised];
            destruct (num_lt sp _ || num_gt sp _); simpl;
            [value_error_raised|]).
  all: destruct (params !! "emotion") as [[| | | |em|]|]; simpl;
    try value_error_raised.
  all: try (destruct (bool_decide (em ∈ Tts.valid_emotions)); simpl;
            [|value_error_raised]).
  all: destruct (params !! "emphasis") as [[| | | | |l]|]; simpl;
    try done; value_error_raised.
Qed.

Lemma process_params_raises_value_error_witness :
  ∃ msg, ValueError "Emphasis must be a list of words" = ValueError msg
         ∧ msg ∈ param_messages.
Proof.
  exact (process_params_raises_value_error
           {[ "emphasis" := VStr "now" ]}
           (ValueError "Emphasis must be a list of words") eq_refl).
Defined.

End ProcessParamsMore.

(** ** More on [generate_audio] *)

Section GenerateAudioMore.
Variable env : Env.
Implicit Types (w : Tts.World) (params : option (gmap string value)).

Lemma process_params_raise_class (ps : gmap string value) e :
  Tts._process_params ps = Raise e → ∃ msg, e = ValueError msg.
Proof.
  unfold Tts._process_params.
  destruct (ps !! "pitch") as [p|]; simpl.
  all: try (destruct (is_number p); simpl; [|intros [= <-]; by eexists];
            destruct (num_lt p _ || num_gt p _); simpl;
            [intros [= <-]; by eexists|]).
  all: destruct (ps !! "speed") as [sp|]; simpl.
  all: try (destruct (is_number sp); simpl; [|intros [= <-]; by eexists];
            destruct (num_lt sp _ || num_gt sp _); simpl;
            [intros [= <-]; by eexists|]).
  all: destruct (ps !! "emotion") as [[| | | |em|]|]; simpl;
    try (intros [= <-]; by eexists).
  all: try (destruct (bool_decide (em ∈ Tts.valid_emotions)); simpl;
            [|intros [= <-]; by eexists]).
  all: destruct (ps !! "emphasis") as [[| | | | |l]|]; simpl;
    try done; intros [= <-]; by eexists.
Qed.

(** A speed that passed the range check is NaN or lies between 0.5 and 2. *)
Lemma passes_speed v :
  passes 0.5 2.0 v = true →
  to_float v = Some FNaN
  ∨ ∃ q, to_float v = Some (FFin q) ∧ (0.5 <= q)%Q ∧ (q <= 2.0)%Q.
Proof.
  unfold passes. rewrite andb_true_iff, negb_true_iff. intros [Hn Hr].
  exact (range_check_passed _ _ _ Hn Hr).
Qed.

(** The four ways the [try] block of [generate_audio] can end, for a text
    that passed the length check: the parameters are rejected; the audio
    file cannot be opened; it is opened, and so created or emptied, and
    writing it fails; or the call returns. *)
Lemma generate_audio_body_cases text vid (params : gmap string value) w :
  len text ≤ 10000 →
  (∃ e, Tts._process_params params = Raise e
        ∧ Tts.generate_audio_body env text vid params w = (Raise e, w))
  ∨ (∃ m msg, Tts._process_params params = Ok m
        ∧ open_w env (audio_path env text vid) = Some msg
        ∧ Tts.generate_audio_body env text vid params w = (Raise (OSError msg), w))
  ∨ (∃ m msg n, Tts._process_params params = Ok m
        ∧ open_w env (audio_path env text vid) = None
        ∧ write_w env (audio_path env text vid) "Mock audio data" = Some (msg, n)
        ∧ Tts.generate_audio_body env text vid params w
          = (Raise (OSError msg),
             {| Tts.self := Tts.self w;
                Tts.files :=
                  <[audio_path env text vid
                    := String.substring 0 n "Mock audio data"]> (Tts.files w) |}))
  ∨ (∃ m a, Tts._process_params params = Ok m
        ∧ open_w env (audio_path env text vid) = None
        ∧ write_w env (audio_path env text vid) "Mock audio data" = None
        ∧ Tts.generate_audio_body env text vid params w
          = (Ok a, {| Tts.self := Tts.self w;
                      Tts.files := <[audio_path env text vid := "Mock audio data"]>
                                     (Tts.files w) |})
        ∧ Tts.file_path a = audio_path env text vid
        ∧ Tts.format a = "mp3" ∧ Tts.sample_rate a = 24000
        ∧ Tts.text_length a = len text ∧ Tts.voice_id a = vid
        ∧ Tts.parameters a = m).
Proof.
  intros Hlen. unfold Tts.generate_audio_body, Tts.write_file.
  fold (audio_path env text vid).
  destruct (Tts._process_params params) as [m|e] eqn:Hm; [|left; eauto].
  right. destruct (open_w env _) as [msg|] eqn:Ho; [left; by eauto|].
  right. destruct (write_w env _ _) as [[msg n]|] eqn:Hw; [left; by eauto 10|].
  right. apply process_params_Ok_iff in Hm as Hm'.
  destruct Hm' as (_ & Hs & _ & _ & Heq).
  assert (m !! "speed" = Some (default (VFloat (FFin 1.0)) (params !! "speed")))
    as Hlk by (rewrite Heq; by simplify_map_eq).
  rewrite Hlk. cbn [default from_option id].
  assert (passes 0.5 2.0 (default (VFloat (FFin 1.0)) (params !! "speed")) = true)
    as Hpass by (by destruct (params !! "speed")).
  destruct (truediv_words (word_count text)) as (x & Hx & _).
  { pose proof (word_count_le text). lia. }
  unfold word_count in Hx. rewrite Hx.
  destruct (passes_speed _ Hpass) as [Hf|(q & Hf & Hlo & Hhi)].
  - rewrite (truediv_nan _ Hf). eexists m, _. by repeat split.
  - destruct (truediv_speed _ q Hf Hlo Hhi) as (s' & y & _ & _ & -> & _).
    eexists m, _. by repeat split.
Qed.

(** X4.  [generate_audio] touches no file but the audio file of the call.
    A call that returns has written that file, whose path it returns, with
    the mock content.  A call that raises has left all files as they were,
    unless [open] succeeded and writing failed: then the call raises
    [TTSProcessingError] with the text of that error, and the audio file
    has been created or emptied and holds some first characters of the mock
    content.  In particular a call that raises [ValueError], or whose
    parameters are rejected, or whose audio file cannot be opened, changes
    no file. *)
Theorem generate_audio_files text vid params w :
  let r := Tts.generate_audio env text vid params w in
  let path := audio_path env text vid in
  (∀ p, p ≠ path → Tts.files r.2 !! p = Tts.files w !! p)
  ∧ match r.1 with
    | Ok a =>
        Tts.file_path a = path
        ∧ Tts.files r.2 = <[path := "Mock audio data"]> (Tts.files w)
    | Raise e =>
        Tts.files r.2 = Tts.files w
        ∨ ∃ m msg n,
            Tts._process_params (default ∅ params) = Ok m
            ∧ open_w env path = None
            ∧ write_w env path "Mock audio data" = Some (msg, n)
            ∧ e = TTSProcessingError ("Failed to generate audio: " +:+ msg)
            ∧ Tts.files r.2
              = <[path := String.substring 0 n "Mock audio data"]> (Tts.files w)
    end.
Proof.
  intros r path. unfold r, Tts.generate_audio.
  repeat (case_bool_decide; [split; [done|by left]|]).
  destruct (10000 <? len text) eqn:Hlen; [split; [done|by left]|].
  apply Z.ltb_ge in Hlen.
  rewrite ensure_model_loaded_eq; simpl.
  destruct (negb (Tts.voice_exists _ _)); [split; [done|by left]|].
  destruct (generate_audio_body_cases text vid (default ∅ params)
              (Tts.set_self w (loaded (Tts.self w))) Hlen)
    as [(e & _ & ->)|[(m & msg & _ & _ & ->)
       |[(m & msg & n & Hm & Ho & Hw & ->)|(m & a & _ & _ & _ & -> & Hp & _)]]];
    simpl.
  - split; [done|by left].
  - split; [done|by left].
  - split.
    + intros p Hp. by rewrite lookup_insert_ne.
    + right. by exists m, msg, n.
  - split.
    + intros p Hp'. by rewrite lookup_insert_ne.
    + done.
Qed.

(** X5.  With a text of 1 to 10,000 characters, a non-empty voice id that
    the loaded catalog holds, parameters that [_process_params] accepts and
    an audio file that can be opened and written, [generate_audio] returns:
    the result
    echoes the voice id and the normalized parameters, and gives the length
    of the text, the format "mp3" and the sample rate 24000. *)
Theorem generate_audio_succeeds text vid params w m :
  text ≠ "" → len text ≤ 10000 → vid ≠ "" →
  vid ∈ voice_ids (loaded (Tts.self w)) →
  Tts._process_params (default ∅ params) = Ok m →
  open_w env (audio_path env text vid) = None →
  write_w env (audio_path env text vid) "Mock audio data" = None →
  ∃ a w',
    Tts.generate_audio env text vid params w = (Ok a, w')
    ∧ Tts.voice_id a = vid ∧ Tts.parameters a = m
    ∧ Tts.text_length a = len text
    ∧ Tts.format a = "mp3" ∧ Tts.sample_rate a = 24000
    ∧ Tts.file_path a = audio_path env text vid
    ∧ Tts.self w' = loaded (Tts.self w).
Proof.
  intros Ht Hl Hne Hv Hm Ho Hw. rewrite generate_audio_past_gates by done.
  destruct (generate_audio_body_cases text vid (default ∅ params)
              (Tts.set_self w (loaded (Tts.self w))) Hl)
    as [(e & He & _)|[(m' & msg & _ & Ho' & _)
       |[(m' & msg & n & _ & _ & Hw' & _)|(m' & a & Hm' & _ & _ & -> & H)]]].
  - congruence.
  - congruence.
  - congruence.
  - rewrite Hm in Hm'. injection Hm' as <-. simpl.
    exists a. eexists. split; [done|]. simpl. tauto.
Qed.

(** X6.  [generate_audio] raises [ValueError] exactly for an empty text, an
    empty voice id, a text of more than 10,000 characters or a voice id the
    loaded catalog does not hold; every other failure, rejected parameters
    or an audio file that cannot be opened or written, is a
    [TTSProcessingError] whose
    message is "Failed to generate audio: " followed by the text of the
    error caught.  No other exception class is raised. *)
Theorem generate_audio_error_classes text vid params w e :
  (Tts.generate_audio env text vid params w).1 = Raise e →
  (∃ msg, e = ValueError msg
     ∧ (text = "" ∨ vid = "" ∨ 10000 < len text
        ∨ vid ∉ voice_ids (loaded (Tts.self w))))
  ∨ (∃ msg, e = TTSProcessingError ("Failed to generate audio: " +:+ msg)
       ∧ text ≠ "" ∧ vid ≠ "" ∧ len text ≤ 10000
       ∧ vid ∈ voice_ids (loaded (Tts.self w))
       ∧ (Tts._process_params (default ∅ params) = Raise (ValueError msg)
          ∨ open_w env (audio_path env text vid) = Some msg
          ∨ (open_w env (audio_path env text vid) = None
             ∧ ∃ n, write_w env (audio_path env text vid) "Mock audio data"
                    = Some (msg, n)))).
Proof.
  unfold Tts.generate_audio.
  case_bool_decide as Ht; [intros [= <-]; left; eauto|].
  case_bool_decide as Hv; [intros [= <-]; left; eauto|].
  destruct (10000 <? len text) eqn:Hl.
  { apply Z.ltb_lt in Hl. intros [= <-]; left; eauto 6. }
  apply Z.ltb_ge in Hl.
  rewrite ensure_model_loaded_eq; simpl.
  destruct (Tts.voice_exists _ _) eqn:Hex; simpl.
  2: { intros [= <-]. left. eexists. split; [done|]. do 3 right.
       unfold voice_ids. rewrite <-voice_exists_elem_of. by rewrite Hex. }
  apply voice_exists_elem_of in Hex.
  destruct (generate_audio_body_cases text vid (default ∅ params)
              (Tts.set_self w (loaded (Tts.self w))) Hl)
    as [(e' & He & ->)|[(m & msg & _ & Ho & ->)
       |[(m & msg & n & _ & Ho & Hw & ->)|(m & a & _ & _ & _ & -> & _)]]];
    simpl; [| | |done].
  - intros [= <-]. right.
    destruct (process_params_raise_class _ _ He) as [msg ->].
    exists msg. simpl. repeat (split; [done|]). by left.
  - intros [= <-]. right. exists msg. simpl. repeat (split; [done|]).
    right. by left.
  - intros [= <-]. right. exists msg. simpl. repeat (split; [done|]).
    right. right. eauto.
Qed.

End GenerateAudioMore.

Section DurationBounds.
Variable env : Env.

(** X7.  The duration a successful [generate_audio] call returns is NaN
    only when the speed that passed validation is NaN.  Otherwise it is a
    float that is not negative and lies between half and twice the float
    nearest to [words / 150], the duration for the speed 1.0, where [words]
    is the number of words of the text: the speeds 0.5 to 2.0 stretch or
    shrink the duration by at most two. *)
Theorem generate_audio_duration_bounds text vid params w a w' :
  Tts.generate_audio env text vid params w = (Ok a, w') →
  ∃ base,
    round64 (inject_Z (word_count text) / 150) = FFin base
    ∧ (0 <= base)%Q
    ∧ ((Tts.duration a = FNaN
        ∧ ∃ v, Tts.parameters a !! "speed" = Some v ∧ to_float v = Some FNaN)
       ∨ ∃ d, Tts.duration a = FFin d
              ∧ (base / 2 <= d)%Q ∧ (d <= 2 * base)%Q).
Proof.
  intros Hok.
  apply generate_audio_ok_inv in Hok
    as (m & x & y & Hm & Hx & Hy & Hd & _ & Hp & Hlen).
  apply process_params_Ok_iff in Hm as (_ & Hs & _ & _ & Heq).
  set (speed := default (VFloat (FFin 1.0)) (default ∅ params !! "speed")) in *.
  assert (m !! "speed" = Some speed) as Hlk by (rewrite Heq; by simplify_map_eq).
  assert (passes 0.5 2.0 speed = true) as Hpass.
  { unfold speed. by destruct (default ∅ params !! "speed"). }
  rewrite Hlk in Hy. cbn [default from_option id] in Hy.
  destruct (truediv_words (word_count text))
    as (base & Hx' & Hbase & Hr & H0 & H128 & Hmin).
  { pose proof (word_count_le text). lia. }
  assert (x = FFin base) as -> by congruence.
  exists base. split; [done|]. split; [done|]. rewrite Hd, Hp.
  destruct (passes_speed _ Hpass) as [Hf|(q & Hf & Hlo & Hhi)].
  - left. rewrite (truediv_nan _ Hf) in Hy. injection Hy as <-.
    split; [|by eauto]. unfold float_mul. by destruct (as_double (FFin base)).
  - right.
    destruct (truediv_speed _ q Hf Hlo Hhi)
      as (s & r & _ & _ & Hy' & Hrr & Hr1 & Hr2 & _).
    assert (y = FFin r) as -> by congruence.
    destruct (float_mul_scaled base r) as (d & Hmul & _ & Hd1 & Hd2); try done.
    { destruct (Z_le_gt_dec 1 (word_count text)) as [Hw|Hw]; [left; auto|right].
      assert (word_count text = 0) as Hw0
        by (pose proof (word_count_le text); lia).
      rewrite Hw0 in Hbase. by injection Hbase as <-. }
    exists d. by rewrite Hmul.
Qed.

End DurationBounds.

Section GenerateAudioState.
Variable env : Env.

(** X8.  The only thing [generate_audio] does to the service is to load the
    model: after a call with an empty text, an empty voice id or a text of
    more than 10,000 characters the service is as it was, and after any
    other call, successful or not, it is the loaded service.  The catalog of
    a loaded service is never changed. *)
Theorem generate_audio_service_state text vid params w :
  Tts.self (Tts.generate_audio env text vid params w).2
  = (if bool_decide (text = "" ∨ vid = "" ∨ 10000 < len text)
     then Tts.self w else loaded (Tts.self w))
  ∧ (Tts.initialized (Tts.self w) = true →
     Tts.self (Tts.generate_audio env text vid params w).2 = Tts.self w).
Proof.
  assert (Tts.self (Tts.generate_audio env text vid params w).2
          = (if bool_decide (text = "" ∨ vid = "" ∨ 10000 < len text)
             then Tts.self w else loaded (Tts.self w))) as Heq.
  { unfold Tts.generate_audio.
    case_bool_decide as Ht; [by rewrite bool_decide_eq_true_2 by auto|].
    case_bool_decide as Hv; [by rewrite bool_decide_eq_true_2 by auto|].
    destruct (10000 <? len text) eqn:Hl.
    { apply Z.ltb_lt in Hl. by rewrite bool_decide_eq_true_2 by auto. }
    apply Z.ltb_ge in Hl.
    rewrite bool_decide_eq_false_2 by (intros [?|[?|?]]; [done..|lia]).
    rewrite ensure_model_loaded_eq; simpl.
    destruct (negb (Tts.voice_exists _ _)); [done|].
    destruct (generate_audio_body_cases env text vid (default ∅ params)
                (Tts.set_self w (loaded (Tts.self w))) Hl)
      as [(e & _ & ->)|[(m & msg & _ & _ & ->)
         |[(m & msg & n & _ & _ & _ & ->)|(m & a & _ & _ & _ & -> & _)]]];
      done. }
  split; [done|]. intros Hi. rewrite Heq. unfold loaded. rewrite Hi.
  by case_bool_decide.
Qed.

End GenerateAudioState.

Lemma generate_audio_service_state_witness :
  let w := fresh_world example_env None in
  Tts.initialized (Tts.self w) = false
  ∧ Tts.self (Tts.generate_audio example_env "" "voice_1" None w).2 = Tts.self w
  ∧ Tts.self (Tts.generate_audio example_env "Hello" "voice_9" None w).2
    = loaded (Tts.self w)
  ∧ Tts.self (Tts.generate_audio example_env "Hello" "voice_9" None
                (Tts.generate_audio example_env "Hello" "voice_1" None w).2).2
    = loaded (Tts.self w).
Proof.
  intros w. split; [reflexivity|]. split; [|split].
  - exact (proj1 (generate_audio_service_state example_env "" "voice_1" None w)).
  - exact (proj1 (generate_audio_service_state example_env "Hello" "voice_9" None w)).
  - exact (proj2 (generate_audio_service_state example_env "Hello" "voice_9" None
                    (Tts.generate_audio example_env "Hello" "voice_1" None w).2)
             eq_refl).
Defined.

Lemma generate_audio_files_witness :
  let w := fresh_world full_disk_env None in
  let r := Tts.generate_audio full_disk_env "Hello" "voice_1" None w in
  let path := "/tmp/kokoro_tts_voice_1_5.mp3" in
  r.1 = Raise (TTSProcessingError
          "Failed to generate audio: [Errno 28] No space left on device")
  ∧ Tts.files r.2 = {[ path := "" ]}
  ∧ ∀ p, p ≠ path → Tts.files r.2 !! p = Tts.files w !! p.
Proof.
  intros w r path.
  split; [vm_compute; reflexivity|]. split; [vm_compute; reflexivity|].
  exact (proj1 (generate_audio_files full_disk_env "Hello" "voice_1" None w)).
Defined.

Lemma generate_audio_succeeds_witness :
  ∃ a w',
    Tts.generate_audio example_env "Hello world" "voice_2"
      (Some {[ "pitch" := VInt 2 ]}) (fresh_world example_env None)
    = (Ok a, w')
    ∧ Tts.voice_id a = "voice_2"
    ∧ Tts.parameters a
      = {[ "pitch" := VInt 2; "speed" := VFloat (FFin 1.0);
           "emotion" := VStr "neutral"; "emphasis" := VList [] ]}
    ∧ Tts.text_length a = 11
    ∧ Tts.format a = "mp3" ∧ Tts.sample_rate a = 24000
    ∧ Tts.file_path a = "/tmp/kokoro_tts_voice_2_11.mp3"
    ∧ Tts.self w' = loaded (Tts.self (fresh_world example_env None)).
Proof.
  apply (generate_audio_succeeds example_env "Hello world" "voice_2"
           (Some {[ "pitch" := VInt 2 ]}) (fresh_world example_env None)).
  - discriminate.
  - vm_compute. discriminate.
  - discriminate.
  - apply list_elem_of_further, list_elem_of_here.
  - reflexivity.
  - reflexivity.
  - reflexivity.
Defined.

Lemma generate_audio_error_classes_witness :
  (∃ msg, ValueError "Text must be a non-empty string" = ValueError msg
     ∧ ("" = "" ∨ "voice_1" = "" ∨ 10000 < len ""
        ∨ "voice_1" ∉ voice_ids (loaded (Tts.self (fresh_world example_env None)))))
  ∨ (∃ msg, ValueError "Text must be a non-empty string"
            = TTSProcessingError ("Failed to generate audio: " +:+ msg)
       ∧ "" ≠ "" ∧ "voice_1" ≠ "" ∧ len "" ≤ 10000
       ∧ "voice_1" ∈ voice_ids (loaded (Tts.self (fresh_world example_env None)))
       ∧ (Tts._process_params (default ∅ None) = Raise (ValueError msg)
          ∨ open_w example_env (audio_path example_env "" "voice_1") = Some msg
          ∨ (open_w example_env (audio_path example_env "" "voice_1") = None
             ∧ ∃ n, write_w example_env (audio_path example_env "" "voice_1")
                      "Mock audio data" = Some (msg, n)))).
Proof.
  exact (generate_audio_error_classes example_env "" "voice_1" None
           (fresh_world example_env None)
           (ValueError "Text must be a non-empty string") eq_refl).
Defined.

Lemma generate_audio_duration_bounds_witness :
  ∃ a w',
    Tts.generate_audio example_env "one two three" "voice_1"
      (Some {[ "speed" := VFloat (FFin 2.0) ]}) (fresh_world example_env None)
    = (Ok a, w')
    ∧ ∃ base,
        round64 (inject_Z (word_count "one two three") / 150) = FFin base
        ∧ (0 <= base)%Q
        ∧ ((Tts.duration a = FNaN
            ∧ ∃ v, Tts.parameters a !! "speed" = Some v
                   ∧ to_float v = Some FNaN)
           ∨ ∃ d, Tts.duration a = FFin d
                  ∧ (base / 2 <= d)%Q ∧ (d <= 2 * base)%Q).
Proof.
  eexists _, _. split; [vm_compute; reflexivity|].
  eapply (generate_audio_duration_bounds example_env "one two three" "voice_1"
            (Some {[ "speed" := VFloat (FFin 2.0) ]})
            (fresh_world example_env None)).
  vm_compute; reflexivity.
Defined.

(** ** More on the voice catalog *)

Section CatalogMore.
Variable env : Env.
Implicit Types (s : Tts.KokoroTTSService) (w : Tts.World).

Lemma loaded_initialized s : Tts.initialized (loaded s) = true.
Proof. unfold loaded. by destruct (Tts.initialized s) eqn:Hi. Qed.

Lemma loaded_loaded s : loaded (loaded s) = loaded s.
Proof. unfold loaded at 1. by rewrite loaded_initialized. Qed.

Lemma loaded_voices s :
  catalog_inv s →
  ∃ customs, Tts.available_voices (loaded s) = builtin_voices ++ customs.
Proof.
  intros [Hinv Hi]%catalog_inv_loaded. unfold catalog_inv in Hinv.
  rewrite Hi in Hinv. destruct Hinv as (customs & Hv & _). by exists customs.
Qed.

(** The two ways a [customize_voice] call can end. *)
Lemma customize_voice_cases w vid customizations :
  (∃ msg w',
     Tts.customize_voice env vid customizations w = (Raise (ValueError msg), w')
     ∧ (w' = w ∨ w' = Tts.set_self w (loaded (Tts.self w)))
     ∧ (vid = "" ∨ customizations = ∅ ∨ vid ∉ voice_ids (loaded (Tts.self w))))
  ∨ (∃ base new_voice,
       vid ≠ "" ∧ customizations ≠ ∅
       ∧ base ∈ Tts.available_voices (loaded (Tts.self w))
       ∧ Tts.v_id base = vid
       ∧ new_voice
         = {| Tts.v_id := "custom_" +:+ vid +:+ "_"
                +:+ pretty (Z.of_nat (length (Tts.available_voices
                                                (loaded (Tts.self w)))) + 1);
              Tts.v_name :=
                default (VStr ("Customized " +:+ str env (Tts.v_name base)))
                        (customizations !! "name");
              Tts.v_gender := Tts.v_gender base;
              Tts.v_language := Tts.v_language base;
              Tts.v_is_custom := Some true;
              Tts.v_base_voice_id := Some vid;
              Tts.v_customizations := Some customizations |}
       ∧ Tts.customize_voice env vid customizations w
         = (Ok (Tts.v_id new_voice),
            Tts.set_self w
              {| Tts.model_path := Tts.model_path (loaded (Tts.self w));
                 Tts.initialized := Tts.initialized (loaded (Tts.self w));
                 Tts.available_voices :=
                   Tts.available_voices (loaded (Tts.self w)) ++ [new_voice];
                 Tts.model := Tts.model (loaded (Tts.self w)) |})).
Proof.
  destruct (decide (vid = "" ∨ customizations = ∅
                    ∨ vid ∉ voice_ids (loaded (Tts.self w)))) as [Hr|Hok].
  - left. destruct (customize_voice_rejected env w vid customizations Hr)
      as (msg & w' & ? & ?). by exists msg, w'.
  - right.
    assert (vid ≠ "" ∧ customizations ≠ ∅
            ∧ vid ∈ voice_ids (loaded (Tts.self w))) as (H1 & H2 & H3).
    { repeat split; [intros ?|intros ?|apply dec_stable; intros ?];
        apply Hok; auto. }
    destruct (customize_voice_ok env w vid customizations H1 H2 H3)
      as (base & nv & ? & ? & ? & ?). by exists base, nv.
Qed.

(** X9.  On every world reached from a new service [get_available_voices]
    returns, never raises, and writes no file; the list it returns starts
    with the four built-in voices, and a second call returns the same list
    and changes nothing. *)
Theorem get_available_voices_stable w :
  reachable env w →
  ∃ customs w',
    Tts.get_available_voices w = (Ok (builtin_voices ++ customs), w')
    ∧ Tts.files w' = Tts.files w
    ∧ Tts.get_available_voices w' = (Ok (builtin_voices ++ customs), w').
Proof.
  intros Hw%reachable_inv. unfold Tts.get_available_voices.
  rewrite ensure_model_loaded_eq. simpl.
  destruct (loaded_voices _ Hw) as [customs Hv].
  exists customs. eexists. split; [by rewrite Hv|]. split; [done|].
  rewrite ensure_model_loaded_eq. simpl. rewrite loaded_loaded, Hv.
  unfold Tts.set_self. simpl. done.
Qed.

(** X11.  A [customize_voice] call that fails raises [ValueError], for an
    empty voice id, empty customizations or a base id the loaded catalog
    does not hold, and adds no voice: the service is as it was or is the
    loaded service, and no file is written. *)
Theorem customize_voice_failure w vid customizations e w' :
  Tts.customize_voice env vid customizations w = (Raise e, w') →
  (∃ msg, e = ValueError msg)
  ∧ (vid = "" ∨ customizations = ∅ ∨ vid ∉ voice_ids (loaded (Tts.self w)))
  ∧ (Tts.self w' = Tts.self w ∨ Tts.self w' = loaded (Tts.self w))
  ∧ Tts.files w' = Tts.files w.
Proof.
  destruct (customize_voice_cases w vid customizations)
    as [(msg & w1 & -> & Hw & Hc)|(base & nv & _ & _ & _ & _ & _ & ->)];
    [|done].
  intros [= <- <-]. split; [by eexists|]. split; [done|].
  destruct Hw as [-> | ->]; simpl; auto.
Qed.

Lemma voice_wf_builtin : voice_wf builtin_voices.
Proof.
  intros i v Hi. destruct i as [|[|[|[|i]]]]; simpl in Hi;
    [injection Hi as <-; simpl; split; [done|]; split; [auto|]; split; [lia|done]..
    |done].
Qed.

Lemma voice_wf_nil : voice_wf [].
Proof. intros i v Hi. by rewrite lookup_nil in Hi. Qed.

Lemma voice_wf_append voices base new_voice c :
  voice_wf voices → (4 ≤ length voices)%nat → base ∈ voices →
  Tts.v_gender new_voice = Tts.v_gender base →
  Tts.v_language new_voice = Tts.v_language base →
  Tts.v_is_custom new_voice = Some true →
  Tts.v_base_voice_id new_voice = Some (Tts.v_id base) →
  Tts.v_customizations new_voice = Some c →
  voice_wf (voices ++ [new_voice]).
Proof.
  intros Hwf Hlen Hb Hg Hl Hc Hbase Hcust i v Hi.
  apply lookup_app_Some in Hi as [Hi|[Hge Hi]].
  - destruct (Hwf i v Hi) as (H1 & H2 & H3). split; [done|]. split; [done|].
    destruct (Tts.v_base_voice_id v) as [b|]; [|done].
    destruct H3 as (? & ? & ? & j & base' & ? & Hj & ?).
    repeat (split; [done|]). exists j, base'. split; [done|].
    split; [by apply lookup_app_l_Some|done].
  - apply list_lookup_singleton_Some in Hi as [Hi <-].
    apply list_elem_of_lookup in Hb as [j Hj].
    destruct (Hwf j base Hj) as (H1 & H2 & _).
    rewrite Hl, Hg, Hbase, Hc, Hcust. repeat (split; [done|]).
    split; [lia|]. split; [done|]. split; [done|].
    exists j, base. apply lookup_lt_Some in Hj as Hlt.
    split; [lia|]. split; [by apply lookup_app_l_Some|done].
Qed.

Lemma voice_wf_loaded s :
  catalog_inv s → voice_wf (Tts.available_voices s) →
  voice_wf (Tts.available_voices (loaded s)).
Proof.
  intros Hinv Hwf. unfold loaded.
  destruct (Tts.initialized s); [done|]. apply voice_wf_builtin.
Qed.

(** X12.  In every catalog reached from a new service each profile has the
    language "en-US" and the gender "female" or "male"; the first four are
    the built-in ones, without custom keys; every later one is flagged
    custom, keeps its customizations, and its [base_voice_id] is the id of
    a profile that stands before it in the catalog and has the same gender
    and language. *)
Theorem catalog_well_formed w :
  reachable env w → voice_wf (Tts.available_voices (Tts.self w)).
Proof.
  induction 1 as [mp|w text vid params Hw IH|w Hw IH|w vid c Hw IH].
  - unfold fresh_world, Tts.__init__; simpl.
    destruct (negb (path_exists env _)); [apply voice_wf_nil|apply voice_wf_builtin].
  - apply reachable_inv in Hw.
    destruct (generate_audio_self env text vid params w) as [-> | ->];
      [done|by apply voice_wf_loaded].
  - apply reachable_inv in Hw.
    unfold Tts.get_available_voices. rewrite ensure_model_loaded_eq. simpl.
    by apply voice_wf_loaded.
  - apply reachable_inv in Hw.
    destruct (customize_voice_cases w vid c)
      as [(msg & w1 & -> & [-> | ->] & _)
         |(base & nv & _ & _ & Hb & Hid & Hnv & ->)]; simpl.
    + done.
    + by apply voice_wf_loaded.
    + destruct (loaded_voices _ Hw) as [customs Hv].
      apply (voice_wf_append _ base nv c); try done; try (by rewrite Hnv).
      * by apply voice_wf_loaded.
      * rewrite Hv, length_app. simpl. lia.
      * rewrite Hnv. simpl. by rewrite Hid.
Qed.

Lemma customize_voice_ok_inv w vid customizations new_id w1 :
  Tts.customize_voice env vid customizations w = (Ok new_id, w1) →
  ∃ base new_voice,
    vid ≠ "" ∧ customizations ≠ ∅
    ∧ base ∈ Tts.available_voices (loaded (Tts.self w)) ∧ Tts.v_id base = vid
    ∧ new_id = "custom_" +:+ vid +:+ "_"
        +:+ pretty (Z.of_nat (length (Tts.available_voices
                                        (loaded (Tts.self w)))) + 1)
    ∧ Tts.v_id new_voice = new_id
    ∧ Tts.v_name new_voice
      = default (VStr ("Customized " +:+ str env (Tts.v_name base)))
                (customizations !! "name")
    ∧ Tts.v_base_voice_id new_voice = Some vid
    ∧ Tts.v_customizations new_voice = Some customizations
    ∧ Tts.initialized (Tts.self w1) = true
    ∧ Tts.available_voices (Tts.self w1)
      = Tts.available_voices (loaded (Tts.self w)) ++ [new_voice]
    ∧ Tts.files w1 = Tts.files w.
Proof.
  destruct (customize_voice_cases w vid customizations)
    as [(msg & w' & -> & _)|(base & nv & H1 & H2 & Hb & Hid & Hnv & ->)];
    [done|].
  intros [= <- <-]. exists base, nv. simpl. rewrite loaded_initialized.
  rewrite Hnv. simpl. done.
Qed.

(** X10.  A voice that [customize_voice] has just created can be used at
    once: with a text of 1 to 10,000 characters, parameters that
    [_process_params] accepts and an audio file that can be opened and
    written, [generate_audio] with the returned id returns, echoes that id, and
    leaves the catalog as [customize_voice] left it. *)
Theorem customized_voice_usable w vid customizations new_id w1 text params m :
  Tts.customize_voice env vid customizations w = (Ok new_id, w1) →
  text ≠ "" → len text ≤ 10000 →
  Tts._process_params (default ∅ params) = Ok m →
  open_w env (audio_path env text new_id) = None →
  write_w env (audio_path env text new_id) "Mock audio data" = None →
  ∃ a w2,
    Tts.generate_audio env text new_id params w1 = (Ok a, w2)
    ∧ Tts.voice_id a = new_id ∧ Tts.parameters a = m
    ∧ Tts.self w2 = Tts.self w1.
Proof.
  intros Hc Ht Hl Hm Ho Hw.
  destruct (customize_voice_ok_inv _ _ _ _ _ Hc)
    as (base & nv & _ & _ & _ & _ & Hid & Hnv & _ & _ & _ & Hi & Hv & _).
  assert (loaded (Tts.self w1) = Tts.self w1) as Hload.
  { unfold loaded. by rewrite Hi. }
  assert (new_id ≠ "") as Hne by (by rewrite Hid).
  assert (new_id ∈ voice_ids (loaded (Tts.self w1))) as Hin.
  { rewrite Hload. unfold voice_ids. rewrite Hv, fmap_app, <-Hnv. set_solver. }
  rewrite generate_audio_past_gates by done.
  destruct (generate_audio_body_cases env text new_id (default ∅ params)
              (Tts.set_self w1 (loaded (Tts.self w1))) Hl)
    as [(e & He & _)|[(m' & msg & _ & Ho' & _)
       |[(m' & msg & n & _ & _ & Hw' & _)|(m' & a & Hm' & _ & _ & -> & H)]]].
  - congruence.
  - congruence.
  - congruence.
  - rewrite Hm in Hm'. injection Hm' as <-.
    exists a. eexists. split; [done|]. simpl. rewrite Hload. tauto.
Qed.

(** X13.  What [customize_voice] stores can be read back: after a successful
    call [get_available_voices] returns a catalog whose last profile has the
    returned id, the base id and the customizations exactly as passed, and
    the name given under "name" when there is one.  The id is "custom_",
    the base id, "_" and the new size of the catalog, and no file is
    written. *)
Theorem customize_voice_read_back w vid customizations new_id w1 :
  Tts.customize_voice env vid customizations w = (Ok new_id, w1) →
  ∃ voices new_voice,
    Tts.get_available_voices w1 = (Ok voices, w1)
    ∧ last voices = Some new_voice
    ∧ Tts.v_id new_voice = new_id
    ∧ new_id = "custom_" +:+ vid +:+ "_" +:+ pretty (Z.of_nat (length voices))
    ∧ Tts.v_base_voice_id new_voice = Some vid
    ∧ Tts.v_customizations new_voice = Some customizations
    ∧ (∀ n, customizations !! "name" = Some n → Tts.v_name new_voice = n)
    ∧ Tts.files w1 = Tts.files w.
Proof.
  intros Hc.
  destruct (customize_voice_ok_inv _ _ _ _ _ Hc)
    as (base & nv & _ & _ & _ & _ & Hid & Hnv & Hname & Hb & Hcu & Hi & Hv & Hf).
  exists (Tts.available_voices (Tts.self w1)), nv.
  split.
  { unfold Tts.get_available_voices. rewrite ensure_model_loaded_eq.
    unfold loaded. rewrite Hi. by destruct w1. }
  rewrite Hv at 1. rewrite last_snoc. split; [done|]. split; [done|].
  split.
  { rewrite Hid, Hv, length_app. simpl. do 4 f_equal. lia. }
  repeat (split; [done|]). split; [|done].
  intros n Hn. by rewrite Hname, Hn.
Qed.

End CatalogMore.

Lemma get_available_voices_stable_witness :
  ∃ customs w',
    Tts.get_available_voices (fresh_world example_env None)
    = (Ok (builtin_voices ++ customs), w')
    ∧ Tts.files w' = Tts.files (fresh_world example_env None)
    ∧ Tts.get_available_voices w' = (Ok (builtin_voices ++ customs), w').
Proof.
  exact (get_available_voices_stable example_env (fresh_world example_env None)
           (reach_init example_env None)).
Defined.

Lemma customize_voice_failure_witness :
  let w := fresh_world example_env None in
  let e := ValueError "Base voice ID 'voice_9' not found. Available voices: ['voice_1', 'voice_2', 'voice_3', 'voice_4']" in
  let w' := Tts.set_self w (loaded (Tts.self w)) in
  Tts.customize_voice example_env "voice_9" {[ "name" := VStr "Deep" ]} w
  = (Raise e, w')
  ∧ (∃ msg, e = ValueError msg)
  ∧ ("voice_9" = "" ∨ ({[ "name" := VStr "Deep" ]} : gmap string value) = ∅
     ∨ "voice_9" ∉ voice_ids (loaded (Tts.self w)))
  ∧ (Tts.self w' = Tts.self w ∨ Tts.self w' = loaded (Tts.self w))
  ∧ Tts.files w' = Tts.files w.
Proof.
  intros w e w'.
  exact (conj eq_refl
           (customize_voice_failure example_env w "voice_9"
              {[ "name" := VStr "Deep" ]} e w' eq_refl)).
Defined.

Lemma catalog_well_formed_witness :
  let w := customize_all example_env
             [("voice_2", {[ "name" := VStr "Deep" ]});
              ("custom_voice_2_5", {[ "timbre" := VInt 1 ]})]
             (fresh_world example_env None) in
  reachable example_env w
  ∧ voice_ids (Tts.self w)
    = ["voice_1"; "voice_2"; "voice_3"; "voice_4";
       "custom_voice_2_5"; "custom_custom_voice_2_5_6"]
  ∧ voice_wf (Tts.available_voices (Tts.self w)).
Proof.
  intros w.
  assert (reachable example_env w) as Hw.
  { apply customize_all_reachable, reach_init. }
  split; [exact Hw|]. split; [reflexivity|].
  exact (catalog_well_formed example_env w Hw).
Defined.

Lemma customized_voice_usable_witness :
  let w := fresh_world example_env None in
  let w1 := (Tts.customize_voice example_env "voice_1"
               {[ "name" := VStr "Deep" ]} w).2 in
  ∃ a w2,
    Tts.generate_audio example_env "Hello" "custom_voice_1_5" None w1 = (Ok a, w2)
    ∧ Tts.voice_id a = "custom_voice_1_5"
    ∧ Tts.parameters a
      = {[ "pitch" := VFloat (FFin 0.0); "speed" := VFloat (FFin 1.0);
           "emotion" := VStr "neutral"; "emphasis" := VList [] ]}
    ∧ Tts.self w2 = Tts.self w1.
Proof.
  intros w w1.
  apply (customized_voice_usable example_env w "voice_1"
           {[ "name" := VStr "Deep" ]} "custom_voice_1_5" w1 "Hello" None).
  - reflexivity.
  - discriminate.
  - vm_compute. discriminate.
  - reflexivity.
  - reflexivity.
  - reflexivity.
Defined.

Lemma customize_voice_read_back_witness :
  let w := fresh_world example_env None in
  let customizations : gmap string value :=
    {[ "name" := VStr "Deep"; "pitch_shift" := VInt (-2) ]} in
  let w1 := (Tts.customize_voice example_env "voice_2" customizations w).2 in
  ∃ voices new_voice,
    Tts.get_available_voices w1 = (Ok voices, w1)
    ∧ last voices = Some new_voice
    ∧ Tts.v_id new_voice = "custom_voice_2_5"
    ∧ "custom_voice_2_5"
      = "custom_" +:+ "voice_2" +:+ "_" +:+ pretty (Z.of_nat (length voices))
    ∧ Tts.v_base_voice_id new_voice = Some "voice_2"
    ∧ Tts.v_customizations new_voice = Some customizations
    ∧ (∀ n, customizations !! "name" = Some n → Tts.v_name new_voice = n)
    ∧ Tts.files w1 = Tts.files w.
Proof.
  intros w customizations w1.
  exact (customize_voice_read_back example_env w "voice_2" customizations
           "custom_voice_2_5" w1 eq_refl).
Defined.

(** ** The dictionary forms of characters and dialogues *)

Section DictForms.

(** X14.  A [CharacterInfo] survives the trip through its dictionary form:
    [from_dict (to_dict c)] is [c], all fields included.  A dictionary
    without "name" raises [KeyError]; one with only a name gets the
    defaults: empty description, traits and suggestions, count 0,
    confidence 0.0, not the narrator, no gender, age or style. *)
Theorem character_info_round_trip :
  (∀ c, Gemini.CharacterInfo_.from_dict (Gemini.CharacterInfo_.to_dict c) = Ok c)
  ∧ (∀ data, Gemini.d_name data = None →
       Gemini.CharacterInfo_.from_dict data = Raise (KeyError "'name'"))
  ∧ (∀ n,
       Gemini.CharacterInfo_.from_dict
         {| Gemini.d_name := Some n; Gemini.d_description := None;
            Gemini.d_dialogue_count := None; Gemini.d_confidence := None;
            Gemini.d_is_narrator := None; Gemini.d_character_traits := None;
            Gemini.d_gender := None; Gemini.d_age := None;
            Gemini.d_speaking_style := None;
            Gemini.d_voice_suggestions := None |}
       = Ok {| Gemini.name := n; Gemini.description := "";
               Gemini.dialogue_count := 0; Gemini.confidence := FFin 0.0;
               Gemini.is_narrator := false; Gemini.character_traits := [];
               Gemini.gender := None; Gemini.age := None;
               Gemini.speaking_style := None;
               Gemini.voice_suggestions := [] |}).
Proof.
  split; [|split].
  - by intros [].
  - intros data Hn. unfold Gemini.CharacterInfo_.from_dict. by rewrite Hn.
  - done.
Qed.

(** X15.  A [DialogueInfo] survives the trip through its dictionary form.
    [from_dict] returns exactly for the dictionaries that have the four keys
    "text", "character_name", "start_index" and "end_index"; when some are
    missing it raises [KeyError] for the first missing one in that order;
    a missing confidence reads as 0.0. *)
Theorem dialogue_info_round_trip :
  (∀ d, Gemini.DialogueInfo_.from_dict (Gemini.DialogueInfo_.to_dict d) = Ok d)
  ∧ (∀ data, complete_dialogue data ↔
       ∃ d, Gemini.DialogueInfo_.from_dict data = Ok d)
  ∧ (∀ data,
       Gemini.DialogueInfo_.from_dict data
       = match Gemini.d_text data, Gemini.d_character_name data,
               Gemini.d_start_index data, Gemini.d_end_index data with
         | None, _, _, _ => Raise (KeyError "'text'")
         | Some _, None, _, _ => Raise (KeyError "'character_name'")
         | Some _, Some _, None, _ => Raise (KeyError "'start_index'")
         | Some _, Some _, Some _, None => Raise (KeyError "'end_index'")
         | Some t, Some c, Some s, Some e =>
             Ok {| Gemini.text := t; Gemini.character_name := c;
                   Gemini.start_index := s; Gemini.end_index := e;
                   Gemini.dl_confidence :=
                     default (FFin 0.0) (Gemini.d_dl_confidence data);
                   Gemini.emotion := Gemini.d_emotion data |}
         end).
Proof.
  split; [|split].
  - by intros [].
  - intros [t c s e cf em]. unfold complete_dialogue; simpl. split.
    + intros ([? ->] & [? ->] & [? ->] & [? ->]). by eexists.
    + intros [d Hd]. unfold Gemini.DialogueInfo_.from_dict in Hd; simpl in Hd.
      destruct t, c, s, e; done.
  - intros [[t|] [c|] [s|] [e|] cf em]; done.
Qed.

End DictForms.

(** ** Input checks and modes of the three public methods *)

Section PublicMethods.
Implicit Types (self : Gemini.GeminiService) (text : string).
Implicit Types (cs : list Gemini.CharacterInfo).

Lemma validate_text_input_empty :
  Gemini._validate_text_input "" = Raise (ValueError "Text cannot be empty").
Proof. reflexivity. Qed.

Lemma validate_text_input_long text :
  1000000 < len text →
  Gemini._validate_text_input text
  = Raise (ValueError ("Text is too long (" +:+ pretty (len text)
                       +:+ " chars). Maximum is 1,000,000 characters.")).
Proof.
  intros Hl. unfold Gemini._validate_text_input.
  case_bool_decide as Ht.
  { subst text. by vm_compute in Hl. }
  by apply Z.ltb_lt in Hl as ->.
Qed.

(** X16.  The three public methods check their input before anything else
    and raise a plain [ValueError], never one of the Gemini errors: for an
    empty text, for a text of more than 1,000,000 characters (the message
    gives the length), and for an empty character list; the text is checked
    before the list.  On every other input each method returns. *)
Theorem gemini_input_checks self text cs :
  (text = "" →
     Gemini.identify_characters self text = Raise (ValueError "Text cannot be empty")
     ∧ Gemini.identify_dialogue self text cs = Raise (ValueError "Text cannot be empty"))
  ∧ (1000000 < len text →
     let e := ValueError ("Text is too long (" +:+ pretty (len text)
                          +:+ " chars). Maximum is 1,000,000 characters.") in
     Gemini.identify_characters self text = Raise e
     ∧ Gemini.identify_dialogue self text cs = Raise e)
  ∧ (text ≠ "" → len text ≤ 1000000 →
     (∃ r, Gemini.identify_characters self text = Ok r)
     ∧ (cs = [] → Gemini.identify_dialogue self text cs
                  = Raise (ValueError "Character list cannot be empty"))
     ∧ (cs ≠ [] → ∃ ds, Gemini.identify_dialogue self text cs = Ok ds))
  ∧ (cs = [] → Gemini.suggest_voices self cs
               = Raise (ValueError "Character list cannot be empty"))
  ∧ (cs ≠ [] → ∃ m, Gemini.suggest_voices self cs = Ok m).
Proof.
  split; [|split; [|split; [|split]]].
  - intros ->. done.
  - intros Hl e.
    unfold Gemini.identify_characters, Gemini.identify_dialogue.
    by rewrite validate_text_input_long.
  - intros Hne Hl. split; [|split].
    + eexists. by apply identify_characters_eq.
    + intros ->. unfold Gemini.identify_dialogue.
      by rewrite validate_text_input_ok.
    + intros Hcs. eexists. by apply identify_dialogue_eq.
  - intros ->. done.
  - intros Hcs. eexists. by apply suggest_voices_eq.
Qed.

Lemma gemini_input_checks_witness :
  Gemini.identify_dialogue no_provider "" [] = Raise (ValueError "Text cannot be empty")
  ∧ Gemini.identify_dialogue no_provider "Once" []
    = Raise (ValueError "Character list cannot be empty")
  ∧ (∃ ds, Gemini.identify_dialogue no_provider "Once"
             [character "Ann" false None] = Ok ds)
  ∧ Gemini.suggest_voices no_provider []
    = Raise (ValueError "Character list cannot be empty")
  ∧ ∃ m, Gemini.suggest_voices no_provider [character "Ann" false None] = Ok m.
Proof.
  split; [|split; [|split; [|split]]].
  - exact (proj2 (proj1 (gemini_input_checks no_provider "" []) eq_refl)).
  - apply (proj1 (proj2 (proj2 (gemini_input_checks no_provider "Once" [])))).
    + discriminate.
    + vm_compute. discriminate.
    + reflexivity.
  - apply (proj1 (proj2 (proj2 (gemini_input_checks no_provider "Once"
                                  [character "Ann" false None])))).
    + discriminate.
    + vm_compute. discriminate.
    + discriminate.
  - exact (proj1 (proj2 (proj2 (proj2 (gemini_input_checks no_provider "" []))))
             eq_refl).
  - apply (proj2 (proj2 (proj2 (proj2 (gemini_input_checks no_provider ""
                                         [character "Ann" false None]))))).
    discriminate.
Defined.

(** X17.  Whether a key is configured makes no difference to what
    [identify_dialogue] and [suggest_voices] return: for every input the
    result with one service equals the result with any other. *)
Theorem gemini_modes_agree self1 self2 text cs :
  Gemini.identify_dialogue self1 text cs = Gemini.identify_dialogue self2 text cs
  ∧ Gemini.suggest_voices self1 cs = Gemini.suggest_voices self2 cs.
Proof.
  split.
  - destruct (decide (text ≠ "" ∧ len text ≤ 1000000 ∧ cs ≠ []))
      as [(Hne & Hl & Hcs)|Hbad].
    + by rewrite !identify_dialogue_eq.
    + unfold Gemini.identify_dialogue.
      destruct (Gemini._validate_text_input text) as [[]|e] eqn:Hv; [|done].
      cbn -[mapM]. case_bool_decide as Hcs; [done|]. exfalso. apply Hbad.
      revert Hv. unfold Gemini._validate_text_input.
      case_bool_decide; [done|].
      destruct (1000000 <? len text) eqn:Hlt; [done|].
      apply Z.ltb_ge in Hlt. done.
  - destruct (decide (cs = [])) as [->|Hcs]; [done|].
    by rewrite !suggest_voices_eq.
Qed.

End PublicMethods.

(** ** The mock roster *)

Section Roster.
Implicit Types (self : Gemini.GeminiService) (text : string).

(** The character the mock analysis puts at position [i]. *)
Lemma mock_roster_lookup text (i : nat) c :
  (char_of_dict <$> Gemini.characters (Gemini._mock_character_analysis text))
    !! i = Some c →
  Z.of_nat i < (2 `max` (len text `div` 10000)) `min` 10
  ∧ c = if bool_decide (i = 0%nat) then
          {| Gemini.name := "Narrator";
             Gemini.description := "The narrator of the story";
             Gemini.dialogue_count := len text `div` 500 * 3;
             Gemini.confidence := FFin (Qred (0.9 - inject_Z (Z.of_nat i) * 0.05));
             Gemini.is_narrator := true;
             Gemini.character_traits := ["observant"; "descriptive"];
             Gemini.gender := None; Gemini.age := None;
             Gemini.speaking_style := Some "formal";
             Gemini.voice_suggestions := [] |}
        else
          {| Gemini.name := "Character " +:+ pretty (Z.of_nat i);
             Gemini.description := "A supporting character in the story";
             Gemini.dialogue_count := len text `div` 500 * 1;
             Gemini.confidence := FFin (Qred (0.9 - inject_Z (Z.of_nat i) * 0.05));
             Gemini.is_narrator := false;
             Gemini.character_traits := ["trait1"; "trait2"];
             Gemini.gender :=
               Some (if bool_decide (Z.of_nat i `mod` 2 = 0) then "male"
                     else "female");
             Gemini.age := Some "adult";
             Gemini.speaking_style := Some "casual";
             Gemini.voice_suggestions := [] |}.
Proof.
  unfold Gemini._mock_character_analysis; simpl.
  rewrite <-list_fmap_compose, list_lookup_fmap.
  destruct (seqZ _ _ !! i) as [z|] eqn:Hz; [|done].
  apply lookup_seqZ in Hz as [-> Hlt]. intros [= <-]. split; [lia|].
  simpl. destruct i as [|i].
  - by rewrite !bool_decide_eq_true_2 by done.
  - by rewrite !bool_decide_eq_false_2 by lia.
Qed.

Lemma mock_roster_length text :
  Z.of_nat (length (char_of_dict <$>
                      Gemini.characters (Gemini._mock_character_analysis text)))
  = (2 `max` (len text `div` 10000)) `min` 10.
Proof.
  unfold Gemini._mock_character_analysis; simpl.
  rewrite !length_fmap, length_seqZ. lia.
Qed.

Lemma mock_roster_name text (i : nat) c :
  (char_of_dict <$> Gemini.characters (Gemini._mock_character_analysis text))
    !! i = Some c →
  Gemini.name c = if bool_decide (i = 0%nat) then "Narrator"
                  else "Character " +:+ pretty (Z.of_nat i).
Proof. intros [_ ->]%mock_roster_lookup. by case_bool_decide. Qed.

Lemma mock_roster_NoDup text :
  NoDup (Gemini.name <$>
           (char_of_dict <$> Gemini.characters (Gemini._mock_character_analysis text))).
Proof.
  apply NoDup_alt. intros i j n.
  rewrite !(list_lookup_fmap Gemini.name).
  destruct (_ !! i) as [ci|] eqn:Hi; [|done].
  destruct (_ !! j) as [cj|] eqn:Hj; [|done].
  apply mock_roster_name in Hi, Hj. simpl. intros [= <-] [= Heq].
  rewrite Hi, Hj in Heq.
  repeat case_bool_decide; subst; try done.
  simpl in Heq. injection Heq as Heq.
  apply pretty_Z_inj in Heq. lia.
Qed.

(** X18.  The roster [identify_characters] returns for a valid text starts
    with "Narrator", without gender or age and with the formal style; the
    character at each later position [i] is named "Character i", is an
    adult with the casual style, male for even [i] and female for odd [i].
    The names of the roster are pairwise distinct. *)
Theorem identify_characters_roster self text :
  text ≠ "" → len text ≤ 1000000 →
  ∃ cs,
    Gemini.identify_characters self text = Ok cs
    ∧ NoDup (Gemini.name <$> cs)
    ∧ ∀ (i : nat) c, cs !! i = Some c →
        if bool_decide (i = 0%nat) then
          Gemini.name c = "Narrator" ∧ Gemini.gender c = None
          ∧ Gemini.age c = None ∧ Gemini.speaking_style c = Some "formal"
        else
          Gemini.name c = "Character " +:+ pretty (Z.of_nat i)
          ∧ Gemini.gender c
            = Some (if Z.even (Z.of_nat i) then "male" else "female")
          ∧ Gemini.age c = Some "adult"
          ∧ Gemini.speaking_style c = Some "casual".
Proof.
  intros Hne Hl. eexists. split; [by apply identify_characters_eq|].
  split; [apply mock_roster_NoDup|].
  intros i c [_ ->]%mock_roster_lookup.
  case_bool_decide; simpl; [done|]. repeat split.
  rewrite Zmod_even. destruct (Z.even (Z.of_nat i)); by case_bool_decide.
Qed.

Lemma identify_characters_roster_witness :
  ∃ cs,
    Gemini.identify_characters no_provider (text_of_length 40000) = Ok cs
    ∧ Gemini.name <$> cs
      = ["Narrator"; "Character 1"; "Character 2"; "Character 3"]
    ∧ Gemini.gender <$> cs
      = [None; Some "female"; Some "male"; Some "female"]
    ∧ NoDup (Gemini.name <$> cs).
Proof.
  destruct (identify_characters_roster no_provider (text_of_length 40000))
    as (cs & Hcs & Hnd & _).
  - discriminate.
  - vm_compute. discriminate.
  - exists cs. split; [exact Hcs|].
    assert (Ok cs = Gemini.identify_characters no_provider (text_of_length 40000))
      as Heq by (symmetry; exact Hcs).
    vm_compute in Heq. injection Heq as ->.
    split; [reflexivity|]. split; [reflexivity|]. exact Hnd.
Defined.

(** X19.  In that roster the confidence of the character at position [i]
    is [0.9 - 0.05 * i], which lies between 0.45 and 0.9; so the
    confidences strictly decrease along the roster, the narrator having the
    highest. *)
Theorem identify_characters_confidence self text :
  text ≠ "" → len text ≤ 1000000 →
  ∃ cs,
    Gemini.identify_characters self text = Ok cs
    ∧ (∀ (i : nat) c, cs !! i = Some c →
         ∃ q, Gemini.confidence c = FFin q
              ∧ (q == 0.9 - inject_Z (Z.of_nat i) * 0.05)%Q
              ∧ (0.45 <= q)%Q ∧ (q <= 0.9)%Q)
    ∧ ∀ (i j : nat) ci cj,
        (i < j)%nat → cs !! i = Some ci → cs !! j = Some cj →
        float_lt (Gemini.confidence cj) (Gemini.confidence ci) = true.
Proof.
  intros Hne Hl. eexists. split; [by apply identify_characters_eq|].
  assert (∀ (i : nat) c,
    (char_of_dict <$> Gemini.characters (Gemini._mock_character_analysis text))
      !! i = Some c →
    Gemini.confidence c = FFin (Qred (0.9 - inject_Z (Z.of_nat i) * 0.05))
    ∧ (0 <= inject_Z (Z.of_nat i))%Q ∧ (inject_Z (Z.of_nat i) <= 9)%Q) as Hc.
  { intros i c [Hlt ->]%mock_roster_lookup. split; [by case_bool_decide|].
    change 0%Q with (inject_Z 0). change 9%Q with (inject_Z 9).
    rewrite <-!Zle_Qle. lia. }
  split.
  - intros i c (-> & H0 & H9)%Hc. eexists. split; [done|].
    rewrite Qred_correct. split; [reflexivity|]. split; lra.
  - intros i j ci cj Hij (-> & _)%Hc (-> & _)%Hc. simpl.
    unfold Qltb. apply negb_true_iff, not_true_is_false.
    rewrite Qle_bool_iff, !Qred_correct.
    assert (inject_Z (Z.of_nat i) < inject_Z (Z.of_nat j))%Q
      by (rewrite <-Zlt_Qlt; lia).
    lra.
Qed.

Lemma identify_characters_confidence_witness :
  ∃ cs,
    Gemini.identify_characters no_provider (text_of_length 40000) = Ok cs
    ∧ ∀ (i : nat) c, cs !! i = Some c →
        ∃ q, Gemini.confidence c = FFin q
             ∧ (q == 0.9 - inject_Z (Z.of_nat i) * 0.05)%Q
             ∧ (0.45 <= q)%Q ∧ (q <= 0.9)%Q.
Proof.
  destruct (identify_characters_confidence no_provider (text_of_length 40000))
    as (cs & Hcs & Hq & _).
  - discriminate.
  - vm_compute. discriminate.
  - exists cs. exact (conj Hcs Hq).
Defined.

End Roster.

(** ** The roster handed on to the other two methods *)

Section Pipeline.
Implicit Types (self : Gemini.GeminiService) (text : string).

Lemma mock_roster_nonempty text :
  char_of_dict <$> Gemini.characters (Gemini._mock_character_analysis text) ≠ [].
Proof.
  intros Hnil. pose proof (mock_roster_length text) as Hlen.
  rewrite Hnil in Hlen. simpl in Hlen. lia.
Qed.

(** X20.  The roster of [identify_characters] can be handed to
    [suggest_voices] as it is: the call returns, and every character of the
    roster finds its own entry under its name, the two narrator voices for
    the narrator, the two male voices for the characters at even positions
    and the two female voices for those at odd positions. *)
Theorem roster_voice_suggestions self self' text :
  text ≠ "" → len text ≤ 1000000 →
  ∃ cs m,
    Gemini.identify_characters self text = Ok cs
    ∧ Gemini.suggest_voices self' cs = Ok m
    ∧ ∀ (i : nat) c, cs !! i = Some c →
        ∃ l, m !! Gemini.name c = Some l
             ∧ Gemini.s_voice_id <$> l
               = if bool_decide (i = 0%nat) then ["narrator_1"; "narrator_2"]
                 else if Z.even (Z.of_nat i) then ["male_1"; "male_2"]
                 else ["female_1"; "female_2"].
Proof.
  intros Hne Hl. eexists _, _. split; [by apply identify_characters_eq|].
  split; [apply suggest_voices_eq, mock_roster_nonempty|].
  intros i c Hi. eexists. split.
  { apply mock_voice_suggestions_lookup; [apply mock_roster_NoDup|].
    apply list_elem_of_lookup. eauto. }
  apply mock_roster_lookup in Hi as [_ ->].
  case_bool_decide; [done|].
  unfold Gemini.suggestions_for; simpl.
  rewrite Zmod_even. by destruct (Z.even (Z.of_nat i)).
Qed.

Lemma roster_voice_suggestions_witness :
  ∃ cs m,
    Gemini.identify_characters no_provider (text_of_length 30000) = Ok cs
    ∧ Gemini.suggest_voices no_provider cs = Ok m
    ∧ ∀ (i : nat) c, cs !! i = Some c →
        ∃ l, m !! Gemini.name c = Some l
             ∧ Gemini.s_voice_id <$> l
               = if bool_decide (i = 0%nat) then ["narrator_1"; "narrator_2"]
                 else if Z.even (Z.of_nat i) then ["male_1"; "male_2"]
                 else ["female_1"; "female_2"].
Proof.
  apply (roster_voice_suggestions no_provider no_provider (text_of_length 30000)).
  - discriminate.
  - vm_compute. discriminate.
Defined.

(** One turn of the loop of [_mock_dialogue_analysis], started with nothing
    collected. *)
Lemma dialogue_loop_step text L n i range pos :
  Gemini.dialogue_loop text L n (i :: range) pos []
  = if L <=? pos + 100 `min` (L `div` n) then []
    else if L <=? pos + 500 `min` (L `div` (n * 2)) then []
    else
      let start := pos + 500 `min` (L `div` (n * 2)) in
      let stop := start + 100 `min` (L `div` n) in
      {| Gemini.d_text :=
           Some (if stop <? L then slice text start stop
                 else slice_from text start);
         Gemini.d_character_name :=
           Some (if bool_decide (i `mod` 3 = 0) then "Narrator"
                 else "Character " +:+ pretty (i `mod` 3));
         Gemini.d_start_index := Some start;
         Gemini.d_end_index := Some stop;
         Gemini.d_dl_confidence := Some (FFin 0.8);
         Gemini.d_emotion :=
           ["neutral"; "happy"; "sad"; "angry"] !! Z.to_nat (i `mod` 4) |}
      :: Gemini.dialogue_loop text L n range stop [].
Proof.
  simpl. destruct (L <=? pos + _); [done|].
  destruct (L <=? pos + _); [done|].
  by rewrite dialogue_loop_acc.
Qed.

(** A valid text of fewer than 30,000 characters gets at least three
    spans. *)
Lemma third_span text :
  text ≠ "" → len text < 30000 →
  ∃ d, Gemini.dialogues (Gemini._mock_dialogue_analysis text) !! 2%nat = Some d.
Proof.
  intros Hne Hl. unfold Gemini._mock_dialogue_analysis; simpl.
  assert (0 < len text) as Hpos.
  { unfold len. destruct text; [done|simpl; lia]. }
  assert (len text `div` 5000 < 6) by (apply Z.div_lt_upper_bound; lia).
  replace ((5 `max` (len text `div` 5000)) `min` 50) with 5 by lia.
  change (seqZ 0 5) with [0; 1; 2; 3; 4].
  pose proof (Z.mul_div_le (len text) 5 ltac:(lia)).
  pose proof (Z.mul_div_le (len text) (5 * 2) ltac:(lia)).
  pose proof (Z.div_pos (len text) 5 ltac:(lia) ltac:(lia)).
  pose proof (Z.div_pos (len text) (5 * 2) ltac:(lia) ltac:(lia)).
  do 3 (rewrite dialogue_loop_step;
        rewrite (proj2 (Z.leb_gt _ _)) by lia;
        rewrite (proj2 (Z.leb_gt _ _)) by lia;
        cbv zeta).
  simpl. eauto.
Qed.

(** X21.  The spans of [identify_dialogue] name characters of the roster
    that [identify_characters] returns for the same text exactly when the
    text has at least 30,000 characters: the spans use the three names
    "Narrator", "Character 1" and "Character 2", and a shorter text gets a
    roster of two and at least three spans, the third named
    "Character 2". *)
Theorem roster_resolves_spans self text :
  text ≠ "" → len text ≤ 1000000 →
  ∃ cs ds,
    Gemini.identify_characters self text = Ok cs
    ∧ Gemini.identify_dialogue self text cs = Ok ds
    ∧ ((∀ d, d ∈ ds → Gemini.character_name d ∈ Gemini.name <$> cs)
       ↔ 30000 ≤ len text).
Proof.
  intros Hne Hl. eexists _, _. split; [by apply identify_characters_eq|].
  split; [apply identify_dialogue_eq; [done..|apply mock_roster_nonempty]|].
  set (cs := char_of_dict <$> _).
  pose proof (mock_roster_length text) as Hlen. fold cs in Hlen.
  split.
  - intros Hall. apply Z.nlt_ge. intros Hlt.
    destruct (third_span text Hne Hlt) as [d Hd].
    pose proof Hd as (_ & Hn & _)%mock_dialogue_spans.
    assert (Gemini.character_name (dialogue_of_dict d) ∈ Gemini.name <$> cs)
      as Hin.
    { apply Hall, list_elem_of_lookup. exists 2%nat.
      by rewrite list_lookup_fmap, Hd. }
    rewrite Hn in Hin.
    apply list_elem_of_lookup in Hin as [i Hi].
    rewrite list_lookup_fmap in Hi.
    destruct (cs !! i) as [c|] eqn:Hc; [|done].
    apply lookup_lt_Some in Hc as Hi2.
    assert (len text `div` 10000 < 3) by (apply Z.div_lt_upper_bound; lia).
    apply mock_roster_name in Hc. simpl in Hi. injection Hi as Hi.
    rewrite Hc in Hi.
    destruct i as [|[|i]]; [done|done|lia].
  - intros Hge d [k Hk]%list_elem_of_lookup.
    rewrite list_lookup_fmap in Hk.
    destruct (_ !! k) as [x|] eqn:Hx; [|done]. injection Hk as <-.
    apply mock_dialogue_spans in Hx as (_ & -> & _).
    assert (3 ≤ len text `div` 10000) by (apply Z.div_le_lower_bound; lia).
    assert (∀ i : nat, (i < 3)%nat →
              ∃ c, cs !! i = Some c) as Hex.
    { intros i Hi. apply lookup_lt_is_Some. lia. }
    unfold cycle_name.
    destruct (k `mod` 3)%nat as [|[|r]].
    + destruct (Hex 0%nat) as [c Hc]; [lia|].
      apply list_elem_of_lookup. exists 0%nat.
      rewrite list_lookup_fmap, Hc. simpl. f_equal.
      by apply mock_roster_name in Hc.
    + destruct (Hex 1%nat) as [c Hc]; [lia|].
      apply list_elem_of_lookup. exists 1%nat.
      rewrite list_lookup_fmap, Hc. simpl. f_equal.
      by apply mock_roster_name in Hc.
    + destruct (Hex 2%nat) as [c Hc]; [lia|].
      apply list_elem_of_lookup. exists 2%nat.
      rewrite list_lookup_fmap, Hc. simpl. f_equal.
      by apply mock_roster_name in Hc.
Qed.

Lemma roster_resolves_spans_witness :
  ∃ cs ds,
    Gemini.identify_characters no_provider (text_of_length 100) = Ok cs
    ∧ Gemini.identify_dialogue no_provider (text_of_length 100) cs = Ok ds
    ∧ ((∀ d, d ∈ ds → Gemini.character_name d ∈ Gemini.name <$> cs)
       ↔ 30000 ≤ len (text_of_length 100)).
Proof.
  apply (roster_resolves_spans no_provider (text_of_length 100)).
  - discriminate.
  - vm_compute. discriminate.
Defined.

End Pipeline.

(** ** The spans of the mock dialogue analysis *)

Section Spans.
Implicit Types (self : Gemini.GeminiService) (text : string).
Implicit Types (range : list Z) (pos : Z).

(** The span the loop builds in turn [i] when it stands at [start]. *)
Lemma dialogue_loop_nth text L n range pos (k : nat) d :
  Gemini.dialogue_loop text L n range pos [] !! k = Some d →
  ∃ i start,
    range !! k = Some i
    ∧ start = pos + 500 `min` (L `div` (n * 2))
              + Z.of_nat k * (500 `min` (L `div` (n * 2)) + 100 `min` (L `div` n))
    ∧ start < L
    ∧ d = {| Gemini.d_text :=
               Some (if start + 100 `min` (L `div` n) <? L
                     then slice text start (start + 100 `min` (L `div` n))
                     else slice_from text start);
             Gemini.d_character_name :=
               Some (if bool_decide (i `mod` 3 = 0) then "Narrator"
                     else "Character " +:+ pretty (i `mod` 3));
             Gemini.d_start_index := Some start;
             Gemini.d_end_index := Some (start + 100 `min` (L `div` n));
             Gemini.d_dl_confidence := Some (FFin 0.8);
             Gemini.d_emotion :=
               ["neutral"; "happy"; "sad"; "angry"] !! Z.to_nat (i `mod` 4) |}.
Proof.
  revert pos k d.
  induction range as [|i range IH]; intros pos k d; [done|].
  rewrite dialogue_loop_step.
  destruct (L <=? pos + 100 `min` _) eqn:H1; [done|].
  destruct (L <=? pos + 500 `min` _) eqn:H2; [done|].
  apply Z.leb_gt in H2. cbv zeta. destruct k as [|k].
  - intros [= <-]. exists i. eexists. split; [done|]. split; [|done]. lia.
  - intros Hk. apply IH in Hk as (j & start & Hj & Hs & Hlt & ->).
    exists j, start. split; [done|]. split; [lia|done].
Qed.

Lemma dialogue_loop_length text L n range pos :
  (length (Gemini.dialogue_loop text L n range pos []) ≤ length range)%nat.
Proof.
  revert pos. induction range as [|i range IH]; intros pos; [done|].
  rewrite dialogue_loop_step.
  destruct (L <=? pos + _); [simpl; lia|].
  destruct (L <=? pos + _); [simpl; lia|].
  cbv zeta. simpl. specialize (IH (pos + 500 `min` (L `div` (n * 2))
                                    + 100 `min` (L `div` n))). lia.
Qed.

Lemma length_substring (s : string) (a m : nat) :
  (a + m ≤ String.length s)%nat →
  String.length (String.substring a m s) = m.
Proof.
  revert a m. induction s as [|c s IH]; intros a m Hle; simpl in *.
  - destruct a, m; simpl; lia.
  - destruct a as [|a].
    + destruct m as [|m]; [done|]. simpl. rewrite IH; lia.
    + apply IH. lia.
Qed.

Lemma len_slice text (a b : Z) :
  0 ≤ a → a ≤ b → a ≤ len text →
  len (slice text a b) = b `min` len text - a.
Proof.
  intros Ha Hab Hal. unfold slice, len in *.
  rewrite length_substring; lia.
Qed.

Lemma slice_from_slice text (a b : Z) :
  len text ≤ b → slice_from text a = slice text a b.
Proof. intros Hb. unfold slice, slice_from. by rewrite Z.min_r. Qed.

(** The spans [identify_dialogue] returns for a valid text and a non-empty
    roster, by position. *)
Lemma identify_dialogue_nth self text (cs : list Gemini.CharacterInfo) :
  text ≠ "" → len text ≤ 1000000 → cs ≠ [] →
  let n := (5 `max` (len text `div` 5000)) `min` 50 in
  let width := 100 `min` (len text `div` n) in
  let gap := 500 `min` (len text `div` (n * 2)) in
  ∃ ds,
    Gemini.identify_dialogue self text cs = Ok ds
    ∧ Z.of_nat (length ds) ≤ n
    ∧ 0 ≤ width ∧ 0 ≤ gap
    ∧ ∀ (k : nat) d, ds !! k = Some d →
        let start := gap + Z.of_nat k * (gap + width) in
        start < len text
        ∧ Gemini.start_index d = start
        ∧ Gemini.end_index d = start + width
        ∧ Gemini.text d = slice text start (start + width)
        ∧ Gemini.dl_confidence d = FFin 0.8
        ∧ Gemini.emotion d
          = ["neutral"; "happy"; "sad"; "angry"] !! (k `mod` 4)%nat.
Proof.
  intros Hne Hl Hcs n width gap.
  destruct (mock_dialogue_bounds (len text) (len_nonneg text)) as [Hw Hg].
  fold n in Hw, Hg.
  eexists. split; [by apply identify_dialogue_eq|].
  unfold Gemini._mock_dialogue_analysis; simpl. fold n.
  split.
  { rewrite length_fmap.
    pose proof (dialogue_loop_length text (len text) n (seqZ 0 n) 0) as Hlen.
    rewrite length_seqZ in Hlen. lia. }
  split; [unfold width; lia|]. split; [unfold gap; lia|].
  intros k d. rewrite list_lookup_fmap.
  destruct (_ !! k) as [x|] eqn:Hx; [|done]. intros [= <-].
  apply dialogue_loop_nth in Hx as (i & start & Hi & Hs & Hlt & ->).
  apply lookup_seqZ in Hi as [-> _]. fold n width gap in Hs, Hlt |- *.
  rewrite !Z.add_0_l in *. subst start. simpl.
  split; [done|]. split; [done|]. split; [done|]. split.
  { destruct (_ <? _) eqn:Hc; [done|].
    apply Z.ltb_ge in Hc. by apply slice_from_slice. }
  split; [done|].
  f_equal. change 4 with (Z.of_nat 4).
  by rewrite <-Nat2Z.inj_mod, Nat2Z.id.
Qed.

(** X22.  Every span [identify_dialogue] returns starts inside the text,
    and its [text] is the part of the input between its start index and its
    end index, cut off at the end of the input: its length is
    [min(end_index, len(text)) - start_index]. *)
Theorem identify_dialogue_span_text self text (cs : list Gemini.CharacterInfo) :
  text ≠ "" → len text ≤ 1000000 → cs ≠ [] →
  ∃ ds,
    Gemini.identify_dialogue self text cs = Ok ds
    ∧ ∀ d, d ∈ ds →
        0 ≤ Gemini.start_index d < len text
        ∧ Gemini.text d = slice text (Gemini.start_index d) (Gemini.end_index d)
        ∧ len (Gemini.text d)
          = Gemini.end_index d `min` len text - Gemini.start_index d.
Proof.
  intros Hne Hl Hcs.
  destruct (identify_dialogue_nth self text cs Hne Hl Hcs)
    as (ds & Hds & _ & Hw & Hg & Hk).
  exists ds. split; [done|].
  intros d [k Hd]%list_elem_of_lookup.
  destruct (Hk k d Hd) as (Hlt & Hs & He & Ht & _).
  rewrite Ht, Hs, He. split; [split; [nia|done]|]. split; [done|].
  apply len_slice; nia.
Qed.

Lemma identify_dialogue_span_text_witness :
  ∃ ds,
    Gemini.identify_dialogue no_provider (text_of_length 23)
      [character "Narrator" true None] = Ok ds
    ∧ ∀ d, d ∈ ds →
        0 ≤ Gemini.start_index d < len (text_of_length 23)
        ∧ Gemini.text d
          = slice (text_of_length 23) (Gemini.start_index d) (Gemini.end_index d)
        ∧ len (Gemini.text d)
          = Gemini.end_index d `min` len (text_of_length 23)
            - Gemini.start_index d.
Proof.
  apply (identify_dialogue_span_text no_provider (text_of_length 23)).
  - discriminate.
  - vm_compute. discriminate.
  - discriminate.
Defined.

(** X23.  The spans are laid out at regular intervals.  With
    [n = min(max(5, L // 5000), 50)], [width = min(100, L // n)] and
    [gap = min(500, L // (2 * n))] for a text of [L] characters, there are
    at most [n], so at most 50, spans; the span at position [k] starts at
    [gap + k * (gap + width)] and ends [width] later. *)
Theorem identify_dialogue_layout self text (cs : list Gemini.CharacterInfo) :
  text ≠ "" → len text ≤ 1000000 → cs ≠ [] →
  let n := (5 `max` (len text `div` 5000)) `min` 50 in
  let width := 100 `min` (len text `div` n) in
  let gap := 500 `min` (len text `div` (n * 2)) in
  ∃ ds,
    Gemini.identify_dialogue self text cs = Ok ds
    ∧ Z.of_nat (length ds) ≤ n ∧ n ≤ 50
    ∧ ∀ (k : nat) d, ds !! k = Some d →
        Gemini.start_index d = gap + Z.of_nat k * (gap + width)
        ∧ Gemini.end_index d = Gemini.start_index d + width.
Proof.
  intros Hne Hl Hcs n width gap.
  destruct (identify_dialogue_nth self text cs Hne Hl Hcs)
    as (ds & Hds & Hlen & _ & _ & Hk).
  exists ds. split; [done|]. split; [done|]. split; [unfold n; lia|].
  intros k d Hd. destruct (Hk k d Hd) as (_ & Hs & He & _).
  fold n width gap in Hs, He. by rewrite He, Hs.
Qed.

Lemma identify_dialogue_layout_witness :
  ∃ ds,
    Gemini.identify_dialogue no_provider (text_of_length 1000)
      [character "Narrator" true None] = Ok ds
    ∧ Z.of_nat (length ds) ≤ 5 ∧ 5 ≤ 50
    ∧ ∀ (k : nat) d, ds !! k = Some d →
        Gemini.start_index d = 100 + Z.of_nat k * (100 + 100)
        ∧ Gemini.end_index d = Gemini.start_index d + 100.
Proof.
  apply (identify_dialogue_layout no_provider (text_of_length 1000)).
  - discriminate.
  - vm_compute. discriminate.
  - discriminate.
Defined.

(** X24.  The span at position [k] carries the emotion number [k mod 4] of
    neutral, happy, sad and angry, and the confidence 0.8.  The emotion is
    therefore always one that [_process_params] of the speech service
    accepts. *)
Theorem identify_dialogue_emotions self text (cs : list Gemini.CharacterInfo) :
  text ≠ "" → len text ≤ 1000000 → cs ≠ [] →
  ∃ ds,
    Gemini.identify_dialogue self text cs = Ok ds
    ∧ ∀ (k : nat) d, ds !! k = Some d →
        Gemini.dl_confidence d = FFin 0.8
        ∧ ∃ e, Gemini.emotion d = Some e
               ∧ Tts.valid_emotions !! (k `mod` 4)%nat = Some e
               ∧ ∃ m, Tts._process_params {[ "emotion" := VStr e ]} = Ok m
                      ∧ m !! "emotion" = Some (VStr e).
Proof.
  intros Hne Hl Hcs.
  destruct (identify_dialogue_nth self text cs Hne Hl Hcs)
    as (ds & Hds & _ & _ & _ & Hk).
  exists ds. split; [done|].
  intros k d Hd. destruct (Hk k d Hd) as (_ & _ & _ & _ & Hc & He).
  split; [done|]. rewrite He.
  pose proof (Nat.mod_upper_bound k 4 ltac:(done)) as Hlt.
  destruct (k `mod` 4)%nat as [|[|[|[|r]]]]; [..|lia];
    eexists; (split; [done|]); (split; [done|]); eexists; split;
    (reflexivity || done).
Qed.

Lemma identify_dialogue_emotions_witness :
  ∃ ds,
    Gemini.identify_dialogue no_provider (text_of_length 1000)
      [character "Narrator" true None] = Ok ds
    ∧ Gemini.emotion <$> ds
      = [Some "neutral"; Some "happy"; Some "sad"; Some "angry"; Some "neutral"]
    ∧ ∀ (k : nat) d, ds !! k = Some d →
        Gemini.dl_confidence d = FFin 0.8
        ∧ ∃ e, Gemini.emotion d = Some e
               ∧ Tts.valid_emotions !! (k `mod` 4)%nat = Some e
               ∧ ∃ m, Tts._process_params {[ "emotion" := VStr e ]} = Ok m
                      ∧ m !! "emotion" = Some (VStr e).
Proof.
  destruct (identify_dialogue_emotions no_provider (text_of_length 1000)
              [character "Narrator" true None]) as (ds & Hds & He).
  - discriminate.
  - vm_compute. discriminate.
  - discriminate.
  - exists ds. split; [exact Hds|]. split; [|exact He].
    assert (Ok ds = Gemini.identify_dialogue no_provider (text_of_length 1000)
                      [character "Narrator" true None]) as Heq
      by (symmetry; exact Hds).
    vm_compute in Heq. injection Heq as ->. reflexivity.
Defined.

End Spans.

(** ** More on [suggest_voices] *)

Section RecommenderMore.
Implicit Types (self : Gemini.GeminiService) (cs : list Gemini.CharacterInfo).

(** Storing one entry per element, in order: under each key the entry of
    the last element with that key is found. *)
Lemma foldl_insert_last {A V : Type} (key : A → string) (val : A → V)
    (l : list A) (m : gmap string V) k :
  foldl (λ m x, <[key x := val x]> m) m l !! k
  = match last (filter (λ x, key x = k) l) with
    | Some x => Some (val x)
    | None => m !! k
    end.
Proof.
  induction l as [|x l IH] using rev_ind; [done|].
  rewrite foldl_app, filter_app. simpl.
  rewrite filter_cons, filter_nil.
  destruct (decide (key x = k)) as [<-|Hne].
  - by rewrite lookup_insert_eq, last_snoc.
  - by rewrite lookup_insert_ne, app_nil_r.
Qed.

Lemma mock_voice_suggestions_last cs n :
  Gemini.va_voice_suggestions (Gemini._mock_voice_suggestions (inl <$> cs)) !! n
  = (Gemini.suggestions_for ∘ Gemini.CharacterInfo_.to_dict)
      <$> last (filter (λ c, Gemini.name c = n) cs).
Proof.
  unfold Gemini._mock_voice_suggestions; simpl.
  rewrite <-list_fmap_compose.
  rewrite (foldl_insert_last
             (λ d, default "Unknown" (Gemini.d_name d)) Gemini.suggestions_for).
  rewrite lookup_empty.
  induction cs as [|c cs IH] using rev_ind; [done|].
  rewrite fmap_app, !filter_app. simpl. rewrite !filter_cons, !filter_nil.
  simpl. destruct (decide (Gemini.name c = n)).
  - by rewrite !last_snoc.
  - by rewrite !app_nil_r.
Qed.

(** X25.  For a non-empty character list [suggest_voices] returns a mapping
    whose keys are exactly the names in the list; under each name stands
    the suggestion list of the last character of the list that has this
    name, so an earlier character with the same name gets no entry of its
    own. *)
Theorem suggest_voices_last_wins self cs :
  cs ≠ [] →
  ∃ m,
    Gemini.suggest_voices self cs = Ok m
    ∧ (∀ n, is_Some (m !! n) ↔ n ∈ Gemini.name <$> cs)
    ∧ ∀ n c, last (filter (λ c, Gemini.name c = n) cs) = Some c →
        m !! n = Some (Gemini.suggestions_for (Gemini.CharacterInfo_.to_dict c)).
Proof.
  intros Hcs. eexists. split; [by apply suggest_voices_eq|]. split.
  - intros n. rewrite mock_voice_suggestions_last, fmap_is_Some.
    rewrite list_elem_of_fmap. split.
    + intros [c Hc]. apply last_Some_elem_of, list_elem_of_filter in Hc as [? ?].
      by exists c.
    + intros (c & -> & Hin).
      destruct (last (filter _ cs)) as [c'|] eqn:Hl; [done|].
      apply last_None in Hl.
      assert (c ∈ filter (λ c0, Gemini.name c0 = Gemini.name c) cs) as Hf
        by (by apply list_elem_of_filter).
      rewrite Hl in Hf. by apply elem_of_nil in Hf.
  - intros n c Hl. by rewrite mock_voice_suggestions_last, Hl.
Qed.

Lemma suggest_voices_last_wins_witness :
  let cs := [character "Sam" false (Some "male");
             character "Ann" false (Some "female");
             character "Sam" true None] in
  ∃ m,
    Gemini.suggest_voices no_provider cs = Ok m
    ∧ (∀ n, is_Some (m !! n) ↔ n ∈ Gemini.name <$> cs)
    ∧ m !! "Sam"
      = Some (Gemini.suggestions_for
                (Gemini.CharacterInfo_.to_dict (character "Sam" true None))).
Proof.
  intros cs.
  destruct (suggest_voices_last_wins no_provider cs) as (m & Hm & Hdom & Hl).
  - discriminate.
  - exists m. split; [exact Hm|]. split; [exact Hdom|].
    apply Hl. reflexivity.
Defined.

(** The four lists the rule table can give. *)
Lemma suggestions_for_cases d s :
  s ∈ Gemini.suggestions_for d →
  Gemini.s_voice_id s ∈ suggested_ids
  ∧ (1 ≤ length (Gemini.suggestions_for d) ≤ 2)%nat
  ∧ (-2 ≤ Gemini.s_pitch s ≤ 2)
  ∧ (∃ q, Gemini.s_speed s = FFin q ∧ (0.9 <= q)%Q ∧ (q <= 1.05)%Q)
  ∧ (∃ q, Gemini.s_confidence s = FFin q ∧ (0.8 <= q)%Q ∧ (q <= 0.95)%Q)
  ∧ ∃ m, Tts._process_params
           {[ "pitch" := VInt (Gemini.s_pitch s);
              "speed" := VFloat (Gemini.s_speed s) ]} = Ok m
         ∧ m !! "pitch" = Some (VInt (Gemini.s_pitch s))
         ∧ m !! "speed" = Some (VFloat (Gemini.s_speed s)).
Proof.
  unfold Gemini.suggestions_for, suggested_ids.
  destruct (default false (Gemini.d_is_narrator d)); [|repeat case_bool_decide];
    simpl; intros Hs;
    repeat (apply elem_of_cons in Hs as [->|Hs]; [|]);
    try (by apply elem_of_nil in Hs); simpl.
  all: split; [set_solver|]; split; [lia|]; split; [lia|].
  all: split; [eexists; split; [done|]; split; by vm_compute|].
  all: split; [eexists; split; [done|]; split; by vm_compute|].
  all: eexists; split; [reflexivity|]; split; reflexivity.
Qed.

Lemma suggest_voices_entry self cs m n l :
  Gemini.suggest_voices self cs = Ok m → m !! n = Some l →
  ∃ c, c ∈ cs ∧ Gemini.name c = n
       ∧ l = Gemini.suggestions_for (Gemini.CharacterInfo_.to_dict c).
Proof.
  intros Hm Hl. destruct (decide (cs = [])) as [->|Hcs]; [done|].
  rewrite suggest_voices_eq in Hm by done.
  assert (m = Gemini.va_voice_suggestions
                (Gemini._mock_voice_suggestions (inl <$> cs))) as ->
    by congruence.
  rewrite mock_voice_suggestions_last in Hl.
  destruct (last (filter _ cs)) as [c|] eqn:Hc; [|done].
  injection Hl as <-.
  apply last_Some_elem_of, list_elem_of_filter in Hc as [? ?]. by exists c.
Qed.

(** X26.  Every list [suggest_voices] returns holds one or two suggestions,
    and each can be handed to the speech service as it is: its pitch lies
    between -2 and 2, its speed between 0.9 and 1.05 and its confidence
    between 0.8 and 0.95, so [_process_params] accepts the pitch and the
    speed and returns them unchanged. *)
Theorem suggestions_are_valid_parameters self cs m n l s :
  Gemini.suggest_voices self cs = Ok m → m !! n = Some l → s ∈ l →
  (1 ≤ length l ≤ 2)%nat
  ∧ (-2 ≤ Gemini.s_pitch s ≤ 2)
  ∧ (∃ q, Gemini.s_speed s = FFin q ∧ (0.9 <= q)%Q ∧ (q <= 1.05)%Q)
  ∧ (∃ q, Gemini.s_confidence s = FFin q ∧ (0.8 <= q)%Q ∧ (q <= 0.95)%Q)
  ∧ ∃ p, Tts._process_params
           {[ "pitch" := VInt (Gemini.s_pitch s);
              "speed" := VFloat (Gemini.s_speed s) ]} = Ok p
         ∧ p !! "pitch" = Some (VInt (Gemini.s_pitch s))
         ∧ p !! "speed" = Some (VFloat (Gemini.s_speed s)).
Proof.
  intros Hm Hl Hs.
  destruct (suggest_voices_entry _ _ _ _ _ Hm Hl) as (c & _ & _ & ->).
  by apply suggestions_for_cases in Hs as (_ & ? & ? & ? & ? & ?).
Qed.

End RecommenderMore.

Section SuggestedVoices.
Variable env : Env.

Lemma suggested_id_not_in_catalog w vid :
  reachable env w → vid ∈ suggested_ids →
  vid ≠ "" ∧ vid ∉ voice_ids (loaded (Tts.self w)).
Proof.
  intros Hw Hv. split.
  { intros ->. unfold suggested_ids in Hv. set_solver. }
  apply reachable_inv, catalog_inv_loaded in Hw as [Hinv Hi].
  destruct (catalog_inv_ids _ Hinv Hi) as (customs & -> & _ & Hc).
  intros [Hin|Hin]%elem_of_app.
  - unfold suggested_ids in Hv. set_solver.
  - apply list_elem_of_lookup in Hin as [j Hj].
    apply Hc in Hj as [base ->].
    unfold suggested_ids in Hv. set_solver.
Qed.

(** X27.  No voice id that [suggest_voices] suggests is the id of a voice
    of the speech service: in every catalog reached from a new service the
    ids are the four built-in ones and ids that start with "custom_".  So
    [generate_audio] with a suggested id and a text of 1 to 10,000
    characters raises the [ValueError] for an unknown voice, and writes no
    file. *)
Theorem suggested_voices_not_in_catalog
    self cs m n l s w text params :
  Gemini.suggest_voices self cs = Ok m → m !! n = Some l → s ∈ l →
  reachable env w →
  (Gemini.s_voice_id s ∉ voice_ids (loaded (Tts.self w)))
  ∧ (text ≠ "" → len text ≤ 10000 →
     ∃ msg w',
       Tts.generate_audio env text (Gemini.s_voice_id s) params w
       = (Raise (ValueError msg), w')
       ∧ Tts.files w' = Tts.files w).
Proof.
  intros Hm Hl Hs Hw.
  destruct (suggest_voices_entry _ _ _ _ _ Hm Hl) as (c & _ & _ & ->).
  apply suggestions_for_cases in Hs as (Hid & _).
  destruct (suggested_id_not_in_catalog w _ Hw Hid) as [Hne Hnin].
  split; [done|]. intros Ht Hlen. eexists _, _.
  split; [by apply generate_audio_voice_gate|done].
Qed.

End SuggestedVoices.

Lemma suggestions_are_valid_parameters_witness :
  let cs := [character "Narrator" true None] in
  ∃ m l s,
    Gemini.suggest_voices no_provider cs = Ok m
    ∧ m !! "Narrator" = Some l ∧ s ∈ l
    ∧ Gemini.s_voice_id s = "narrator_2"
    ∧ ∃ p, Tts._process_params
             {[ "pitch" := VInt (Gemini.s_pitch s);
                "speed" := VFloat (Gemini.s_speed s) ]} = Ok p
           ∧ p !! "pitch" = Some (VInt (Gemini.s_pitch s))
           ∧ p !! "speed" = Some (VFloat (Gemini.s_speed s)).
Proof.
  intros cs. eexists _, _, _.
  split; [reflexivity|]. split; [reflexivity|].
  split; [apply list_elem_of_further, list_elem_of_here|].
  split; [reflexivity|].
  eapply (suggestions_are_valid_parameters no_provider cs _ "Narrator").
  - reflexivity.
  - reflexivity.
  - apply list_elem_of_further, list_elem_of_here.
Defined.

Lemma suggested_voices_not_in_catalog_witness :
  let cs := [character "Bob" false (Some "male")] in
  let w := fresh_world example_env None in
  ∃ m l s,
    Gemini.suggest_voices no_provider cs = Ok m
    ∧ m !! "Bob" = Some l ∧ s ∈ l
    ∧ Gemini.s_voice_id s = "male_1"
    ∧ (Gemini.s_voice_id s ∉ voice_ids (loaded (Tts.self w)))
    ∧ ∃ msg w',
        Tts.generate_audio example_env "Hello" (Gemini.s_voice_id s) None w
        = (Raise (ValueError msg), w')
        ∧ Tts.files w' = Tts.files w.
Proof.
  intros cs w. eexists _, _, _.
  split; [reflexivity|]. split; [reflexivity|].
  split; [apply list_elem_of_here|]. split; [reflexivity|].
  destruct (suggested_voices_not_in_catalog example_env no_provider cs _ "Bob"
              _ _ w "Hello" None eq_refl eq_refl
              (list_elem_of_here _ _) (reach_init example_env None))
    as [Hnin Hgen].
  split; [exact Hnin|]. apply Hgen.
  - discriminate.
  - vm_compute. discriminate.
Defined.
